(** * Face-matching backend: descriptor cache, duplicate suppression,
      pairwise comparison, collection matching and the per-event index.

    Shallow embedding of
      - flask-backend/face_recognition_advanced.py
        (_LRUCache, _remove_duplicate_faces, compare_faces,
         find_matching_photos, batch_analyze_photos)
      - flask-backend/insightface_faiss_service.py
        (_get_or_create_index, ingest, match)

    Conventions.
      - A Python float is a rational ([Q]).  Every comparison the code makes
        ([<=], [>=], [>], [max]) is made on the rational; a float that is not
        a finite number (the quotient by a zero norm) is [None].
      - [np.linalg.norm] takes a square root, which [Q] does not have: it is
        a parameter [linalg_norm] of the numeric sections, so every theorem
        there holds for whatever the library computes.
      - An exception is a value: a function that can raise returns [Res A].
      - Arguments are taken at the types the source annotates
        ([List[float]], [Optional[float]], [str], [int]), but for two,
        which the routes pass on unchecked from the body of a request: an
        item of a photo collection is a dict whose keys may be absent
        ([Photo.t]), and the tolerance of [compare_faces] is also read as
        a string ([AnyTolerance]).
      - The order in which the FAISS index gives rows of equal score is a
        parameter [ties] of the index sections. *)

From Stdlib Require Import ZArith QArith Qminmax List Sorting.Sorted Lia.
From Stdlib Require Import Ascii String DecimalString.
From stdpp Require Import gmap strings list.

Local Open Scope Z_scope.

(** ** Python prelude *)

Inductive exn : Type :=
| ValueError
| IndexError
| KeyError
| TypeError
| AssertionError
| RuntimeError
| NotInitialized
| Exception_ (cause : exn).

Inductive Res (A : Type) : Type :=
| Ret (a : A)
| Raise (e : exn).
Arguments Ret {A} a.
Arguments Raise {A} e.

#[global] Instance Res_ret : MRet Res := fun A a => Ret a.
#[global] Instance Res_bind : MBind Res := fun A B k m =>
  match m with
  | Ret a => k a
  | Raise e => Raise e
  end.

(** [try: body except Exception: handler]. *)
Definition try_except {A : Type} (body : Res A) (handler : exn -> Res A) : Res A :=
  match body with
  | Ret a => Ret a
  | Raise e => handler e
  end.

(** [l.remove(x)] deletes the first occurrence of [x]; the caller decides
    what happens when there is none. *)
Fixpoint remove_first (x : string) (l : list string) : list string :=
  match l with
  | [] => []
  | y :: l' => if decide (x = y) then l' else y :: remove_first x l'
  end.

(** [l.sort(key=key, reverse=True)]: a stable sort, largest key first; of two
    elements with equal keys the one that came first stays first. *)
Section SortDesc.
Context {A : Type} (key : A -> Q).

Fixpoint insert_desc (x : A) (l : list A) : list A :=
  match l with
  | [] => [x]
  | y :: l' =>
      if Qle_bool (key y) (key x) then x :: y :: l'
      else y :: insert_desc x l'
  end.

Fixpoint sort_desc (l : list A) : list A :=
  match l with
  | [] => []
  | x :: l' => insert_desc x (sort_desc l')
  end.

Definition ge_key (a b : A) : Prop := (key b <= key a)%Q.
End SortDesc.

(** ** _LRUCache *)

Module LRUCache.
Section Cache.
Context {V : Type}.

Record t : Type := mk {
  capacity : Z;
  ttl : Q;
  store : gmap string (Q * V);
  order : list string
}.

(** [__init__] *)
Definition init (capacity : Z) (ttl_seconds : Q) : t :=
  {| capacity := capacity; ttl := ttl_seconds; store := ∅; order := [] |}.

(** [delete]: [store.pop(key, None)], then [order.remove(key)] when the key
    is listed. *)
Definition delete (key : string) (c : t) : t :=
  {| capacity := capacity c;
     ttl := ttl c;
     store := base.delete key (store c);
     order := if bool_decide (key ∈ order c)
              then remove_first key (order c) else order c |}.

(** [get]; [now] is the reading of [time.time()]. *)
Definition get (now : Q) (key : string) (c : t) : option V * t :=
  match store c !! key with
  | Some (ts, value) =>
      if Qle_bool (now - ts) (ttl c) then
        (Some value,
         {| capacity := capacity c;
            ttl := ttl c;
            store := store c;
            order := (if bool_decide (key ∈ order c)
                      then remove_first key (order c) else order c)
                     ++ [key] |})
      else (None, delete key c)
  | None => (None, c)
  end.

(** [set].  [order.remove(key)] is not guarded here and raises ValueError
    when the key is not listed; [order.pop(0)] raises IndexError on an
    empty list. *)
Definition set (now : Q) (key : string) (value : V) (c : t) : Res t :=
  order1 ←
    (match store c !! key with
     | Some _ =>
         if bool_decide (key ∈ order c)
         then Ret (store c, remove_first key (order c))
         else Raise ValueError
     | None =>
         if Z.of_nat (length (order c)) >=? capacity c then
           match order c with
           | [] => Raise IndexError
           | evict :: rest => Ret (base.delete evict (store c), rest)
           end
         else Ret (store c, order c)
     end);
  Ret {| capacity := capacity c;
         ttl := ttl c;
         store := <[key := (now, value)]> (fst order1);
         order := snd order1 ++ [key] |}.

(** The caches a program can hold: made by the constructor and changed by
    the three methods. *)
Inductive built : t -> Prop :=
| built_init capacity ttl_seconds : built (init capacity ttl_seconds)
| built_get now key c : built c -> built (get now key c).2
| built_set now key value c c' :
    built c -> set now key value c = Ret c' -> built c'
| built_delete key c : built c -> built (delete key c).

(** The state they are in: the order list names exactly the stored keys,
    once. *)
Definition wf (c : t) : Prop :=
  NoDup (order c) ∧ dom (store c) = (list_to_set (order c) : gset string).

End Cache.
Arguments t : clear implicits.
End LRUCache.

(** ** Face boxes and duplicate suppression *)

Module Faces.

(** A face location is [(top, right, bottom, left)], in pixels. *)
Definition box : Type := Z * Z * Z * Z.

Definition overlap_area (face existing_face : box) : Z :=
  let '(top, right_, bottom, left_) := face in
  let '(ex_top, ex_right, ex_bottom, ex_left) := existing_face in
  Z.max 0 (Z.min right_ ex_right - Z.max left_ ex_left) *
  Z.max 0 (Z.min bottom ex_bottom - Z.max top ex_top).

Definition box_area (face : box) : Z :=
  let '(top, right_, bottom, left_) := face in
  (right_ - left_) * (bottom - top).

(** [overlap_area > 0.3 * min(face_area, existing_area)].  The areas are
    integers: the float product and the rational one put the same
    integers above them (for areas below 10^15), so the test is made on
    rationals. *)
Definition overlaps (face existing_face : box) : bool :=
  negb (Qle_bool (inject_Z (overlap_area face existing_face))
                 (0.3 * inject_Z (Z.min (box_area face) (box_area existing_face)))).

(** The inner loop: [is_duplicate] after scanning [unique_faces]. *)
Definition is_duplicate (unique_faces : list box) (face : box) : bool :=
  existsb (overlaps face) unique_faces.

(** One round of the outer loop. *)
Definition keep_face (unique_faces : list box) (face : box) : list box :=
  if is_duplicate unique_faces face then unique_faces
  else unique_faces ++ [face].

Definition _remove_duplicate_faces (face_locations : list box) : list box :=
  if (length face_locations <=? 1)%nat then face_locations
  else fold_left keep_face face_locations [].

(** No box of the list overlaps a box that stands before it. *)
Definition separated (l : list box) : Prop :=
  ∀ i j e f, (i < j)%nat -> l !! i = Some e -> l !! j = Some f ->
             overlaps f e = false.

End Faces.

(** ** numpy on one-dimensional arrays *)

Module Np.

(** [a - b]: elementwise, a one-element array is broadcast, any other
    difference of lengths raises ValueError. *)
Definition sub (a b : list Q) : Res (list Q) :=
  if (length a =? length b)%nat then Ret (zip_with Qminus a b)
  else match a, b with
       | _, [y] => Ret (map (fun x => x - y)%Q a)
       | [x], _ => Ret (map (fun y => x - y)%Q b)
       | _, _ => Raise ValueError
       end.

(** [np.dot(a, b)]: the lengths must agree. *)
Definition dot (a b : list Q) : Res Q :=
  if (length a =? length b)%nat
  then Ret (fold_left Qplus (zip_with Qmult a b) 0%Q)
  else Raise ValueError.

(** [a / b] on floats: no exception; dividing by zero gives [inf] or
    [nan], which is [None] here. *)
Definition div (a b : Q) : option Q :=
  if Qeq_bool b 0 then None else Some (a / b)%Q.

(** [v / s] *)
Definition scale_down (v : list Q) (s : Q) : list Q :=
  map (fun x => x / s)%Q v.

End Np.

(** [max(a, b)] of Python: the first argument unless the second is larger. *)
Definition py_max (a b : Q) : Q := if Qle_bool b a then a else b.

(** A loop whose body can raise: the exception leaves the loop. *)
Fixpoint for_each {A B : Type} (body : B -> A -> Res B) (l : list A) (acc : B)
  : Res B :=
  match l with
  | [] => Ret acc
  | x :: l' => acc' ← body acc x; for_each body l' acc'
  end.

(** ** AdvancedFaceRecognitionService: comparison and matching *)

Module Photo.
(** An item of [photo_collection], a dictionary: a key that is absent
    reads [None].  [id] is read with [photo_data['id']], which raises
    KeyError when the key is absent; the other fields are read with a
    test or a default. *)
Record t : Type := mk {
  id : option string;
  descriptor : option (list Q);
  cloudinaryUrl : option string;
  originalName : option string;
  uploadedBy : option string;
  uploadedAt : option string
}.
End Photo.

Module Comparison.
Record t : Type := mk {
  is_match : bool;
  distance : Q;
  similarity : option Q;
  confidence : Q;
  tolerance_used : Q
}.
End Comparison.

Module Matched.
Record t : Type := mk {
  id : string;
  score : Q;
  similarity : option Q;
  distance : Q;
  cloudinaryUrl : string;
  originalName : string;
  uploadedBy : string;
  uploadedAt : string;
  tolerance_used : Q
}.

End Matched.

Module PhotoData.
Record t : Type := mk {
  url : string;
  descriptors : list (list Q);
  face_count : nat
}.
End PhotoData.

Module Batch.
Record t : Type := mk {
  processed : nat;
  faces_found : nat;
  failed : nat;
  photo_data : list PhotoData.t
}.
End Batch.

Module FaceService.

Record t : Type := mk {
  initialized : bool;
  tolerance : Q
}.

(** [__init__]: [tolerance = 0.6]. *)
Definition init : t := {| initialized := false; tolerance := 0.6 |}.

Section Numeric.
Variable linalg_norm : list Q -> Q.

(** The body of the [try] of [compare_faces]; [tolerance] is the local
    variable after [if tolerance is None: tolerance = self.tolerance]. *)
Definition compare_faces_try (descriptor1 descriptor2 : list Q) (tolerance : Q)
  : Res Comparison.t :=
  diff ← Np.sub descriptor1 descriptor2;
  let distance := linalg_norm diff in
  dp ← Np.dot descriptor1 descriptor2;
  let cosine_similarity :=
    Np.div dp (linalg_norm descriptor1 * linalg_norm descriptor2)%Q in
  let is_match := Qle_bool distance tolerance in
  let confidence := py_max 0 (1 - distance / 1.2)%Q in
  Ret {| Comparison.is_match := is_match;
         Comparison.distance := distance;
         Comparison.similarity := cosine_similarity;
         Comparison.confidence := confidence;
         Comparison.tolerance_used := tolerance |}.

(** The [except] clause; [tolerance or self.tolerance] takes
    [self.tolerance] when [tolerance] is [0.0]. *)
Definition compare_faces_except (self : t) (tolerance : Q) : Res Comparison.t :=
  Ret {| Comparison.is_match := false;
         Comparison.distance := 999.0;
         Comparison.similarity := Some 0.0%Q;
         Comparison.confidence := 0.0;
         Comparison.tolerance_used :=
           if Qeq_bool tolerance 0 then FaceService.tolerance self
           else tolerance |}.

Definition compare_faces (self : t) (descriptor1 descriptor2 : list Q)
    (tolerance : option Q) : Res Comparison.t :=
  let tolerance := default (FaceService.tolerance self) tolerance in
  try_except (compare_faces_try descriptor1 descriptor2 tolerance)
             (fun _ => compare_faces_except self tolerance).

(** The dictionary appended to [matched_photos]; its first entry reads
    [photo_data['id']]. *)
Definition matched_photo (photo_data : Photo.t) (comparison : Comparison.t)
  : Res Matched.t :=
  id ← match Photo.id photo_data with
       | Some id => Ret id
       | None => Raise KeyError
       end;
  Ret
  {| Matched.id := id;
     Matched.score := Comparison.confidence comparison;
     Matched.similarity := Comparison.similarity comparison;
     Matched.distance := Comparison.distance comparison;
     Matched.cloudinaryUrl := default "" (Photo.cloudinaryUrl photo_data);
     Matched.originalName := default "" (Photo.originalName photo_data);
     Matched.uploadedBy := default "" (Photo.uploadedBy photo_data);
     Matched.uploadedAt := default "" (Photo.uploadedAt photo_data);
     Matched.tolerance_used := Comparison.tolerance_used comparison |}.

(** One round of the loop over [photo_collection]. *)
Definition match_photo (self : t) (user_descriptor : list Q) (tolerance : Q)
    (matched_photos : list Matched.t) (photo_data : Photo.t)
  : Res (list Matched.t) :=
  match Photo.descriptor photo_data with
  | None | Some [] => Ret matched_photos
  | Some d =>
      comparison ← compare_faces self user_descriptor d (Some tolerance);
      if Comparison.is_match comparison then
        if Qle_bool 0.4 (Comparison.confidence comparison)
        then
          m ← matched_photo photo_data comparison;
          Ret (matched_photos ++ [m])
        else Ret matched_photos
      else Ret matched_photos
  end.

(** What the loop asks of an item for [m] to be appended for it: a
    non-empty descriptor whose comparison is a match of confidence at
    least 0.4, and an id for the entry. *)
Definition qualifies (self : t) (user_descriptor : list Q) (tolerance : Q)
    (photo_data : Photo.t) (m : Matched.t) : Prop :=
  ∃ d comparison,
    Photo.descriptor photo_data = Some d ∧ d ≠ []
    ∧ compare_faces self user_descriptor d (Some tolerance) = Ret comparison
    ∧ Comparison.is_match comparison = true
    ∧ (Comparison.distance comparison <= tolerance)%Q
    ∧ (0.4 <= Comparison.confidence comparison)%Q
    ∧ matched_photo photo_data comparison = Ret m.

(** An item that passes the two gates, whether it has an id or not. *)
Definition passes (self : t) (user_descriptor : list Q) (tolerance : Q)
    (photo_data : Photo.t) : Prop :=
  ∃ d comparison,
    Photo.descriptor photo_data = Some d ∧ d ≠ []
    ∧ compare_faces self user_descriptor d (Some tolerance) = Ret comparison
    ∧ Comparison.is_match comparison = true
    ∧ (0.4 <= Comparison.confidence comparison)%Q.

Definition find_matching_photos (self : t) (user_descriptor : list Q)
    (photo_collection : list Photo.t) (tolerance : option Q)
  : Res (list Matched.t) :=
  if negb (initialized self) then Raise NotInitialized
  else
    try_except
      (let tolerance := default (FaceService.tolerance self) tolerance in
       matched_photos ←
         for_each (match_photo self user_descriptor tolerance)
                  photo_collection [];
       Ret (sort_desc Matched.score matched_photos))
      (fun e => Raise (Exception_ e)).

End Numeric.

Section BatchAnalyze.
(** [get_face_descriptors_from_url] downloads the image and runs the
    detector and the encoder; what it gives for a URL is a parameter.  (The
    source function catches its own exceptions and returns [None]; the
    [try] of [_process] is modelled for any callee.) *)
Variable get_face_descriptors_from_url : string -> Res (option (list (list Q))).

(** The closure [_process]. *)
Definition _process (idx_url : nat * string)
  : bool * string * option (list (list Q)) :=
  let '(i, url) := idx_url in
  match get_face_descriptors_from_url url with
  | Ret descriptors => (true, url, descriptors)
  | Raise _ => (false, url, None)
  end.

(** One round of the loop over [executor.map(_process, ...)], which
    yields the outcomes in the order of the URLs. *)
Definition tally (results : Batch.t)
    (r : bool * string * option (list (list Q))) : Batch.t :=
  let '(ok, url, descriptors) := r in
  let processed := S (Batch.processed results) in
  match ok, descriptors with
  | true, Some (d :: ds) =>
      {| Batch.processed := processed;
         Batch.faces_found := S (Batch.faces_found results);
         Batch.failed := Batch.failed results;
         Batch.photo_data :=
           Batch.photo_data results ++
           [ {| PhotoData.url := url;
                PhotoData.descriptors := d :: ds;
                PhotoData.face_count := length (d :: ds) |} ] |}
  | false, _ =>
      {| Batch.processed := processed;
         Batch.faces_found := Batch.faces_found results;
         Batch.failed := S (Batch.failed results);
         Batch.photo_data := Batch.photo_data results |}
  | true, _ =>
      {| Batch.processed := processed;
         Batch.faces_found := Batch.faces_found results;
         Batch.failed := Batch.failed results;
         Batch.photo_data := Batch.photo_data results |}
  end.

(** The three outcomes of a URL: descriptors found, an exception, or
    neither ([None] or an empty list without an exception). *)
Definition has_faces (url : string) : bool :=
  match get_face_descriptors_from_url url with
  | Ret (Some (_ :: _)) => true
  | _ => false
  end.

Definition raised (url : string) : bool :=
  match get_face_descriptors_from_url url with
  | Raise _ => true
  | Ret _ => false
  end.

Definition no_descriptors (url : string) : bool :=
  match get_face_descriptors_from_url url with
  | Ret None | Ret (Some []) => true
  | _ => false
  end.

Definition enumerate {A : Type} (l : list A) : list (nat * A) :=
  combine (seq 0 (length l)) l.

Definition batch_analyze_photos (photo_urls : list string) : Batch.t :=
  fold_left tally (map _process (enumerate photo_urls))
    {| Batch.processed := 0; Batch.faces_found := 0; Batch.failed := 0;
       Batch.photo_data := [] |}.

End BatchAnalyze.
End FaceService.

(** ** InsightFaceFaissService: the per-event index *)

(** A dictionary that keeps its keys in the order they were first set. *)
Module Dict.
Definition t : Type := list (string * Q).

(** [d.get(k, dflt)] *)
Fixpoint get (d : t) (k : string) (dflt : Q) : Q :=
  match d with
  | [] => dflt
  | (k', v) :: d' => if decide (k = k') then v else get d' k dflt
  end.

(** [d[k] = v] *)
Fixpoint set (d : t) (k : string) (v : Q) : t :=
  match d with
  | [] => [(k, v)]
  | (k', v') :: d' =>
      if decide (k = k') then (k, v) :: d' else (k', v') :: set d' k v
  end.
End Dict.

(** [s.split("#", 1)[0]]: the text before the first ['#'], all of [s] when
    it has none. *)
Fixpoint before_hash (s : string) : string :=
  match s with
  | EmptyString => EmptyString
  | String c s' =>
      if Ascii.eqb c "#"%char then EmptyString else String c (before_hash s')
  end.

(** [str(i)] for a natural number. *)
Definition str_of_nat (i : nat) : string := NilEmpty.string_of_uint (Nat.to_uint i).

Module Entry.
(** [{"index": faiss.IndexFlatIP(dim), "ids": [...], "vectors": ndarray}];
    [index] is the list of rows added to the FAISS index, [dim] the width
    given to both the index and the matrix when the entry is created. *)
Record t : Type := mk {
  dim : nat;
  index : list (list Q);
  ids : list string;
  vectors : list (list Q)
}.
End Entry.

Module Hit.
Record t : Type := mk { id : string; score : Q }.
End Hit.

Module Faiss.
(** Inner product of a query with a stored row of the same width. *)
Definition inner (q row : list Q) : Q :=
  fold_left Qplus (zip_with Qmult q row) 0%Q.

Fixpoint pad {A : Type} (n : nat) (l : list (option A)) : list (option A) :=
  match n, l with
  | O, _ => []
  | S n', [] => None :: pad n' []
  | S n', x :: l' => x :: pad n' l'
  end.

(** The library does not say which of two rows of equal inner product
    it gives first: [ties i j] tells whether row [i] goes before row
    [j], and every statement about the search holds for every [ties].
    [goes_before ties a b]: the hit [a] is given before the hit [b]. *)
Definition goes_before (ties : nat -> nat -> bool) (a b : Q * nat) : bool :=
  if Qle_bool (fst a) (fst b)
  then Qle_bool (fst b) (fst a) && ties (snd a) (snd b)
  else true.

Fixpoint insert_hit (ties : nat -> nat -> bool) (x : Q * nat)
    (l : list (Q * nat)) : list (Q * nat) :=
  match l with
  | [] => [x]
  | y :: l' =>
      if goes_before ties x y then x :: y :: l'
      else y :: insert_hit ties x l'
  end.

Fixpoint best_first (ties : nat -> nat -> bool) (l : list (Q * nat))
  : list (Q * nat) :=
  match l with
  | [] => []
  | x :: l' => insert_hit ties x (best_first ties l')
  end.

(** [index.search(q, k)] on an [IndexFlatIP]: the [k] rows of largest
    inner product, best first, as (score, row number); a slot past the
    last row carries the label [-1] and is [None] here.  The wrapper
    asserts the width of the query and [k > 0]. *)
Definition search (ties : nat -> nat -> bool) (d : nat)
    (rows : list (list Q)) (q : list Q) (k : Z)
  : Res (list (option (Q * nat))) :=
  if negb (length q =? d)%nat then Raise AssertionError
  else if negb (0 <? k) then Raise AssertionError
  else
    let scored := imap (fun i row => (inner q row, i)) rows in
    Ret (pad (Z.to_nat k) (map Some (best_first ties scored))).
End Faiss.

Module FaissService.

Record t : Type := mk {
  initialized : bool;
  event_indices : gmap string Entry.t
}.

(** The identifiers a scope holds; none when it has no entry. *)
Definition ids_of (self : t) (event_id : string) : list string :=
  match event_indices self !! event_id with
  | Some entry => Entry.ids entry
  | None => []
  end.

(** The rows its index holds, and the rows of its matrix [vectors]. *)
Definition rows_of (self : t) (event_id : string) : list (list Q) :=
  match event_indices self !! event_id with
  | Some entry => Entry.index entry
  | None => []
  end.

Definition vectors_of (self : t) (event_id : string) : list (list Q) :=
  match event_indices self !! event_id with
  | Some entry => Entry.vectors entry
  | None => []
  end.

(** The identifier [f"{photo_id}#{i}"]. *)
Definition face_id (photo_id : string) (i : nat) : string :=
  photo_id +:+ "#" +:+ str_of_nat i.

Section Service.
Variable linalg_norm : list Q -> Q.
(** Whether [_try_imports] and the loading of the model succeed. *)
Variable model_available : bool.
(** [compute_embeddings_from_url]: download and model inference. *)
Variable compute_embeddings_from_url : string -> Res (option (list (list Q))).
(** The order in which the FAISS index gives rows of equal score. *)
Variable ties : nat -> nat -> bool.

(** [if not self.initialized: self.initialize()] *)
Definition ensure_initialized (self : t) : Res t :=
  if initialized self then Ret self
  else if model_available
       then Ret {| initialized := true; event_indices := event_indices self |}
       else Raise RuntimeError.

(** [vec / (np.linalg.norm(vec) + 1e-8)] *)
Definition normalize (vec : list Q) : list Q :=
  Np.scale_down vec (linalg_norm vec + 1e-8)%Q.

Definition _get_or_create_index (self : t) (event_id : string) (dim : nat)
  : Entry.t * t :=
  match event_indices self !! event_id with
  | Some entry => (entry, self)
  | None =>
      let entry := {| Entry.dim := dim; Entry.index := [];
                      Entry.ids := []; Entry.vectors := [] |} in
      (entry, {| initialized := initialized self;
                 event_indices := <[event_id := entry]> (event_indices self) |})
  end.

(** The loop [for v, pid in zip(vectors_to_add, ids_to_add)].  [index] and
    [ids] are changed in place, so the entry keeps what was added before
    an exception; [vectors] is a local variable.  [np.vstack] raises
    ValueError when the row has another width than the matrix. *)
Fixpoint append_rows (rows : list (list Q * string)) (entry : Entry.t)
    (vectors : list (list Q)) : Res (list (list Q)) * Entry.t :=
  match rows with
  | [] => (Ret vectors, entry)
  | (v, pid) :: rows' =>
      if negb (length v =? Entry.dim entry)%nat then (Raise ValueError, entry)
      else
        append_rows rows'
          {| Entry.dim := Entry.dim entry;
             Entry.index := Entry.index entry ++ [v];
             Entry.ids := Entry.ids entry ++ [pid];
             Entry.vectors := Entry.vectors entry |}
          (vectors ++ [v])
  end.

(** [vectors_to_add], [ids_to_add]; [None] is the early [return False]. *)
Definition rows_to_add (photo_id : string) (image_url : option string)
    (embedding : option (list Q)) : Res (option (list (list Q * string))) :=
  match embedding with
  | None =>
      match image_url with
      | None | Some EmptyString => Raise ValueError
      | Some url =>
          vecs ← compute_embeddings_from_url url;
          match vecs with
          | None | Some [] => Ret None
          | Some vecs =>
              Ret (Some (imap (fun i v => (v, face_id photo_id i)) vecs))
          end
      end
  | Some embedding => Ret (Some [(normalize embedding, photo_id)])
  end.

(** [ingest]: the outcome and the service afterwards. *)
Definition ingest (self : t) (event_id photo_id : string)
    (image_url : option string) (embedding : option (list Q))
  : Res bool * t :=
  match ensure_initialized self with
  | Raise e => (Raise e, self)
  | Ret self =>
      match rows_to_add photo_id image_url embedding with
      | Raise e => (Raise e, self)
      | Ret None => (Ret false, self)
      | Ret (Some rows) =>
          let dim := length (hd [] (map fst rows)) in
          let '(entry, self) := _get_or_create_index self event_id dim in
          let '(r, entry) := append_rows rows entry (Entry.vectors entry) in
          match r with
          | Raise e =>
              (Raise e,
               {| initialized := initialized self;
                  event_indices := <[event_id := entry]> (event_indices self) |})
          | Ret vectors =>
              (Ret true,
               {| initialized := initialized self;
                  event_indices :=
                    <[event_id := {| Entry.dim := Entry.dim entry;
                                     Entry.index := Entry.index entry;
                                     Entry.ids := Entry.ids entry;
                                     Entry.vectors := vectors |}]>
                      (event_indices self) |})
          end
      end
  end.

(** The loop over [zip(D[0], I[0])]: [ids[idx]] raises IndexError past the
    end of [ids]. *)
Definition keep_hit (ids : list string) (threshold : Q)
    (results : list Hit.t) (h : option (Q * nat)) : Res (list Hit.t) :=
  match h with
  | None => Ret results
  | Some (score, idx) =>
      if Qle_bool threshold score then
        match ids !! idx with
        | Some pid => Ret (results ++ [ {| Hit.id := pid; Hit.score := score |} ])
        | None => Raise IndexError
        end
      else Ret results
  end.

(** The grouping loop: [grouped[base_id] = max(grouped.get(base_id, 0.0),
    r["score"])]. *)
Definition group_hit (grouped : Dict.t) (r : Hit.t) : Dict.t :=
  let base_id := before_hash (Hit.id r) in
  Dict.set grouped base_id (py_max (Dict.get grouped base_id 0.0) (Hit.score r)).

Definition group_by_photo (results : list Hit.t) : list Hit.t :=
  let grouped := fold_left group_hit results [] in
  let deduped := map (fun '(pid, sc) => {| Hit.id := pid; Hit.score := sc |}) grouped in
  sort_desc Hit.score deduped.

(** [match]: the outcome and the service afterwards. *)
Definition match_ (self : t) (event_id : string) (query_embedding : list Q)
    (top_k : Z) (threshold : Q) : Res (list Hit.t) * t :=
  match ensure_initialized self with
  | Raise e => (Raise e, self)
  | Ret self =>
      match event_indices self !! event_id with
      | None => (Ret [], self)
      | Some entry =>
          if (length (Entry.ids entry) =? 0)%nat then (Ret [], self)
          else
            let ids := Entry.ids entry in
            let q := normalize query_embedding in
            (hits ← Faiss.search ties (Entry.dim entry) (Entry.index entry) q
                      (Z.min top_k (Z.of_nat (length ids)));
             results ← for_each (keep_hit ids threshold) hits [];
             Ret (group_by_photo results),
             self)
      end
  end.

End Service.
End FaissService.

(** * Further functions of the backend and of its clients

    Shallow embedding of
      - flask-backend/face_recognition_advanced.py
        (_detect_faces_multiple_methods, get_face_descriptor,
         get_face_descriptors_from_url, the address rewriting of
         load_image_from_url)
      - flask-backend/insightface_faiss_service.py
        (compute_embedding_from_url, compute_embeddings_from_url, the
         address rewriting of _download_image)
      - flask-backend/photo_worker.py (PhotoWorker.process_photos)
      - flask-backend/bulk_ingest.py (BulkIngestService.bulk_ingest_event)
    and of [compare_faces] for a tolerance that is not a number
    ([AnyTolerance], with the reading of a string by [float]).

    The libraries the code calls (the detector and the encoder of
    face_recognition, the InsightFace analysis, the downloads, the HTTP
    calls of the clients) are parameters of the sections, so every theorem
    holds for whatever they return or raise. *)

(** ** Helpers to state what the matching loop does *)

Module MatchFacts.

(** The test of the loop of [find_matching_photos] before it compares:
    ['descriptor' in photo_data and photo_data['descriptor']]. *)
Definition carries_descriptor (photo_data : Photo.t) : bool :=
  match Photo.descriptor photo_data with
  | Some (_ :: _) => true
  | _ => false
  end.

(** The entries of a result that have a given score. *)
Definition with_score (s : Q) (l : list Matched.t) : list Matched.t :=
  List.filter (fun m => Qeq_bool (Matched.score m) s) l.

End MatchFacts.

(** ** Helpers to state what the index holds *)

Module IndexFacts.

(** [match] reads [ids[idx]] for the row numbers the search returns: the
    rows of the index and the identifiers go in pairs, and every row has
    the width the index was created with. *)
Definition aligned (entry : Entry.t) : Prop :=
  length (Entry.index entry) = length (Entry.ids entry)
  ∧ Forall (fun row => length row = Entry.dim entry) (Entry.index entry).

Definition all_aligned (self : FaissService.t) : Prop :=
  ∀ ev entry,
    FaissService.event_indices self !! ev = Some entry -> aligned entry.

End IndexFacts.

(** ** AdvancedFaceRecognitionService: detection and extraction *)

Module Detection.
Section Detect.
(** The image array, and the detector of the library:
    [face_recognition.face_locations(image, number_of_times_to_upsample,
    model)], whose default for the number of upsamplings is 1. *)
Variable Image : Type.
Variable face_locations : Image -> nat -> string -> Res (list Faces.box).

(** ['hog' if self.face_detection_model == 'cnn' else 'cnn'] *)
Definition fallback_model (face_detection_model : string) : string :=
  if String.eqb face_detection_model "cnn" then "hog" else "cnn".

(** [try: face_locations.extend(...) except Exception: (log)] on a list
    that is still empty. *)
Definition attempt (found : Res (list Faces.box)) : list Faces.box :=
  match found with
  | Ret locations => locations
  | Raise _ => []
  end.

(** The loop [for upsample in [0, 1, 2]], which stops at the first level
    that gives locations; it stands inside one [try], so an exception at
    one level leaves the loop. *)
Fixpoint multi_scale (image_rgb : Image) (upsamples : list nat)
  : Res (list Faces.box) :=
  match upsamples with
  | [] => Ret []
  | upsample :: rest =>
      locations ← face_locations image_rgb upsample "hog";
      match locations with
      | [] => multi_scale image_rgb rest
      | _ :: _ => Ret locations
      end
  end.

Definition _detect_faces_multiple_methods (face_detection_model : string)
    (image_rgb : Image) : list Faces.box :=
  let primary := attempt (face_locations image_rgb 1 face_detection_model) in
  let after_fallback :=
    if (length primary =? 0)%nat
    then attempt (face_locations image_rgb 1
                    (fallback_model face_detection_model))
    else primary in
  let after_multi_scale :=
    if (length after_fallback =? 0)%nat
    then attempt (multi_scale image_rgb [0; 1; 2]%nat)
    else after_fallback in
  if (1 <? length after_multi_scale)%nat
  then Faces._remove_duplicate_faces after_multi_scale
  else after_multi_scale.

End Detect.
End Detection.

Module Extraction.

(** [(bottom - top) * (right - left)] *)
Definition face_size (face : Faces.box) : Z :=
  let '(top, right_, bottom, left_) := face in
  (bottom - top) * (right_ - left_).

(** [np.argmax]: the position of the first occurrence of the largest
    value; [best_idx] and [best] are the position and the value of the
    largest seen so far, [idx] the position of the head of the list. *)
Fixpoint argmax_from (best_idx : nat) (best : Z) (idx : nat) (l : list Z)
  : nat :=
  match l with
  | [] => best_idx
  | x :: l' =>
      if best <? x then argmax_from idx x (S idx) l'
      else argmax_from best_idx best (S idx) l'
  end.

(** [np.argmax(l)]; ValueError on an empty sequence. *)
Definition argmax (l : list Z) : Res nat :=
  match l with
  | [] => Raise ValueError
  | x :: l' => Ret (argmax_from 0 x 1 l')
  end.

(** The exceptions of [get_face_descriptor]: the one raised before the
    [try], and the one the [except] clause raises, which carries the
    text of what went wrong inside the [try]. *)
Inductive reason : Type :=
| could_not_load
| no_faces_found
| no_face_encoding
| raised (e : exn).

Inductive failure : Type :=
| service_not_initialized
| failed_to_analyze (why : reason).

Inductive outcome : Type :=
| descriptor (encoding_list : list Q)
| failed (f : failure).

Section Extract.
Variable Image : Type.
Variable face_locations : Image -> nat -> string -> Res (list Faces.box).
(** The input of [get_face_descriptor], an array or an uploaded file, and
    the image made of it: [_preprocess_image] for an array,
    [load_image_from_file] for a file, which gives [None] when the file
    cannot be read. *)
Variable Input : Type.
Variable load_image : Input -> option Image.
(** [load_image_from_url], which gives [None] on any failure. *)
Variable load_image_from_url : string -> option Image.
(** [face_recognition.face_encodings(image, locations, num_jitters,
    model='large')] *)
Variable face_encodings : Image -> list Faces.box -> Res (list (list Q)).
Variable face_detection_model : string.

Local Abbreviation detect :=
  (Detection._detect_faces_multiple_methods Image face_locations
     face_detection_model).

(** The body of the [try] of [get_face_descriptor]. *)
Definition select_encoding (face_locations : list Faces.box)
    (face_encodings : list (list Q)) : Res (list Q) :=
  if (1 <? length face_locations)%nat then
    largest_face_idx ← argmax (map face_size face_locations);
    match face_encodings !! largest_face_idx with
    | Some selected_encoding => Ret selected_encoding
    | None => Raise IndexError
    end
  else
    match face_encodings !! 0%nat with
    | Some selected_encoding => Ret selected_encoding
    | None => Raise IndexError
    end.

Definition get_face_descriptor (self : FaceService.t) (image_input : Input)
  : outcome :=
  if negb (FaceService.initialized self) then failed service_not_initialized
  else
    match load_image image_input with
    | None => failed (failed_to_analyze could_not_load)
    | Some image_rgb =>
        let face_locations := detect image_rgb in
        if (length face_locations =? 0)%nat
        then failed (failed_to_analyze no_faces_found)
        else
          match face_encodings image_rgb face_locations with
          | Raise e => failed (failed_to_analyze (raised e))
          | Ret encodings =>
              if (length encodings =? 0)%nat
              then failed (failed_to_analyze no_face_encoding)
              else
                match select_encoding face_locations encodings with
                | Ret encoding_list => descriptor encoding_list
                | Raise e => failed (failed_to_analyze (raised e))
                end
          end
    end.

(** [get_face_descriptors_from_url]; the cache is the state, [now_get]
    and [now_set] are the readings of the clock in [descriptor_cache.get]
    and in [descriptor_cache.set].  Every exception ends in [None]. *)
Definition get_face_descriptors_from_url (now_get now_set : Q)
    (image_url : string) (descriptor_cache : LRUCache.t (list (list Q)))
  : option (list (list Q)) * LRUCache.t (list (list Q)) :=
  let '(cached, descriptor_cache) :=
    LRUCache.get now_get image_url descriptor_cache in
  match cached with
  | Some cached => (Some cached, descriptor_cache)
  | None =>
      match load_image_from_url image_url with
      | None => (None, descriptor_cache)
      | Some image_rgb =>
          let face_locations := detect image_rgb in
          if (length face_locations =? 0)%nat then (None, descriptor_cache)
          else
            match face_encodings image_rgb face_locations with
            | Raise _ => (None, descriptor_cache)
            | Ret encodings_list =>
                if (length encodings_list =? 0)%nat
                then (None, descriptor_cache)
                else
                  match LRUCache.set now_set image_url encodings_list
                          descriptor_cache with
                  | Ret descriptor_cache =>
                      (Some encodings_list, descriptor_cache)
                  | Raise _ => (None, descriptor_cache)
                  end
            end
      end
  end.

End Extract.
End Extraction.

(** ** The address an image is fetched from *)

Module Url.

(** [sub in s] *)
Fixpoint contains (sub s : string) : bool :=
  if String.prefix sub s then true
  else match s with
       | EmptyString => false
       | String _ s' => contains sub s'
       end.

(** [s.replace(old, new)] for a non-empty [old]: the occurrences are
    taken from the left and do not overlap; [skip] counts the characters
    of the occurrence just replaced that are still to pass. *)
Fixpoint replace_from (old new : string) (skip : nat) (s : string) : string :=
  match s with
  | EmptyString => EmptyString
  | String c s' =>
      match skip with
      | S skip' => replace_from old new skip' s'
      | O =>
          if String.prefix old s
          then new +:+ replace_from old new (String.length old - 1) s'
          else String c (replace_from old new 0 s')
      end
  end.

Definition replace (old new s : string) : string := replace_from old new 0 s.

(** The rewriting of [load_image_from_url] and of [_download_image]: a
    Cloudinary address that has no width yet is given a smaller
    rendition. *)
Definition optimized_url (image_url : string) : string :=
  if contains "res.cloudinary.com" image_url
     && contains "/image/upload/" image_url
     && negb (contains "/w_" image_url)
  then replace "/image/upload/" "/image/upload/w_640,q_75,c_limit,fl_lossy/"
         image_url
  else image_url.

End Url.

(** ** InsightFaceFaissService: the vectors of an image *)

Module Face.
(** A face as the InsightFace analysis returns it: the score of the
    detection, when it has one, and the vector the code takes
    ([normed_embedding], or [embedding] without it). *)
Record t : Type := mk {
  det_score : option Q;
  embedding : list Q
}.
End Face.

Module Embedding.

(** [max(l, key=key)] on a list that starts with [best]: a later element
    replaces the one held only when its key is larger. *)
Fixpoint max_from {A : Type} (key : A -> Q) (best : A) (l : list A) : A :=
  match l with
  | [] => best
  | x :: l' =>
      if Qle_bool (key x) (key best) then max_from key best l'
      else max_from key x l'
  end.

(** [getattr(f, 'det_score', 0.0)] *)
Definition score (f : Face.t) : Q := default 0.0%Q (Face.det_score f).

Section Embed.
Variable linalg_norm : list Q -> Q.
Variable model_available : bool.
Variable Image : Type.
(** [_download_image], which gives [None] when the download fails or the
    bytes are no image, and [self.app.get]; neither call stands in a
    [try]. *)
Variable _download_image : string -> Res (option Image).
Variable app_get : Image -> Res (list Face.t).

(** [vec / (np.linalg.norm(vec) + 1e-8)] of the vector of a face. *)
Definition unit_vector (f : Face.t) : list Q :=
  FaissService.normalize linalg_norm (Face.embedding f).

Definition compute_embedding_from_url (self : FaissService.t)
    (image_url : string) : Res (option (list Q)) * FaissService.t :=
  match FaissService.ensure_initialized model_available self with
  | Raise e => (Raise e, self)
  | Ret self =>
      match _download_image image_url with
      | Raise e => (Raise e, self)
      | Ret None => (Ret None, self)
      | Ret (Some img) =>
          (faces ← app_get img;
           match faces with
           | [] => Ret None
           | f :: faces' => Ret (Some (unit_vector (max_from score f faces')))
           end,
           self)
      end
  end.

Definition compute_embeddings_from_url (self : FaissService.t)
    (image_url : string) : Res (option (list (list Q))) * FaissService.t :=
  match FaissService.ensure_initialized model_available self with
  | Raise e => (Raise e, self)
  | Ret self =>
      match _download_image image_url with
      | Raise e => (Raise e, self)
      | Ret None => (Ret None, self)
      | Ret (Some img) =>
          (faces ← app_get img;
           match faces with
           | [] => Ret None
           | _ :: _ => Ret (Some (map unit_vector faces))
           end,
           self)
      end
  end.

End Embed.
End Embedding.

(** ** The ingestion clients: photo_worker.py and bulk_ingest.py *)

Module Item.
(** A photo as the clients read it, with [photo.get(...)]: a field that
    is absent reads [None]. *)
Record t : Type := mk {
  id : option string;
  event_id : option string;
  project_passcode : option string;
  cloudinaryUrl : option string;
  cloudinary_url : option string
}.
End Item.

Module Counts.
Record t : Type := mk {
  total : nat;
  success : nat;
  failed : nat;
  skipped : nat
}.
End Counts.

(** [a or b] on optional strings: [a] unless it is [None] or empty. *)
Definition py_or (a b : option string) : option string :=
  match a with
  | Some (String _ _) => a
  | _ => b
  end.

Module PhotoWorker.
Section Worker.
(** The backend behind the HTTP calls, and [ingest_photo], which turns
    every failure into [False]. *)
Variable Backend : Type.
Variable ingest_photo : Backend -> string -> string -> string -> bool * Backend.

Record t : Type := mk {
  processed_photos : gset string;
  backend : Backend
}.

(** One round of the loop of [process_photos]. *)
Definition process_photo (st : Counts.t * t) (photo : Item.t) : Counts.t * t :=
  let '(results, self) := st in
  let skip :=
    ({| Counts.total := Counts.total results;
        Counts.success := Counts.success results;
        Counts.failed := Counts.failed results;
        Counts.skipped := S (Counts.skipped results) |}, self) in
  match Item.id photo,
        py_or (Item.event_id photo) (Item.project_passcode photo),
        py_or (Item.cloudinaryUrl photo) (Item.cloudinary_url photo) with
  | Some (String c0 s0 as photo_id), Some (String c1 s1 as event_id),
    Some (String c2 s2 as image_url) =>
      if bool_decide (photo_id ∈ processed_photos self) then skip
      else
        let '(success, backend) :=
          ingest_photo (backend self) event_id photo_id image_url in
        if success then
          ({| Counts.total := Counts.total results;
              Counts.success := S (Counts.success results);
              Counts.failed := Counts.failed results;
              Counts.skipped := Counts.skipped results |},
           {| processed_photos := {[ photo_id ]} ∪ processed_photos self;
              backend := backend |})
        else
          ({| Counts.total := Counts.total results;
              Counts.success := Counts.success results;
              Counts.failed := S (Counts.failed results);
              Counts.skipped := Counts.skipped results |},
           {| processed_photos := processed_photos self;
              backend := backend |})
  | _, _, _ => skip
  end.

Definition process_photos (self : t) (photos : list Item.t) : Counts.t * t :=
  fold_left process_photo photos
    ({| Counts.total := length photos; Counts.success := 0;
        Counts.failed := 0; Counts.skipped := 0 |}, self).

End Worker.
End PhotoWorker.

Module BulkIngest.

Inductive result : Type := success | failed | skipped.

Section Bulk.
(** What the call of [ingest_photo] made for the photo at a position of
    the list answers. *)
Variable ingest_photo : nat -> string -> string -> string -> bool.

(** The closure [process_photo], for the photo at position [i]. *)
Definition process_photo (event_id : string) (i : nat) (photo : Item.t)
  : result :=
  match Item.id photo,
        py_or (Item.cloudinaryUrl photo) (Item.cloudinary_url photo) with
  | Some (String c0 s0 as photo_id), Some (String c1 s1 as image_url) =>
      if ingest_photo i event_id photo_id image_url then success else failed
  | _, _ => skipped
  end.

(** [results[result] += 1] *)
Definition count (results : Counts.t) (r : result) : Counts.t :=
  match r with
  | success =>
      {| Counts.total := Counts.total results;
         Counts.success := S (Counts.success results);
         Counts.failed := Counts.failed results;
         Counts.skipped := Counts.skipped results |}
  | failed =>
      {| Counts.total := Counts.total results;
         Counts.success := Counts.success results;
         Counts.failed := S (Counts.failed results);
         Counts.skipped := Counts.skipped results |}
  | skipped =>
      {| Counts.total := Counts.total results;
         Counts.success := Counts.success results;
         Counts.failed := Counts.failed results;
         Counts.skipped := S (Counts.skipped results) |}
  end.

(** [bulk_ingest_event]; [completed] lists the positions of the photos
    in the order in which [as_completed] hands over their futures. *)
Definition bulk_ingest_event (event_id : string) (photos : list Item.t)
    (completed : list nat) : Counts.t :=
  fold_left
    (fun results i =>
       match photos !! i with
       | Some photo => count results (process_photo event_id i photo)
       | None => results
       end)
    completed
    {| Counts.total := length photos; Counts.success := 0;
       Counts.failed := 0; Counts.skipped := 0 |}.

End Bulk.
End BulkIngest.

(** ** Helpers to state which element a selection takes *)

Module Selection.

(** [idx] is the position of the first largest value of [l]. *)
Definition first_largest {A : Type} (le lt : A -> A -> Prop) (l : list A)
    (idx : nat) : Prop :=
  ∃ best, l !! idx = Some best
    ∧ ∀ j x, l !! j = Some x -> le x best ∧ ((j < idx)%nat -> lt x best).

End Selection.

(** ** Helpers to state what the clients do with a photo *)

Module ItemFacts.

(** The identifier of a photo that has the three fields [process_photos]
    asks for: an id, an event (or a project passcode) and an address,
    none of them empty. *)
Definition ready_id (photo : Item.t) : option string :=
  match Item.id photo,
        py_or (Item.event_id photo) (Item.project_passcode photo),
        py_or (Item.cloudinaryUrl photo) (Item.cloudinary_url photo) with
  | Some (String c0 s0 as photo_id), Some (String _ _), Some (String _ _) =>
      Some photo_id
  | _, _, _ => None
  end.

(** Whether a photo has the two fields [bulk_ingest_event] asks for. *)
Definition has_id_and_url (photo : Item.t) : bool :=
  match Item.id photo,
        py_or (Item.cloudinaryUrl photo) (Item.cloudinary_url photo) with
  | Some (String _ _), Some (String _ _) => true
  | _, _ => false
  end.

End ItemFacts.

Module BulkFacts.

(** Whether two results of [process_photo] are the same. *)
Definition same_result (r r' : BulkIngest.result) : bool :=
  match r, r' with
  | BulkIngest.success, BulkIngest.success
  | BulkIngest.failed, BulkIngest.failed
  | BulkIngest.skipped, BulkIngest.skipped => true
  | _, _ => false
  end.

End BulkFacts.

(** ** compare_faces on the tolerance a request can carry *)

(** [float(s)] for a string.  The decimal texts, a sign, digits and a
    point, are read; a text in ASCII with no digit, and without the names
    of the infinities and of nan, is refused, with ValueError.  What else
    Python reads (exponents, blanks and underscores around digits, the
    names, digits outside ASCII) is left unsaid: [unread]. *)
Module PyFloat.

Inductive reading : Type :=
| read (q : Q)
| refused
| unread.

Definition digit (c : ascii) : option Z :=
  let n := Z.of_nat (nat_of_ascii c) in
  if (48 <=? n) && (n <=? 57) then Some (n - 48) else None.

(** The digits of [s] as a number, and how many they are; [None] when a
    character is no digit. *)
Fixpoint number (acc : Z) (count : nat) (s : string) : option (Z * nat) :=
  match s with
  | EmptyString => Some (acc, count)
  | String c s' =>
      match digit c with
      | Some d => number (10 * acc + d) (S count) s'
      | None => None
      end
  end.

(** The text before the first point, and the text after it. *)
Fixpoint split_point (s : string) : string * option string :=
  match s with
  | EmptyString => (EmptyString, None)
  | String c s' =>
      if Ascii.eqb c "."%char then (EmptyString, Some s')
      else let '(whole, fraction) := split_point s' in
           (String c whole, fraction)
  end.

Definition unsigned (s : string) : option Q :=
  let '(whole, fraction) := split_point s in
  match number 0 0 whole, number 0 0 (default EmptyString fraction) with
  | Some (w, nw), Some (f, nf) =>
      if (nw + nf =? 0)%nat then None
      else Some (Qmake (w * 10 ^ Z.of_nat nf + f) (Z.to_pos (10 ^ Z.of_nat nf)))
  | _, _ => None
  end.

Definition decimal (s : string) : option Q :=
  match s with
  | String c s' =>
      if Ascii.eqb c "+"%char then unsigned s'
      else if Ascii.eqb c "-"%char then Qopp <$> unsigned s'
      else unsigned s
  | EmptyString => None
  end.

Fixpoint all_chars (f : ascii -> bool) (s : string) : bool :=
  match s with
  | EmptyString => true
  | String c s' => f c && all_chars f s'
  end.

Definition lower (c : ascii) : ascii :=
  let n := nat_of_ascii c in
  if (65 <=? n)%nat && (n <=? 90)%nat then ascii_of_nat (n + 32) else c.

Fixpoint lowered (s : string) : string :=
  match s with
  | EmptyString => EmptyString
  | String c s' => String (lower c) (lowered s')
  end.

Definition float_of_str (s : string) : reading :=
  match decimal s with
  | Some q => read q
  | None =>
      if all_chars (fun c => (nat_of_ascii c <? 128)%nat) s
         && all_chars (fun c => negb (bool_decide (is_Some (digit c)))) s
         && negb (Url.contains "inf" (lowered s))
         && negb (Url.contains "nan" (lowered s))
      then refused
      else unread
  end.

End PyFloat.

Module Tolerance.

(** The [tolerance] of a call once it is not [None]: a number, as the
    annotation says, or a string, which the route passes on from the
    body of a request as it passes a number. *)
Inductive t : Type :=
| number (q : Q)
| text (s : string).

(** The truth value of [tolerance] in [tolerance or self.tolerance]. *)
Definition truthy (tolerance : t) : bool :=
  match tolerance with
  | number q => negb (Qeq_bool q 0)
  | text EmptyString => false
  | text (String _ _) => true
  end.

(** [distance <= tolerance], for the float [distance]: the comparison
    of a float with a string raises TypeError. *)
Definition le (distance : Q) (tolerance : t) : Res bool :=
  match tolerance with
  | number q => Ret (Qle_bool distance q)
  | text _ => Raise TypeError
  end.

(** [float(tolerance)]; [None] where [float] is left unsaid. *)
Definition to_float (tolerance : t) : option (Res Q) :=
  match tolerance with
  | number q => Some (Ret q)
  | text s =>
      match PyFloat.float_of_str s with
      | PyFloat.read q => Some (Ret q)
      | PyFloat.refused => Some (Raise ValueError)
      | PyFloat.unread => None
      end
  end.

End Tolerance.

Module AnyTolerance.
Section Numeric.
Variable linalg_norm : list Q -> Q.

(** The body of the [try] of [compare_faces]; [tolerance] is the local
    variable after [if tolerance is None: tolerance = self.tolerance].
    [Ret None]: the result depends on a reading [float] leaves unsaid. *)
Definition compare_faces_try (descriptor1 descriptor2 : list Q)
    (tolerance : Tolerance.t) : Res (option Comparison.t) :=
  diff ← Np.sub descriptor1 descriptor2;
  let distance := linalg_norm diff in
  dp ← Np.dot descriptor1 descriptor2;
  let cosine_similarity :=
    Np.div dp (linalg_norm descriptor1 * linalg_norm descriptor2)%Q in
  is_match ← Tolerance.le distance tolerance;
  let confidence := py_max 0 (1 - distance / 1.2)%Q in
  match Tolerance.to_float tolerance with
  | Some tolerance_used =>
      tolerance_used ← tolerance_used;
      Ret (Some {| Comparison.is_match := is_match;
                   Comparison.distance := distance;
                   Comparison.similarity := cosine_similarity;
                   Comparison.confidence := confidence;
                   Comparison.tolerance_used := tolerance_used |})
  | None => Ret None
  end.

(** The [except] clause, with [float(tolerance or self.tolerance)]. *)
Definition compare_faces_except (self : FaceService.t)
    (tolerance : Tolerance.t) : option (Res Comparison.t) :=
  match Tolerance.to_float
          (if Tolerance.truthy tolerance then tolerance
           else Tolerance.number (FaceService.tolerance self)) with
  | Some (Ret tolerance_used) =>
      Some (Ret {| Comparison.is_match := false;
                   Comparison.distance := 999.0;
                   Comparison.similarity := Some 0.0%Q;
                   Comparison.confidence := 0.0;
                   Comparison.tolerance_used := tolerance_used |})
  | Some (Raise e) => Some (Raise e)
  | None => None
  end.

(** [compare_faces] for a tolerance that is absent, a number or a
    string; [None] where [float] is left unsaid. *)
Definition compare_faces (self : FaceService.t)
    (descriptor1 descriptor2 : list Q) (tolerance : option Tolerance.t)
  : option (Res Comparison.t) :=
  let tolerance :=
    default (Tolerance.number (FaceService.tolerance self)) tolerance in
  match compare_faces_try descriptor1 descriptor2 tolerance with
  | Ret (Some comparison) => Some (Ret comparison)
  | Ret None => None
  | Raise _ => compare_faces_except self tolerance
  end.

End Numeric.
End AnyTolerance.

(** * Concrete data for the examples *)

Module Examples.

(** A cache of capacity 2 holding "a" (older) and "b". *)
Definition cache_ab : Res (LRUCache.t nat) :=
  c ← LRUCache.set 0 "a" 1%nat (LRUCache.init 2 3600);
  LRUCache.set 1 "b" 2%nat c.

(** What a test reads off a cache: the order list and whether "a" and
    "b" are stored. *)
Definition observe (c : LRUCache.t nat) : list string * bool * bool :=
  (LRUCache.order c,
   bool_decide (is_Some (LRUCache.store c !! "a")),
   bool_decide (is_Some (LRUCache.store c !! "b"))).

(** The same cache, written out. *)
Definition cache_two : LRUCache.t nat :=
  {| LRUCache.capacity := 2;
     LRUCache.ttl := 3600;
     LRUCache.store := {[ "a" := (0%Q, 1%nat); "b" := (1%Q, 2%nat) ]};
     LRUCache.order := ["a"; "b"] |}.

(** A norm to run the numeric code with: the square root of the sum of
    squares, rounded down to six decimals. *)
Definition sqrt_down (x : Q) : Q :=
  Qred (Z.sqrt (Qnum x * Z.pos (Qden x) * 10 ^ 12) # (Qden x * 10 ^ 6)).

Definition norm6 (v : list Q) : Q :=
  sqrt_down (fold_left Qplus (map (fun x => x * x)%Q v) 0%Q).

Definition service : FaceService.t :=
  {| FaceService.initialized := true; FaceService.tolerance := 0.6 |}.

(** Extraction outcomes by URL: one face, an exception, or nothing. *)
Definition descriptors_of (url : string) : Res (option (list (list Q))) :=
  if String.eqb url "face.jpg" then Ret (Some [[0.6; 0.8]%Q])
  else if String.eqb url "broken.jpg" then Raise RuntimeError
  else Ret None.

(** Embeddings by URL: an image with two faces, or no face. *)
Definition embeddings_of (url : string) : Res (option (list (list Q))) :=
  if String.eqb url "two.jpg" then Ret (Some [[1; 0]%Q; [0; 1]%Q])
  else Ret None.

Definition empty_index : FaissService.t :=
  {| FaissService.initialized := true; FaissService.event_indices := ∅ |}.

(** A scope with the two faces of one photo. *)
Definition two_faces : FaissService.t :=
  {| FaissService.initialized := true;
     FaissService.event_indices :=
       {[ "wedding" :=
            {| Entry.dim := 2;
               Entry.index := [[1; 0]%Q; [0; 1]%Q];
               Entry.ids := ["photo1#0"; "photo1#1"];
               Entry.vectors := [[1; 0]%Q; [0; 1]%Q] |} ]} |}.

Definition photo (id : string) (descriptor : option (list Q)) : Photo.t :=
  {| Photo.id := Some id; Photo.descriptor := descriptor;
     Photo.cloudinaryUrl := None; Photo.originalName := None;
     Photo.uploadedBy := None; Photo.uploadedAt := None |}.

(** The query is [0.6, 0.8]: "near" is at distance 0.3, "far" at
    distance 1, "same" at distance 0, "bare" has no descriptor. *)
Definition query : list Q := [0.6; 0.8]%Q.

Definition collection : list Photo.t :=
  [ photo "near" (Some [0.6; 0.5]%Q);
    photo "far" (Some [0; 0]%Q);
    photo "bare" None;
    photo "same" (Some [0.6; 0.8]%Q) ].


(** Rows of equal score, the later row first. *)
Definition later_first (i j : nat) : bool := (j <? i)%nat.

Definition three_boxes : list Faces.box :=
  [ (0, 10, 10, 0); (0, 100, 100, 0); (200, 300, 300, 200) ].

End Examples.

(** * Concrete data for the further examples *)

Module Samples.

(** A cache of capacity 2 holding "a" alone. *)
Definition cache_a : LRUCache.t nat :=
  {| LRUCache.capacity := 2;
     LRUCache.ttl := 3600;
     LRUCache.store := {[ "a" := (0%Q, 1%nat) ]};
     LRUCache.order := ["a"] |}.

(** A detector on images named by a number.  On image 0 the cnn model
    raises and the hog model finds nothing before the second
    upsampling; on the other images the cnn model finds two faces. *)
Definition detector (image upsample : nat) (model : string)
  : Res (list Faces.box) :=
  match image with
  | O =>
      if String.eqb model "cnn" then Raise RuntimeError
      else if (upsample =? 2)%nat then Ret Examples.three_boxes
           else Ret []
  | S _ =>
      if String.eqb model "cnn"
      then Ret [ (0, 10, 10, 0); (20, 50, 50, 20) ]
      else Ret []
  end.

(** An encoder that gives, for each face, its size as only number. *)
Definition encoder (image : nat) (locations : list Faces.box)
  : Res (list (list Q)) :=
  Ret (map (fun face => [inject_Z (Extraction.face_size face)]) locations).

Definition loader (url : string) : option nat :=
  if String.eqb url "face.jpg" then Some 1%nat else None.

Definition offline (url : string) : option nat := None.

(** Two addresses that give an image. *)
Definition loader_two (url : string) : option nat :=
  if String.eqb url "face.jpg" then Some 1%nat
  else if String.eqb url "other.jpg" then Some 2%nat
       else None.

Definition descriptor_cache : LRUCache.t (list (list Q)) :=
  LRUCache.init 2000 3600.

(** Three faces, the second and the third with the highest score. *)
Definition faces_of (image : nat) : Res (list Face.t) :=
  Ret [ {| Face.det_score := Some 0.5%Q; Face.embedding := [3; 4]%Q |};
        {| Face.det_score := Some 0.9%Q; Face.embedding := [1; 0]%Q |};
        {| Face.det_score := Some 0.9%Q; Face.embedding := [0; 1]%Q |} ].

Definition item (id event_id url : option string) : Item.t :=
  {| Item.id := id; Item.event_id := event_id;
     Item.project_passcode := None;
     Item.cloudinaryUrl := url; Item.cloudinary_url := None |}.

(** A batch with a photo that has no event and a photo listed twice. *)
Definition batch : list Item.t :=
  [ item (Some "p1") (Some "e") (Some "u1");
    item (Some "p2") None (Some "u2");
    item (Some "p1") (Some "e") (Some "u1") ].

(** A backend that counts the calls and accepts every photo. *)
Definition post (backend : nat) (event_id photo_id image_url : string)
  : bool * nat := (true, S backend).

Definition worker : PhotoWorker.t nat :=
  {| PhotoWorker.processed_photos := ∅; PhotoWorker.backend := 0%nat |}.

(** The calls for the photos at even positions succeed. *)
Definition answers (i : nat) (event_id photo_id image_url : string) : bool :=
  Nat.even i.

End Samples.

(** * Properties *)

(** ** The stable descending sort *)

Section SortDescFacts.
Context {A : Type} (key : A -> Q).

Lemma insert_desc_perm (x : A) (l : list A) :
  Permutation (insert_desc key x l) (x :: l).
Proof.
  induction l as [|y l IH]; simpl; [reflexivity|].
  destruct (Qle_bool (key y) (key x)); [reflexivity|].
  rewrite IH. apply perm_swap.
Qed.

Lemma sort_desc_perm (l : list A) : Permutation (sort_desc key l) l.
Proof.
  induction l as [|x l IH]; simpl; [reflexivity|].
  rewrite insert_desc_perm. now rewrite IH.
Qed.

Lemma elem_of_sort_desc (x : A) (l : list A) : x ∈ sort_desc key l ↔ x ∈ l.
Proof. now rewrite sort_desc_perm. Qed.

Lemma Qle_bool_false (a b : Q) : Qle_bool a b = false -> (b < a)%Q.
Proof.
  intros H. apply Qnot_le_lt. intros Hle.
  apply Qle_bool_iff in Hle. congruence.
Qed.

Lemma insert_desc_sorted (x : A) (l : list A) :
  StronglySorted (ge_key key) l ->
  StronglySorted (ge_key key) (insert_desc key x l).
Proof.
  induction 1 as [|y l Hs IH Hall]; simpl.
  - constructor; constructor.
  - destruct (Qle_bool (key y) (key x)) eqn:E.
    + apply Qle_bool_iff in E.
      constructor; [now constructor|].
      constructor; [exact E|].
      eapply Forall_impl; [exact Hall|].
      intros z Hz. unfold ge_key in *. now apply Qle_trans with (key y).
    + apply Qle_bool_false in E.
      constructor; [exact IH|].
      apply Forall_forall. intros z Hz.
      rewrite insert_desc_perm in Hz. apply elem_of_cons in Hz as [->|Hz].
      * now apply Qlt_le_weak.
      * revert z Hz. now apply Forall_forall.
Qed.

Lemma sort_desc_sorted (l : list A) :
  StronglySorted (ge_key key) (sort_desc key l).
Proof.
  induction l as [|x l IH]; simpl; [constructor|].
  now apply insert_desc_sorted.
Qed.
End SortDescFacts.

(** Equal keys keep the order of the input, as [list.sort] does. *)
Example sort_desc_stable :
  sort_desc snd [("a", 1%Q); ("b", 2%Q); ("c", 1%Q); ("d", 2%Q)]
  = [("b", 2%Q); ("d", 2%Q); ("a", 1%Q); ("c", 1%Q)].
Proof. reflexivity. Qed.

(** ** _LRUCache *)

Section RemoveFirst.
Implicit Types (l : list string) (x k : string).

Lemma elem_of_remove_first x k l :
  NoDup l -> k ∈ remove_first x l ↔ k ∈ l ∧ k ≠ x.
Proof.
  induction 1 as [|y l Hy Hnd IH]; simpl.
  - split; [intros H; inversion H|intros [H _]; inversion H].
  - destruct (decide (x = y)) as [->|Hne].
    + rewrite elem_of_cons. split.
      * intros Hk. split; [now right|]. intros ->. contradiction.
      * intros [[Hky|Hk] Hn]; [contradiction|assumption].
    + rewrite !elem_of_cons, IH. split.
      * intros [->|[Hk Hn]]; split; auto; congruence.
      * intros [[->|Hk] Hn]; auto.
Qed.

Lemma NoDup_remove_first x l : NoDup l -> NoDup (remove_first x l).
Proof.
  induction 1 as [|y l Hy Hnd IH]; simpl; [constructor|].
  destruct (decide (x = y)); [assumption|].
  constructor; [|assumption].
  rewrite elem_of_remove_first by assumption. tauto.
Qed.

Lemma NoDup_move_to_end x l : NoDup l -> NoDup (remove_first x l ++ [x]).
Proof.
  intros Hnd. apply NoDup_app. split; [now apply NoDup_remove_first|].
  split; [|apply NoDup_singleton].
  intros k Hk Hx. apply elem_of_remove_first in Hk as [_ Hk]; [|assumption].
  apply list_elem_of_singleton in Hx. contradiction.
Qed.
End RemoveFirst.

Section CacheFacts.
Context {V : Type}.
Implicit Types (c : LRUCache.t V) (key k : string) (now : Q).

Lemma wf_listed c k :
  LRUCache.wf c -> k ∈ LRUCache.order c ↔ is_Some (LRUCache.store c !! k).
Proof.
  intros [_ Hdom]. rewrite <- elem_of_dom, Hdom. now rewrite elem_of_list_to_set.
Qed.

Lemma wf_intro c :
  NoDup (LRUCache.order c) ->
  (∀ k, k ∈ LRUCache.order c ↔ is_Some (LRUCache.store c !! k)) ->
  LRUCache.wf c.
Proof.
  intros Hnd H. split; [assumption|].
  apply set_eq. intros k. now rewrite elem_of_dom, elem_of_list_to_set, H.
Qed.

Lemma wf_init capacity ttl : LRUCache.wf (LRUCache.init (V:=V) capacity ttl).
Proof.
  apply wf_intro; simpl; [constructor|].
  intros k. rewrite lookup_empty. split; [intros H; inversion H|intros [? ?]; discriminate].
Qed.

Lemma wf_delete c key : LRUCache.wf c -> LRUCache.wf (LRUCache.delete key c).
Proof.
  intros Hwf. pose proof (fun k => wf_listed c k Hwf) as Hl.
  destruct Hwf as [Hnd _].
  apply wf_intro; simpl.
  - case_bool_decide; [now apply NoDup_remove_first|assumption].
  - intros k. rewrite lookup_delete_is_Some, <- Hl.
    case_bool_decide as Hin.
    + rewrite elem_of_remove_first by assumption. split; intros [? ?]; split; auto.
    + split; [|tauto]. intros Hk. split; [|assumption]. congruence.
Qed.

Lemma wf_get c now key : LRUCache.wf c -> LRUCache.wf (LRUCache.get now key c).2.
Proof.
  intros Hwf. unfold LRUCache.get.
  destruct (LRUCache.store c !! key) as [[ts v]|] eqn:Hs; [|assumption].
  destruct (Qle_bool (now - ts) (LRUCache.ttl c)); [|now apply wf_delete].
  pose proof (wf_listed c) as Hl. destruct Hwf as [Hnd Hdom].
  assert (Hin : key ∈ LRUCache.order c) by (apply Hl; [split; assumption|eauto]).
  simpl. rewrite bool_decide_eq_true_2 by assumption.
  apply wf_intro; simpl.
  - now apply NoDup_move_to_end.
  - intros k. rewrite elem_of_app, list_elem_of_singleton,
      elem_of_remove_first, <- Hl by (try split; assumption).
    destruct (decide (k = key)) as [->|Hne]; tauto.
Qed.

Lemma wf_set c now key (value : V) c' :
  LRUCache.wf c -> LRUCache.set now key value c = Ret c' -> LRUCache.wf c'.
Proof.
  intros Hwf. pose proof (wf_listed c) as Hl. destruct Hwf as [Hnd Hdom].
  assert (Hl' : ∀ k, k ∈ LRUCache.order c ↔ is_Some (LRUCache.store c !! k))
    by (intros k; apply Hl; split; assumption).
  unfold LRUCache.set.
  destruct (LRUCache.store c !! key) as [tv|] eqn:Hs.
  - assert (Hin : key ∈ LRUCache.order c) by (apply Hl'; eauto).
    rewrite bool_decide_eq_true_2 by assumption. simpl.
    intros [= <-]. apply wf_intro; simpl.
    + now apply NoDup_move_to_end.
    + intros k. rewrite elem_of_app, list_elem_of_singleton,
        elem_of_remove_first, lookup_insert_is_Some, Hl' by assumption.
      clear Hl Hl'; destruct (decide (key = k)); intuition congruence.
  - assert (Hout : key ∉ LRUCache.order c).
    { rewrite Hl', Hs. intros [? ?]; discriminate. }
    destruct (Z.of_nat (length (LRUCache.order c)) >=? LRUCache.capacity c).
    + destruct (LRUCache.order c) as [|evict rest] eqn:Ho; simpl; [discriminate|].
      intros [= <-]. apply NoDup_cons in Hnd as [Hev Hnd].
      apply not_elem_of_cons in Hout as [Hne Hout].
      apply wf_intro; simpl.
      * apply NoDup_app. split; [assumption|]. split; [|apply NoDup_singleton].
        intros k Hk Hx. apply list_elem_of_singleton in Hx. congruence.
      * intros k. rewrite elem_of_app, list_elem_of_singleton,
          lookup_insert_is_Some, lookup_delete_is_Some, <- Hl', elem_of_cons.
        clear Hl Hl'; destruct (decide (key = k)); intuition congruence.
    + simpl. intros [= <-]. apply wf_intro; simpl.
      * apply NoDup_app. split; [assumption|]. split; [|apply NoDup_singleton].
        intros k Hk Hx. apply list_elem_of_singleton in Hx. congruence.
      * intros k. rewrite elem_of_app, list_elem_of_singleton,
          lookup_insert_is_Some, Hl'.
        clear Hl Hl'; destruct (decide (key = k)); intuition congruence.
Qed.

Lemma built_wf c : LRUCache.built c -> LRUCache.wf c.
Proof.
  induction 1 as [capacity ttl|now key c _ IH|now key value c c' _ IH Hset
                 |key c _ IH].
  - apply wf_init.
  - now apply wf_get.
  - eapply wf_set; eassumption.
  - now apply wf_delete.
Qed.
End CacheFacts.

(** C4, as stated, fails.  The cache holds "a" and "b", its order list has
    reached the capacity 2 and "a" is the least recently used key; [set] of
    the stored key "b" evicts nothing: "a" stays stored and listed.  So it
    is not true that [set] on every cache whose order list has reached the
    capacity removes the least recently used key. *)
Lemma set_stored_key_at_capacity_keeps_lru :
  (c ← Examples.cache_ab; Ret (Examples.observe c, LRUCache.capacity c))
  = Ret (["a"; "b"], true, true, 2)
  ∧ (c ← Examples.cache_ab;
     c' ← LRUCache.set 2 "b" 3%nat c;
     Ret (Examples.observe c'))
    = Ret (["a"; "b"], true, true)
  ∧ ¬ (∀ (c : LRUCache.t nat) (now : Q) (key : string) (value : nat)
         (lru : string) (rest : list string),
         LRUCache.wf c ->
         LRUCache.order c = lru :: rest ->
         LRUCache.capacity c <= Z.of_nat (length (LRUCache.order c)) ->
         ∃ c', LRUCache.set now key value c = Ret c'
               ∧ LRUCache.store c' !! lru = None).
Proof.
  split; [vm_compute; reflexivity|]. split; [vm_compute; reflexivity|].
  intros H.
  destruct (H Examples.cache_two 2%Q "b" 3%nat "a" ["b"]) as (c' & Hset & Hgone).
  - split; [apply (bool_decide_unpack _); vm_compute; exact I|].
    vm_compute. reflexivity.
  - reflexivity.
  - simpl. lia.
  - revert Hset Hgone. vm_compute. intros [= <-]. vm_compute. discriminate.
Qed.

(** At capacity 0 the order list of the empty cache has reached the
    capacity, and [set] raises IndexError from [order.pop(0)]. *)
Example set_capacity_zero :
  LRUCache.set 0 "a" 1%nat (LRUCache.init 0 3600) = Raise IndexError.
Proof. reflexivity. Qed.

(** A stale key that is read again outlives a fresher one: after
    [set a; set b; get a; set c] at capacity 2 it is "b" that is evicted. *)
Example reread_key_survives :
  (c ← Examples.cache_ab;
   c' ← LRUCache.set 3 "c" 3%nat (LRUCache.get 2 "a" c).2;
   Ret (Examples.observe c')) = Ret (["a"; "c"], true, false).
Proof. vm_compute. reflexivity. Qed.

Section CacheContract.
Context {V : Type}.
Implicit Types (c : LRUCache.t V) (key k : string) (now : Q).

(** C4 (amended).  In a cache whose order list names exactly the stored
    keys (every cache a program can hold, by [built_wf]):
    - [get] of an entry older than the TTL returns [None] and removes the
      key from the store and from the order list;
    - [get] of a live entry returns its value and moves the key to the end
      (most recently used) of the order list, the store unchanged;
    - [set] of a key that is not stored, when the non-empty order list has
      reached the capacity, removes the head of the order list (the least
      recently used key) from the store and the list, then stores the new
      entry and lists the key last;
    - [set] of a key that is stored evicts nothing: it replaces the entry
      and moves the key to the end of the order list. *)
Theorem lru_cache_contract c now key :
  LRUCache.wf c ->
  (∀ ts v, LRUCache.store c !! key = Some (ts, v) ->
           (LRUCache.ttl c < now - ts)%Q ->
     ∃ c', LRUCache.get now key c = (None, c')
           ∧ LRUCache.store c' = delete key (LRUCache.store c)
           ∧ LRUCache.order c' = remove_first key (LRUCache.order c)
           ∧ LRUCache.store c' !! key = None
           ∧ key ∉ LRUCache.order c')
  ∧ (∀ ts v, LRUCache.store c !! key = Some (ts, v) ->
             (now - ts <= LRUCache.ttl c)%Q ->
     ∃ c', LRUCache.get now key c = (Some v, c')
           ∧ LRUCache.store c' = LRUCache.store c
           ∧ LRUCache.order c' = remove_first key (LRUCache.order c) ++ [key]
           ∧ last (LRUCache.order c') = Some key)
  ∧ (∀ value lru rest,
       LRUCache.store c !! key = None ->
       LRUCache.order c = lru :: rest ->
       LRUCache.capacity c <= Z.of_nat (length (LRUCache.order c)) ->
     ∃ c', LRUCache.set now key value c = Ret c'
           ∧ LRUCache.store c' = <[key := (now, value)]> (delete lru (LRUCache.store c))
           ∧ LRUCache.order c' = rest ++ [key]
           ∧ LRUCache.store c' !! lru = None
           ∧ lru ∉ LRUCache.order c')
  ∧ (∀ value, is_Some (LRUCache.store c !! key) ->
     ∃ c', LRUCache.set now key value c = Ret c'
           ∧ LRUCache.store c' = <[key := (now, value)]> (LRUCache.store c)
           ∧ LRUCache.order c' = remove_first key (LRUCache.order c) ++ [key]).
Proof.
  intros Hwf. pose proof (fun k => wf_listed c k Hwf) as Hl.
  destruct Hwf as [Hnd _].
  repeat split.
  - intros ts v Hs Hold. unfold LRUCache.get. rewrite Hs.
    assert (Qle_bool (now - ts) (LRUCache.ttl c) = false) as ->.
    { destruct (Qle_bool _ _) eqn:E; [|reflexivity].
      apply Qle_bool_iff in E. exfalso. eapply Qlt_not_le; eassumption. }
    assert (Hin : key ∈ LRUCache.order c) by (apply Hl; eauto).
    eexists. split; [reflexivity|]. simpl.
    rewrite bool_decide_eq_true_2 by assumption.
    repeat split; [apply lookup_delete_eq|].
    rewrite elem_of_remove_first by assumption. tauto.
  - intros ts v Hs Hlive. unfold LRUCache.get. rewrite Hs.
    apply Qle_bool_iff in Hlive. rewrite Hlive.
    assert (Hin : key ∈ LRUCache.order c) by (apply Hl; eauto).
    eexists. split; [reflexivity|]. simpl.
    rewrite bool_decide_eq_true_2 by assumption.
    repeat split. apply last_snoc.
  - intros value lru rest Hs Ho Hcap. unfold LRUCache.set. rewrite Hs.
    assert ((Z.of_nat (length (LRUCache.order c)) >=? LRUCache.capacity c) = true)
      as -> by (apply Z.geb_le; lia).
    assert (Hout : key ∉ LRUCache.order c).
    { rewrite Hl, Hs. intros [? ?]; discriminate. }
    rewrite Ho in *. apply NoDup_cons in Hnd as [Hev Hnd].
    apply not_elem_of_cons in Hout as [Hne Hout].
    eexists. split; [reflexivity|]. simpl. repeat split.
    + rewrite lookup_insert_ne by assumption. apply lookup_delete_eq.
    + rewrite elem_of_app, list_elem_of_singleton. intuition congruence.
  - intros value [tv Hs]. unfold LRUCache.set. rewrite Hs.
    assert (Hin : key ∈ LRUCache.order c) by (apply Hl; eauto).
    rewrite bool_decide_eq_true_2 by assumption.
    eexists. split; [reflexivity|]. simpl. repeat split.
Qed.
End CacheContract.

Example cache_two_reached : Examples.cache_ab = Ret Examples.cache_two.
Proof. vm_compute. reflexivity. Qed.

Lemma lru_cache_contract_witness :
  LRUCache.wf Examples.cache_two
  ∧ (∃ c', LRUCache.get 5000 "a" Examples.cache_two = (None, c')
           ∧ LRUCache.order c' = ["b"])
  ∧ (∃ c', LRUCache.get 2 "a" Examples.cache_two = (Some 1%nat, c')
           ∧ LRUCache.order c' = ["b"; "a"])
  ∧ (∃ c', LRUCache.set 2 "c" 3%nat Examples.cache_two = Ret c'
           ∧ LRUCache.order c' = ["b"; "c"]
           ∧ LRUCache.store c' !! "a" = None)
  ∧ (∃ c', LRUCache.set 2 "b" 3%nat Examples.cache_two = Ret c'
           ∧ LRUCache.order c' = ["a"; "b"]).
Proof.
  assert (Hwf : LRUCache.wf Examples.cache_two).
  { split; [apply (bool_decide_unpack _); vm_compute; exact I|].
    vm_compute. reflexivity. }
  split; [exact Hwf|].
  repeat split.
  - destruct (lru_cache_contract Examples.cache_two 5000 "a" Hwf) as (H & _).
    destruct (H 0%Q 1%nat) as (c' & Hg & _ & Ho & _);
      [vm_compute; reflexivity|reflexivity|].
    exists c'. split; [exact Hg|exact Ho].
  - destruct (lru_cache_contract Examples.cache_two 2 "a" Hwf) as (_ & H & _).
    destruct (H 0%Q 1%nat) as (c' & Hg & _ & Ho & _);
      [vm_compute; reflexivity|vm_compute; discriminate|].
    exists c'. split; [exact Hg|exact Ho].
  - destruct (lru_cache_contract Examples.cache_two 2 "c" Hwf) as (_ & _ & H & _).
    destruct (H 3%nat "a" ["b"]) as (c' & Hs & _ & Ho & Hgone & _);
      [vm_compute; reflexivity|reflexivity|simpl; lia|].
    exists c'. repeat split; assumption.
  - destruct (lru_cache_contract Examples.cache_two 2 "b" Hwf) as (_ & _ & _ & H).
    destruct (H 3%nat) as (c' & Hs & _ & Ho);
      [vm_compute; eauto|].
    exists c'. split; [exact Hs|exact Ho].
Defined.

(** ** Duplicate suppression *)

Section DuplicateFaces.
Import Faces.
Implicit Types (face e f : box) (l acc : list box).

Lemma overlaps_threshold f e :
  overlaps f e = true
  ↔ 3 * Z.min (box_area f) (box_area e) < 10 * overlap_area f e.
Proof.
  unfold overlaps. rewrite negb_true_iff.
  generalize (overlap_area f e), (Z.min (box_area f) (box_area e)).
  intros o m. unfold Qle_bool. simpl.
  rewrite Z.leb_gt. lia.
Qed.

Lemma separated_nil : separated [].
Proof. intros i j e f _ H. rewrite lookup_nil in H. discriminate. Qed.

Lemma separated_keep acc face :
  separated acc -> separated (keep_face acc face).
Proof.
  intros Hs. unfold keep_face.
  destruct (is_duplicate acc face) eqn:Hd; [assumption|].
  intros i j e f Hij Hi Hj.
  assert (Hlt : (j < length (acc ++ [face]))%nat)
    by (eapply lookup_lt_Some; eassumption).
  rewrite length_app in Hlt. simpl in Hlt.
  destruct (decide (j < length acc)%nat) as [Hj'|Hj'].
  - rewrite lookup_app_l in Hi, Hj by lia. exact (Hs i j e f Hij Hi Hj).
  - assert (j = length acc) as -> by lia.
    rewrite lookup_app_l in Hi by lia.
    rewrite list_lookup_middle in Hj by reflexivity. injection Hj as <-.
    unfold is_duplicate in Hd.
    destruct (overlaps face e) eqn:Ho; [|reflexivity].
    assert (existsb (overlaps face) acc = true); [|congruence].
    apply existsb_exists. exists e. split; [|assumption].
    apply list_elem_of_In. eapply list_elem_of_lookup_2. eassumption.
Qed.

Lemma fold_keep_face l acc :
  ∃ rest, fold_left keep_face l acc = acc ++ rest
          ∧ sublist rest l
          ∧ (separated acc -> separated (acc ++ rest)).
Proof.
  revert acc. induction l as [|face l IH]; intros acc; simpl.
  - exists []. rewrite app_nil_r. split; [reflexivity|]. split; [constructor|auto].
  - destruct (IH (keep_face acc face)) as (rest & Heq & Hsub & Hsep).
    unfold keep_face in *. destruct (is_duplicate acc face) eqn:Hd.
    + exists rest. split; [assumption|]. split; [now apply sublist_cons|assumption].
    + exists (face :: rest). rewrite Heq, <- app_assoc. split; [reflexivity|].
      split; [now apply sublist_skip|].
      intros Hs.
      replace (acc ++ face :: rest) with ((acc ++ [face]) ++ rest)
        by now rewrite <- app_assoc.
      apply Hsep.
      pose proof (separated_keep acc face Hs) as Hk.
      unfold keep_face in Hk. now rewrite Hd in Hk.
Qed.

(** The early return for at most one box gives what the loop gives. *)
Lemma remove_duplicate_faces_fold l :
  _remove_duplicate_faces l = fold_left keep_face l [].
Proof.
  unfold _remove_duplicate_faces.
  destruct l as [|a [|b l]]; reflexivity.
Qed.

(** C6.  Two boxes are duplicates exactly when their intersection is more
    than 30% of the smaller area.  The boxes kept are a subsequence of
    the input; a box is dropped exactly when it overlaps a box kept from
    those seen before it, otherwise it is appended, and boxes kept from a
    prefix of the input stay (so of a cluster the first-seen box is the
    one kept, be it the smaller); no kept box overlaps a box kept before
    it. *)
Theorem remove_duplicate_faces_first_seen l :
  (∀ f e, overlaps f e = true
          ↔ 3 * Z.min (box_area f) (box_area e) < 10 * overlap_area f e)
  ∧ sublist (_remove_duplicate_faces l) l
  ∧ (∀ before face after, l = before ++ face :: after ->
       _remove_duplicate_faces (before ++ [face])
       = (if existsb (overlaps face) (_remove_duplicate_faces before)
          then _remove_duplicate_faces before
          else _remove_duplicate_faces before ++ [face])
       ∧ _remove_duplicate_faces (before ++ [face])
         `prefix_of` _remove_duplicate_faces l)
  ∧ separated (_remove_duplicate_faces l)
  ∧ (∃ small big, box_area small < box_area big
                  ∧ _remove_duplicate_faces [small; big] = [small]).
Proof.
  split; [exact overlaps_threshold|].
  rewrite remove_duplicate_faces_fold.
  destruct (fold_keep_face l []) as (rest & Heq & Hsub & Hsep).
  simpl in Heq. split; [now rewrite Heq|].
  split.
  - intros before face after ->.
    rewrite !remove_duplicate_faces_fold, fold_left_app. simpl.
    split; [reflexivity|].
    rewrite (fold_left_app _ before (face :: after)). simpl.
    destruct (fold_keep_face after (keep_face (fold_left keep_face before []) face))
      as (rest' & -> & _). now exists rest'.
  - split; [rewrite Heq; apply (Hsep separated_nil)|].
    exists (0, 10, 10, 0), (0, 100, 100, 0).
    split; vm_compute; reflexivity.
Qed.
End DuplicateFaces.

(** ** compare_faces *)

Section CompareFaces.
Variable linalg_norm : list Q -> Q.
Implicit Types (self : FaceService.t) (d : list Q).


Lemma np_sub_same_length d1 d2 :
  length d1 = length d2 -> Np.sub d1 d2 = Ret (zip_with Qminus d1 d2).
Proof. intros H. unfold Np.sub. now rewrite H, Nat.eqb_refl. Qed.

Lemma np_dot_same_length d1 d2 :
  length d1 = length d2 ->
  Np.dot d1 d2 = Ret (fold_left Qplus (zip_with Qmult d1 d2) 0%Q).
Proof. intros H. unfold Np.dot. now rewrite H, Nat.eqb_refl. Qed.

Lemma np_dot_other_length d1 d2 :
  length d1 ≠ length d2 -> Np.dot d1 d2 = Raise ValueError.
Proof.
  intros H. unfold Np.dot.
  destruct (Nat.eqb_spec (length d1) (length d2)); [contradiction|reflexivity].
Qed.

Lemma compare_faces_try_same_length d1 d2 tol :
  length d1 = length d2 ->
  FaceService.compare_faces_try linalg_norm d1 d2 tol
  = Ret {| Comparison.is_match :=
             Qle_bool (linalg_norm (zip_with Qminus d1 d2)) tol;
           Comparison.distance := linalg_norm (zip_with Qminus d1 d2);
           Comparison.similarity :=
             Np.div (fold_left Qplus (zip_with Qmult d1 d2) 0%Q)
                    (linalg_norm d1 * linalg_norm d2)%Q;
           Comparison.confidence :=
             py_max 0 (1 - linalg_norm (zip_with Qminus d1 d2) / 1.2)%Q;
           Comparison.tolerance_used := tol |}.
Proof.
  intros H. unfold FaceService.compare_faces_try.
  now rewrite np_sub_same_length, np_dot_same_length.
Qed.

Lemma compare_faces_try_other_length d1 d2 tol :
  length d1 ≠ length d2 ->
  ∃ e, FaceService.compare_faces_try linalg_norm d1 d2 tol = Raise e.
Proof.
  intros H. unfold FaceService.compare_faces_try.
  destruct (Np.sub d1 d2) as [diff|e]; simpl; [|eauto].
  rewrite np_dot_other_length by assumption. simpl. eauto.
Qed.



End CompareFaces.

(** ** find_matching_photos *)

Section FindMatchingPhotos.
Variable linalg_norm : list Q -> Q.
Implicit Types (self : FaceService.t) (d ud : list Q) (tol : Q)
         (p : Photo.t) (m : Matched.t) (coll : list Photo.t).

Local Abbreviation compare_faces := (FaceService.compare_faces linalg_norm).
Local Abbreviation match_photo := (FaceService.match_photo linalg_norm).
Local Abbreviation qualifies := (FaceService.qualifies linalg_norm).
Local Abbreviation find_matching_photos := (FaceService.find_matching_photos linalg_norm).

Lemma compare_faces_returns self ud d (tolerance : option Q) :
  ∃ r, compare_faces self ud d tolerance = Ret r.
Proof.
  unfold FaceService.compare_faces.
  destruct (FaceService.compare_faces_try _ _ _ _); simpl; eauto.
Qed.

(** A match comes from the [try] body, where [is_match] is the test
    [distance <= tolerance]. *)
Lemma compare_faces_match self ud d tol r :
  compare_faces self ud d (Some tol) = Ret r ->
  Comparison.is_match r = true ->
  length ud = length d
  ∧ r = {| Comparison.is_match := true;
           Comparison.distance := Comparison.distance r;
           Comparison.similarity := Comparison.similarity r;
           Comparison.confidence := Comparison.confidence r;
           Comparison.tolerance_used := tol |}
  ∧ (Comparison.distance r <= tol)%Q
  ∧ ∀ tol', (Comparison.distance r <= tol')%Q ->
      compare_faces self ud d (Some tol')
      = Ret {| Comparison.is_match := true;
               Comparison.distance := Comparison.distance r;
               Comparison.similarity := Comparison.similarity r;
               Comparison.confidence := Comparison.confidence r;
               Comparison.tolerance_used := tol' |}.
Proof.
  unfold FaceService.compare_faces. simpl.
  destruct (decide (length ud = length d)) as [Heq|Hne].
  - rewrite compare_faces_try_same_length by assumption. simpl.
    intros [= <-]. simpl. intros Hm.
    split; [assumption|]. split; [now rewrite Hm|].
    split; [now apply Qle_bool_iff|].
    intros tol' Hle. rewrite compare_faces_try_same_length by assumption.
    simpl. apply Qle_bool_iff in Hle. now rewrite Hle.
  - destruct (compare_faces_try_other_length linalg_norm ud d tol Hne) as [e ->].
    simpl. intros [= <-]. simpl. discriminate.
Qed.

Local Abbreviation passes := (FaceService.passes linalg_norm).

Lemma matched_photo_id p c :
  match Photo.id p with
  | Some id => ∃ m, FaceService.matched_photo p c = Ret m ∧ Matched.id m = id
  | None => FaceService.matched_photo p c = Raise KeyError
  end.
Proof.
  unfold FaceService.matched_photo. destruct (Photo.id p); simpl; eauto.
Qed.

(** One round of the loop: it appends the entry built for an item that
    passes the two gates and has an id, raises KeyError for an item that
    passes them without an id, and adds nothing otherwise. *)
Lemma match_photo_appends self ud tol acc p :
  match match_photo self ud tol acc p with
  | Ret out =>
      ∃ add, out = acc ++ add
        ∧ (∀ m, m ∈ add ↔ qualifies self ud tol p m)
        ∧ (passes self ud tol p -> is_Some (Photo.id p))
  | Raise e => e = KeyError ∧ passes self ud tol p ∧ Photo.id p = None
  end.
Proof.
  unfold FaceService.match_photo, FaceService.qualifies, FaceService.passes.
  destruct (Photo.descriptor p) as [[|x d]|] eqn:Hd.
  - exists []. rewrite app_nil_r. split; [reflexivity|]. split.
    + intros m. split; [intros H; inversion H|].
      intros (d' & c & [= <-] & Hne & _). contradiction.
    + intros (d' & c & [= <-] & Hne & _). contradiction.
  - destruct (compare_faces_returns self ud (x :: d) (Some tol)) as [c Hc].
    rewrite Hc. simpl.
    destruct (Comparison.is_match c) eqn:Hm;
      [destruct (Qle_bool 0.4 (Comparison.confidence c)) eqn:Hconf|].
    + destruct (compare_faces_match _ _ _ _ _ Hc Hm) as (_ & _ & Hle & _).
      apply Qle_bool_iff in Hconf.
      pose proof (matched_photo_id p c) as Hid.
      destruct (Photo.id p) as [id|] eqn:Hp.
      * destruct Hid as (m0 & Hm0 & _). rewrite Hm0. simpl.
        exists [m0]. split; [reflexivity|]. split; [|eauto].
        intros m. rewrite list_elem_of_singleton. split.
        -- intros ->. exists (x :: d), c. repeat split; auto; discriminate.
        -- intros (d' & c' & [= <-] & _ & Hc' & _ & _ & _ & Hm').
           assert (c' = c) as -> by congruence. congruence.
      * rewrite Hid. simpl. split; [reflexivity|]. split; [|reflexivity].
        exists (x :: d), c. repeat split; auto; discriminate.
    + exists []. rewrite app_nil_r. split; [reflexivity|]. split.
      * intros m. split; [intros H; inversion H|].
        intros (d' & c' & [= <-] & _ & Hc' & _ & _ & Hge & _).
        assert (c' = c) as -> by congruence.
        apply Qle_bool_iff in Hge. congruence.
      * intros (d' & c' & [= <-] & _ & Hc' & _ & Hge).
        assert (c' = c) as -> by congruence.
        apply Qle_bool_iff in Hge. congruence.
    + exists []. rewrite app_nil_r. split; [reflexivity|]. split.
      * intros m. split; [intros H; inversion H|].
        intros (d' & c' & [= <-] & _ & Hc' & Hm' & _).
        assert (c' = c) as -> by congruence. congruence.
      * intros (d' & c' & [= <-] & _ & Hc' & Hm' & _).
        assert (c' = c) as -> by congruence. congruence.
  - exists []. rewrite app_nil_r. split; [reflexivity|]. split.
    + intros m. split; [intros H; inversion H|].
      intros (d' & c & [=] & _).
    + intros (d' & c & [=] & _).
Qed.

Lemma for_each_match_photo self ud tol coll acc :
  match for_each (match_photo self ud tol) coll acc with
  | Ret out =>
      ∃ res, out = acc ++ res
        ∧ (∀ m, m ∈ res ↔ ∃ p, p ∈ coll ∧ qualifies self ud tol p m)
        ∧ (∀ p, p ∈ coll -> passes self ud tol p -> is_Some (Photo.id p))
  | Raise e =>
      e = KeyError
      ∧ ∃ p, p ∈ coll ∧ passes self ud tol p ∧ Photo.id p = None
  end.
Proof.
  revert acc. induction coll as [|p coll IH]; intros acc; simpl.
  - exists []. rewrite app_nil_r. split; [reflexivity|]. split.
    + intros m. split; [intros H; inversion H|].
      intros (p & Hp & _). inversion Hp.
    + intros p Hp. inversion Hp.
  - pose proof (match_photo_appends self ud tol acc p) as Hstep.
    destruct (match_photo self ud tol acc p) as [out|e]; simpl.
    + destruct Hstep as (add & -> & Hadd & Hid).
      specialize (IH (acc ++ add)).
      destruct (for_each (match_photo self ud tol) coll (acc ++ add))
        as [out|e].
      * destruct IH as (res & -> & Hres & Hids).
        exists (add ++ res). rewrite app_assoc. split; [reflexivity|]. split.
        -- intros m. rewrite elem_of_app, Hadd, Hres. split.
           ++ intros [Hq|(p' & Hp' & Hq)]; [exists p|exists p'];
                rewrite elem_of_cons; auto.
           ++ intros (p' & Hp' & Hq).
              apply elem_of_cons in Hp' as [->|Hp']; eauto.
        -- intros p' Hp'. apply elem_of_cons in Hp' as [->|Hp']; auto.
      * destruct IH as (-> & p' & Hp' & Hpass & Hnone).
        split; [reflexivity|]. exists p'. split; [now right|auto].
    + destruct Hstep as (-> & Hpass & Hnone).
      split; [reflexivity|]. exists p. split; [left|auto].
Qed.

(** C1.  On an initialised service, an entry is in the result of
    [find_matching_photos] exactly when it was built for an item of the
    collection whose comparison has [is_match] true (distance within the
    tolerance) and confidence at least 0.4; an item failing a gate adds
    nothing.  The result is in descending order of score.  The call
    returns exactly when every item that passes the two gates has an
    id. *)
Theorem find_matching_photos_gates self ud coll (tolerance : option Q) :
  FaceService.initialized self = true ->
  (∀ res, find_matching_photos self ud coll tolerance = Ret res ->
     (∀ m, m ∈ res ↔
        ∃ p d c, p ∈ coll
          ∧ Photo.descriptor p = Some d ∧ d ≠ []
          ∧ compare_faces self ud d
              (Some (default (FaceService.tolerance self) tolerance)) = Ret c
          ∧ Comparison.is_match c = true
          ∧ (Comparison.distance c
             <= default (FaceService.tolerance self) tolerance)%Q
          ∧ (0.4 <= Comparison.confidence c)%Q
          ∧ FaceService.matched_photo p c = Ret m)
     ∧ StronglySorted (ge_key Matched.score) res)
  ∧ ((∀ p, p ∈ coll ->
        passes self ud (default (FaceService.tolerance self) tolerance) p ->
        is_Some (Photo.id p))
     ↔ ∃ res, find_matching_photos self ud coll tolerance = Ret res).
Proof.
  intros Hinit. unfold FaceService.find_matching_photos. rewrite Hinit. simpl.
  pose proof (for_each_match_photo self ud
                (default (FaceService.tolerance self) tolerance) coll [])
    as Hloop.
  destruct (for_each _ coll []) as [out|e]; simpl.
  - destruct Hloop as (res & -> & Hres & Hids). simpl. split.
    + intros res' [= <-]. split.
      * intros m. rewrite elem_of_sort_desc, Hres.
        unfold FaceService.qualifies. split.
        -- intros (p & Hp & d & c & H). exists p, d, c. tauto.
        -- intros (p & d & c & Hp & H). exists p. split; [assumption|].
           exists d, c. exact H.
      * apply sort_desc_sorted.
    + split; [eauto|]. intros _. exact Hids.
  - destruct Hloop as (-> & p & Hp & Hpass & Hnone).
    split; [discriminate|]. split.
    + intros Hids. destruct (Hids p Hp Hpass) as [id Hid]. congruence.
    + intros [res [=]].
Qed.



End FindMatchingPhotos.

(** ** batch_analyze_photos *)

Section BatchCounts.
Variable get_face_descriptors_from_url : string -> Res (option (list (list Q))).

Local Abbreviation _process := (FaceService._process get_face_descriptors_from_url).
Local Abbreviation has_faces := (FaceService.has_faces get_face_descriptors_from_url).
Local Abbreviation raised := (FaceService.raised get_face_descriptors_from_url).
Local Abbreviation no_descriptors :=
  (FaceService.no_descriptors get_face_descriptors_from_url).
Local Abbreviation batch_analyze_photos :=
  (FaceService.batch_analyze_photos get_face_descriptors_from_url).

Lemma process_enumerate (urls : list string) (start : nat) :
  map _process (combine (seq start (length urls)) urls)
  = map (fun url => _process (0%nat, url)) urls.
Proof.
  revert start. induction urls as [|u urls IH]; intros start; simpl; [reflexivity|].
  now rewrite IH.
Qed.

Lemma length_filter_cons {A : Type} (f : A -> bool) (x : A) (l : list A) :
  length (List.filter f (x :: l))
  = ((if f x then 1 else 0) + length (List.filter f l))%nat.
Proof. simpl. now destruct (f x). Qed.

Lemma tally_process (acc : Batch.t) (u : string) :
  let r := FaceService.tally acc (_process (0%nat, u)) in
  Batch.processed r = S (Batch.processed acc)
  ∧ Batch.faces_found r
    = (Batch.faces_found acc + if has_faces u then 1 else 0)%nat
  ∧ Batch.failed r = (Batch.failed acc + if raised u then 1 else 0)%nat.
Proof.
  unfold FaceService.has_faces, FaceService.raised. simpl.
  destruct (get_face_descriptors_from_url u) as [[[|d ds]|]|e]; simpl;
    repeat split; lia.
Qed.

Lemma outcome_cases (u : string) :
  ((if has_faces u then 1 else 0) + (if raised u then 1 else 0)
   + (if no_descriptors u then 1 else 0) = 1)%nat.
Proof.
  unfold FaceService.has_faces, FaceService.raised, FaceService.no_descriptors.
  destruct (get_face_descriptors_from_url u) as [[[|d ds]|]|e]; reflexivity.
Qed.

Lemma tally_fold (urls : list string) (acc : Batch.t) :
  let r := fold_left FaceService.tally
             (map (fun url => _process (0%nat, url)) urls) acc in
  Batch.processed r = (Batch.processed acc + length urls)%nat
  ∧ Batch.faces_found r
    = (Batch.faces_found acc + length (List.filter has_faces urls))%nat
  ∧ Batch.failed r = (Batch.failed acc + length (List.filter raised urls))%nat.
Proof.
  revert acc. induction urls as [|u urls IH]; intros acc.
  - simpl. repeat split; lia.
  - rewrite !length_filter_cons.
    specialize (IH (FaceService.tally acc (_process (0%nat, u)))).
    destruct (tally_process acc u) as (Hp & Hf & Hx).
    cbn [map fold_left length]. cbv zeta in IH.
    destruct IH as (-> & -> & ->). rewrite Hp, Hf, Hx. repeat split; lia.
Qed.

Lemma outcomes_partition (urls : list string) :
  length urls
  = (length (List.filter has_faces urls) + length (List.filter raised urls)
     + length (List.filter no_descriptors urls))%nat.
Proof.
  induction urls as [|u urls IH]; [reflexivity|].
  rewrite !length_filter_cons. pose proof (outcome_cases u).
  cbn [length]. lia.
Qed.

(** C9.  [processed] counts every URL, [faces_found] those that gave at
    least one descriptor, [failed] those whose processing raised; a URL
    that gave [None] or an empty list without raising is in neither, so
    [processed] is the sum of the two and of the number of such URLs, and
    exceeds the sum of the two as soon as there is one. *)
Theorem batch_counts_soft_failures (photo_urls : list string) :
  let r := batch_analyze_photos photo_urls in
  Batch.processed r = length photo_urls
  ∧ Batch.faces_found r = length (List.filter has_faces photo_urls)
  ∧ Batch.failed r = length (List.filter raised photo_urls)
  ∧ Batch.processed r
    = (Batch.faces_found r + Batch.failed r
       + length (List.filter no_descriptors photo_urls))%nat
  ∧ ((∃ url, url ∈ photo_urls ∧ no_descriptors url = true) ->
     (Batch.faces_found r + Batch.failed r < Batch.processed r)%nat).
Proof.
  unfold FaceService.batch_analyze_photos, FaceService.enumerate.
  rewrite process_enumerate.
  destruct (tally_fold photo_urls
              {| Batch.processed := 0; Batch.faces_found := 0;
                 Batch.failed := 0; Batch.photo_data := [] |})
    as (Hp & Hf & Hx).
  simpl in *. rewrite Hp, Hf, Hx.
  pose proof (outcomes_partition photo_urls) as Hsum.
  repeat split; try lia.
  intros (url & Hin & Hsoft).
  assert (0 < length (List.filter no_descriptors photo_urls))%nat; [|lia].
  assert (Hin' : url ∈ List.filter no_descriptors photo_urls).
  { apply list_elem_of_In, filter_In. split; [now apply list_elem_of_In|assumption]. }
  destruct (List.filter no_descriptors photo_urls); [inversion Hin'|simpl; lia].
Qed.
End BatchCounts.

Lemma batch_counts_soft_failures_witness :
  let r := FaceService.batch_analyze_photos Examples.descriptors_of
             ["face.jpg"; "empty.jpg"; "broken.jpg"] in
  (Batch.processed r, Batch.faces_found r, Batch.failed r) = (3, 1, 1)%nat
  ∧ (Batch.faces_found r + Batch.failed r < Batch.processed r)%nat.
Proof.
  split; [vm_compute; reflexivity|].
  destruct (batch_counts_soft_failures Examples.descriptors_of
              ["face.jpg"; "empty.jpg"; "broken.jpg"]) as (_ & _ & _ & _ & H).
  apply H. exists "empty.jpg". split; [|reflexivity].
  apply (bool_decide_unpack _). vm_compute. exact I.
Defined.

(** ** The insertion-ordered dictionary *)

Section DictFacts.
Implicit Types (g : Dict.t) (k b : string) (v s dflt : Q).

Lemma dict_get_set g k v k' dflt :
  Dict.get (Dict.set g k v) k' dflt
  = if decide (k' = k) then v else Dict.get g k' dflt.
Proof.
  induction g as [|[k0 v0] g IH]; simpl.
  - destruct (decide (k' = k)); reflexivity.
  - destruct (decide (k = k0)) as [->|Hne]; simpl.
    + destruct (decide (k' = k0)); reflexivity.
    + rewrite IH. destruct (decide (k' = k0)) as [->|Hne'];
        [|reflexivity].
      destruct (decide (k0 = k)); [congruence|reflexivity].
Qed.

Lemma dict_keys_set g k v :
  map fst (Dict.set g k v)
  = if decide (k ∈ map fst g) then map fst g else map fst g ++ [k].
Proof.
  induction g as [|[k0 v0] g IH]; simpl.
  - destruct (decide (k ∈ [])) as [H|_]; [inversion H|reflexivity].
  - destruct (decide (k = k0)) as [->|Hne]; simpl.
    + rewrite decide_True by apply list_elem_of_here. reflexivity.
    + rewrite IH. destruct (decide (k ∈ map fst g)) as [Hin|Hout].
      * rewrite decide_True by now apply list_elem_of_further. reflexivity.
      * rewrite decide_False; [reflexivity|].
        rewrite elem_of_cons. intuition.
Qed.

Lemma dict_get_elem g b s dflt :
  NoDup (map fst g) -> (b, s) ∈ g -> Dict.get g b dflt = s.
Proof.
  induction g as [|[k0 v0] g IH]; simpl; intros Hnd Hin; [inversion Hin|].
  apply NoDup_cons in Hnd as [Hk0 Hnd].
  apply elem_of_cons in Hin as [[= -> ->]|Hin].
  - now rewrite decide_True.
  - destruct (decide (b = k0)) as [->|Hne]; [|now apply IH].
    exfalso. apply Hk0. apply list_elem_of_In.
    apply list_elem_of_In in Hin. now apply (in_map fst) in Hin.
Qed.

Lemma py_max_cases (a c : Q) :
  (py_max a c = a ∧ (c <= a)%Q) ∨ (py_max a c = c ∧ (a < c)%Q).
Proof.
  unfold py_max. destruct (Qle_bool c a) eqn:E.
  - left. split; [reflexivity|now apply Qle_bool_iff].
  - right. split; [reflexivity|now apply Qle_bool_false].
Qed.
End DictFacts.

(** ** Grouping the hits of a search by photo *)

Section Grouping.
Implicit Types (results : list Hit.t) (r h : Hit.t) (b : string).

Lemma group_fold_inv results :
  let grouped := fold_left FaissService.group_hit results [] in
  NoDup (map fst grouped)
  ∧ (∀ b, b ∈ map fst grouped
          ↔ ∃ r, r ∈ results ∧ before_hash (Hit.id r) = b)
  ∧ (∀ b, (0 <= Dict.get grouped b 0.0)%Q
          ∧ (∀ r, r ∈ results -> before_hash (Hit.id r) = b ->
                  (Hit.score r <= Dict.get grouped b 0.0)%Q)
          ∧ (Dict.get grouped b 0.0 = 0.0%Q
             ∨ ∃ r, r ∈ results ∧ before_hash (Hit.id r) = b
                    ∧ Dict.get grouped b 0.0 = Hit.score r)).
Proof.
  induction results as [|r results IH] using rev_ind; simpl.
  - split; [constructor|]. split.
    + intros b. split; [intros H; inversion H|intros (r & H & _); inversion H].
    + intros b. split; [discriminate|]. split; [intros r H; inversion H|now left].
  - rewrite fold_left_app. simpl.
    set (g := fold_left FaissService.group_hit results []) in *.
    destruct IH as (Hnd & Hkeys & Hget).
    unfold FaissService.group_hit.
    set (b0 := before_hash (Hit.id r)).
    split; [|split].
    + rewrite dict_keys_set. destruct (decide (b0 ∈ map fst g)); [assumption|].
      apply NoDup_app. split; [assumption|]. split; [|apply NoDup_singleton].
      intros x Hx Hx'. apply list_elem_of_singleton in Hx'. congruence.
    + intros b. rewrite dict_keys_set.
      assert (Hiff : b ∈ map fst g ∨ b = b0
                     ↔ ∃ r0, r0 ∈ results ++ [r] ∧ before_hash (Hit.id r0) = b).
      { rewrite Hkeys. split.
        - intros [(r0 & Hr0 & Hb)| ->].
          + exists r0. rewrite elem_of_app. auto.
          + exists r. rewrite elem_of_app, list_elem_of_singleton. auto.
        - intros (r0 & Hr0 & Hb). apply elem_of_app in Hr0 as [Hr0|Hr0].
          + left. eauto.
          + apply list_elem_of_singleton in Hr0 as ->. now right. }
      rewrite <- Hiff. destruct (decide (b0 ∈ map fst g)) as [Hin|Hout].
      * split; [auto|]. intros [?| ->]; assumption.
      * now rewrite elem_of_app, list_elem_of_singleton.
    + intros b. rewrite dict_get_set.
      destruct (Hget b) as (Hpos & Hub & Hwit).
      destruct (decide (b = b0)) as [->|Hne].
      * destruct (py_max_cases (Dict.get g b0 0.0) (Hit.score r))
          as [[-> Hle]|[-> Hlt]].
        -- split; [assumption|]. split.
           ++ intros r0 Hr0 Hb. apply elem_of_app in Hr0 as [Hr0|Hr0]; [auto|].
              now apply list_elem_of_singleton in Hr0 as ->.
           ++ destruct Hwit as [?|(r0 & Hr0 & Hb & Hs)]; [now left|right].
              exists r0. rewrite elem_of_app. auto.
        -- split; [apply Qle_trans with (Dict.get g b0 0.0);
                   [assumption|now apply Qlt_le_weak]|].
           split.
           ++ intros r0 Hr0 Hb. apply elem_of_app in Hr0 as [Hr0|Hr0].
              ** apply Qle_trans with (Dict.get g b0 0.0);
                   [auto|now apply Qlt_le_weak].
              ** apply list_elem_of_singleton in Hr0 as ->. apply Qle_refl.
           ++ right. exists r. rewrite elem_of_app, list_elem_of_singleton. auto.
      * split; [assumption|]. split.
        -- intros r0 Hr0 Hb. apply elem_of_app in Hr0 as [Hr0|Hr0]; [auto|].
           apply list_elem_of_singleton in Hr0 as ->. unfold b0 in Hne. congruence.
        -- destruct Hwit as [?|(r0 & Hr0 & Hb & Hs)]; [now left|right].
           exists r0. rewrite elem_of_app. auto.
Qed.

(** What [group_by_photo] returns: one entry for each base id among the
    hits, best score first; the score of an entry is at least 0.0 and at
    least the score of every hit of its base id, and it is 0.0 or the
    score of one of them. *)
Lemma group_by_photo_spec results :
  let out := FaissService.group_by_photo results in
  NoDup (map Hit.id out)
  ∧ StronglySorted (ge_key Hit.score) out
  ∧ (∀ b, b ∈ map Hit.id out
          ↔ ∃ r, r ∈ results ∧ before_hash (Hit.id r) = b)
  ∧ (∀ h, h ∈ out ->
       (0 <= Hit.score h)%Q
       ∧ (∀ r, r ∈ results -> before_hash (Hit.id r) = Hit.id h ->
               (Hit.score r <= Hit.score h)%Q)
       ∧ (Hit.score h = 0.0%Q
          ∨ ∃ r, r ∈ results ∧ before_hash (Hit.id r) = Hit.id h
                 ∧ Hit.score h = Hit.score r)).
Proof.
  unfold FaissService.group_by_photo.
  destruct (group_fold_inv results) as (Hnd & Hkeys & Hget).
  set (g := fold_left FaissService.group_hit results []) in *.
  set (mk := fun '(pid, sc) => {| Hit.id := pid; Hit.score := sc |}).
  assert (Hids : map Hit.id (map mk g) = map fst g).
  { rewrite map_map. apply map_ext. now intros [? ?]. }
  assert (Hperm : Permutation (map Hit.id (sort_desc Hit.score (map mk g)))
                              (map fst g)).
  { rewrite <- Hids. apply Permutation_map, sort_desc_perm. }
  split; [now rewrite Hperm|].
  split; [apply sort_desc_sorted|].
  split; [intros b; now rewrite Hperm|].
  intros h Hh. apply elem_of_sort_desc in Hh.
  apply list_elem_of_In, in_map_iff in Hh as ([b s] & <- & Hin).
  apply list_elem_of_In in Hin. simpl.
  rewrite <- (dict_get_elem g b s 0.0 Hnd Hin). apply Hget.
Qed.

(** When no hit has a negative score, the default 0.0 is never above the
    best hit: the score of an entry is the largest score of its base
    id. *)
Lemma group_by_photo_best results :
  (∀ r, r ∈ results -> (0 <= Hit.score r)%Q) ->
  ∀ h, h ∈ FaissService.group_by_photo results ->
    (∃ r, r ∈ results ∧ before_hash (Hit.id r) = Hit.id h
          ∧ (Hit.score r == Hit.score h)%Q)
    ∧ (∀ r, r ∈ results -> before_hash (Hit.id r) = Hit.id h ->
            (Hit.score r <= Hit.score h)%Q).
Proof.
  intros Hpos h Hh.
  destruct (group_by_photo_spec results) as (_ & _ & Hbase & Hscore).
  destruct (Hscore h Hh) as (_ & Hub & Hwit). split; [|exact Hub].
  destruct Hwit as [Hzero|(r & Hr & Hb & Hs)].
  - assert (Hid : Hit.id h ∈ map Hit.id (FaissService.group_by_photo results)).
    { apply list_elem_of_In, in_map, list_elem_of_In, Hh. }
    destruct (proj1 (Hbase _) Hid) as (r & Hr & Hb).
    exists r. split; [exact Hr|]. split; [exact Hb|].
    apply Qle_antisym; [now apply Hub|].
    rewrite Hzero. apply Qle_trans with 0%Q; [discriminate|now apply Hpos].
  - exists r. split; [assumption|]. split; [assumption|].
    rewrite Hs. reflexivity.
Qed.
End Grouping.

(** ** match *)

Section Match.
Variable linalg_norm : list Q -> Q.
Variable model_available : bool.
Variable ties : nat -> nat -> bool.
Implicit Types (self : FaissService.t) (ids : list string) (r h : Hit.t).

Local Abbreviation ensure_initialized := (FaissService.ensure_initialized model_available).
Local Abbreviation match_ :=
  (FaissService.match_ linalg_norm model_available ties).
Local Abbreviation normalize := (FaissService.normalize linalg_norm).

Lemma ensure_initialized_indices self self' :
  ensure_initialized self = Ret self' ->
  FaissService.event_indices self' = FaissService.event_indices self
  ∧ FaissService.initialized self' = true.
Proof.
  unfold FaissService.ensure_initialized.
  destruct (FaissService.initialized self) eqn:Hi.
  - intros [= <-]. auto.
  - destruct model_available; [|discriminate]. intros [= <-]. auto.
Qed.

Lemma ensure_initialized_ready self :
  FaissService.initialized self = true ∨ model_available = true ->
  ∃ self', ensure_initialized self = Ret self'.
Proof.
  unfold FaissService.ensure_initialized.
  intros [->| ->]; [eauto|]. destruct (FaissService.initialized self); eauto.
Qed.

Lemma for_each_keep_hit ids (threshold : Q) hits acc rs :
  for_each (FaissService.keep_hit ids threshold) hits acc = Ret rs ->
  ∃ new, rs = acc ++ new
    ∧ ∀ r, r ∈ new ↔
        ∃ idx, Some (Hit.score r, idx) ∈ hits
               ∧ (threshold <= Hit.score r)%Q
               ∧ ids !! idx = Some (Hit.id r).
Proof.
  revert acc. induction hits as [|hit hits IH]; intros acc; simpl.
  - intros [= <-]. exists []. rewrite app_nil_r. split; [reflexivity|].
    intros r. split; [intros H; inversion H|intros (idx & H & _); inversion H].
  - destruct hit as [[score idx]|]; simpl.
    + destruct (Qle_bool threshold score) eqn:Hthr.
      * destruct (ids !! idx) as [pid|] eqn:Hid; simpl; [|discriminate].
        intros Hrs. destruct (IH _ Hrs) as (new & -> & Hnew).
        exists ({| Hit.id := pid; Hit.score := score |} :: new).
        rewrite <- app_assoc. split; [reflexivity|].
        intros r. rewrite elem_of_cons, Hnew. split.
        -- intros [->|(i & Hi & Hle & Hpid)].
           ++ exists idx. simpl. rewrite elem_of_cons.
              apply Qle_bool_iff in Hthr. auto.
           ++ exists i. rewrite elem_of_cons. auto.
        -- intros (i & Hi & Hle & Hpid).
           apply elem_of_cons in Hi as [[= <- <-]|Hi]; [left|right; eauto].
           destruct r as [rid rscore]. simpl in *. congruence.
      * intros Hrs. destruct (IH _ Hrs) as (new & -> & Hnew).
        exists new. split; [reflexivity|].
        intros r. rewrite Hnew. split.
        -- intros (i & Hi & H). exists i. rewrite elem_of_cons. auto.
        -- intros (i & Hi & Hle & Hpid).
           apply elem_of_cons in Hi as [[= <- <-]|Hi]; [|eauto].
           apply Qle_bool_iff in Hle. congruence.
    + intros Hrs. destruct (IH _ Hrs) as (new & -> & Hnew).
      exists new. split; [reflexivity|].
      intros r. rewrite Hnew. split.
      * intros (i & Hi & H). exists i. rewrite elem_of_cons. auto.
      * intros (i & Hi & H). apply elem_of_cons in Hi as [[=]|Hi]. eauto.
Qed.

(** What [match] does with a scope that has identifiers, once the service
    is initialised. *)
Lemma match_known self self' event_id entry query (top_k : Z) (threshold : Q) :
  ensure_initialized self = Ret self' ->
  FaissService.event_indices self !! event_id = Some entry ->
  Entry.ids entry ≠ [] ->
  match_ self event_id query top_k threshold
  = (hits ← Faiss.search ties (Entry.dim entry) (Entry.index entry)
              (normalize query)
              (Z.min top_k (Z.of_nat (length (Entry.ids entry))));
     results ← for_each (FaissService.keep_hit (Entry.ids entry) threshold)
                 hits [];
     Ret (FaissService.group_by_photo results),
     self').
Proof.
  intros Hinit Hentry Hids. unfold FaissService.match_. rewrite Hinit.
  destruct (ensure_initialized_indices _ _ Hinit) as [-> _]. rewrite Hentry.
  destruct (Entry.ids entry); [contradiction|reflexivity].
Qed.

(** C8.  On a service that is initialised, or whose initialisation
    succeeds, [match] on a scope with no entry, or with an entry holding
    no identifier, returns the empty list, whatever the query, [top_k] and
    the threshold, and leaves the indices as they were. *)
Theorem match_empty_scope self event_id query (top_k : Z) (threshold : Q) :
  FaissService.initialized self = true ∨ model_available = true ->
  (FaissService.event_indices self !! event_id = None
   ∨ ∃ entry, FaissService.event_indices self !! event_id = Some entry
              ∧ Entry.ids entry = []) ->
  ∃ self', match_ self event_id query top_k threshold = (Ret [], self')
           ∧ FaissService.event_indices self'
             = FaissService.event_indices self.
Proof.
  intros Hready Hscope.
  destruct (ensure_initialized_ready self Hready) as [self' Hinit].
  destruct (ensure_initialized_indices _ _ Hinit) as [Heq _].
  exists self'. split; [|assumption].
  unfold FaissService.match_. rewrite Hinit, Heq.
  destruct Hscope as [->|(entry & -> & Hids)]; [reflexivity|].
  now rewrite Hids.
Qed.

(** What does hold of the grouping in [match]: one entry for each base id,
    best first; and under a threshold that is not negative the entry
    carries the largest score among the hits of its base id that pass the
    threshold. *)
Lemma match_groups_by_photo self event_id query (top_k : Z) (threshold : Q)
    res self' :
  match_ self event_id query top_k threshold = (Ret res, self') ->
  NoDup (map Hit.id res)
  ∧ StronglySorted (ge_key Hit.score) res
  ∧ ((0 <= threshold)%Q ->
     ∀ entry hits h,
       FaissService.event_indices self !! event_id = Some entry ->
       Faiss.search ties (Entry.dim entry) (Entry.index entry) (normalize query)
         (Z.min top_k (Z.of_nat (length (Entry.ids entry)))) = Ret hits ->
       h ∈ res ->
       (∃ score idx pid,
           Some (score, idx) ∈ hits ∧ Entry.ids entry !! idx = Some pid
           ∧ (threshold <= score)%Q ∧ before_hash pid = Hit.id h
           ∧ (score == Hit.score h)%Q)
       ∧ (∀ score idx pid,
            Some (score, idx) ∈ hits -> Entry.ids entry !! idx = Some pid ->
            (threshold <= score)%Q -> before_hash pid = Hit.id h ->
            (score <= Hit.score h)%Q)).
Proof.
  intros Hm.
  destruct (ensure_initialized self) as [self1|e] eqn:Hinit;
    [|unfold FaissService.match_ in Hm; rewrite Hinit in Hm; discriminate].
  assert (Hnil : res = [] ->
            NoDup (map Hit.id res) ∧ StronglySorted (ge_key Hit.score) res
            ∧ ∀ h, h ∈ res -> False).
  { intros ->. split; [constructor|]. split; [constructor|].
    intros h H. inversion H. }
  destruct (FaissService.event_indices self !! event_id) as [entry|] eqn:Hentry.
  2:{ unfold FaissService.match_ in Hm. rewrite Hinit in Hm.
      destruct (ensure_initialized_indices _ _ Hinit) as [Heq _].
      rewrite Heq, Hentry in Hm. injection Hm as <- <-.
      destruct (Hnil eq_refl) as (? & ? & Hno).
      split; [assumption|]. split; [assumption|].
      intros _ entry' hits h _ _ Hh. destruct (Hno h Hh). }
  destruct (decide (Entry.ids entry = [])) as [Hids|Hids].
  { unfold FaissService.match_ in Hm. rewrite Hinit in Hm.
    destruct (ensure_initialized_indices _ _ Hinit) as [Heq _].
    rewrite Heq, Hentry, Hids in Hm. injection Hm as <- <-.
    destruct (Hnil eq_refl) as (? & ? & Hno).
    split; [assumption|]. split; [assumption|].
    intros _ entry' hits h _ _ Hh. destruct (Hno h Hh). }
  clear Hnil.
  rewrite (match_known _ _ _ _ _ _ _ Hinit Hentry Hids) in Hm.
  destruct (Faiss.search _ _ _ _ _) as [hits|e] eqn:Hsearch; [|discriminate].
  simpl in Hm.
  destruct (for_each _ hits []) as [results|e] eqn:Hloop; [|discriminate].
  simpl in Hm. injection Hm as <- <-.
  destruct (for_each_keep_hit _ _ _ _ _ Hloop) as (new & -> & Hnew).
  simpl in *.
  destruct (group_by_photo_spec new) as (Hnd & Hsorted & _ & _).
  split; [assumption|]. split; [assumption|].
  intros Hthr entry' hits' h [= <-] Hs' Hh.
  rewrite Hsearch in Hs'. injection Hs' as <-.
  assert (Hpos : ∀ r, r ∈ new -> (0 <= Hit.score r)%Q).
  { intros r Hr. apply Hnew in Hr as (idx & _ & Hle & _).
    now apply Qle_trans with threshold. }
  destruct (group_by_photo_best new Hpos h Hh) as ((r & Hr & Hb & Heq) & Hub).
  split.
  - apply Hnew in Hr as (idx & Hhit & Hle & Hpid).
    exists (Hit.score r), idx, (Hit.id r). auto.
  - intros score idx pid Hhit Hpid Hle Hb'.
    apply (Hub {| Hit.id := pid; Hit.score := score |}); [|assumption].
    apply Hnew. exists idx. auto.
Qed.

(** C10.  Grouping starts every base id at 0.0: every score [match]
    reports is at least 0.0, and a hit of the search that passes the
    threshold with a negative score is reported, under its base id, with a
    score of at least 0.0, above its own; the score reported is 0.0
    itself when all the hits of that base id that pass the threshold are
    negative. *)
Theorem match_scores_floor self event_id query (top_k : Z) (threshold : Q)
    res self' :
  match_ self event_id query top_k threshold = (Ret res, self') ->
  (∀ h, h ∈ res -> (0 <= Hit.score h)%Q)
  ∧ (∀ entry hits score idx pid,
       FaissService.event_indices self !! event_id = Some entry ->
       Faiss.search ties (Entry.dim entry) (Entry.index entry) (normalize query)
         (Z.min top_k (Z.of_nat (length (Entry.ids entry)))) = Ret hits ->
       Some (score, idx) ∈ hits ->
       Entry.ids entry !! idx = Some pid ->
       (threshold <= score)%Q -> (score < 0)%Q ->
       ∃ h, h ∈ res ∧ Hit.id h = before_hash pid
            ∧ (0 <= Hit.score h)%Q ∧ (score < Hit.score h)%Q
            ∧ ((∀ score' idx' pid',
                  Some (score', idx') ∈ hits ->
                  Entry.ids entry !! idx' = Some pid' ->
                  (threshold <= score')%Q ->
                  before_hash pid' = before_hash pid -> (score' < 0)%Q) ->
               Hit.score h = 0.0%Q)).
Proof.
  intros Hm.
  destruct (ensure_initialized self) as [self1|e] eqn:Hinit;
    [|unfold FaissService.match_ in Hm; rewrite Hinit in Hm; discriminate].
  destruct (FaissService.event_indices self !! event_id) as [entry|] eqn:Hentry.
  2:{ unfold FaissService.match_ in Hm. rewrite Hinit in Hm.
      destruct (ensure_initialized_indices _ _ Hinit) as [Heq _].
      rewrite Heq, Hentry in Hm. injection Hm as <- <-.
      split; [intros h H; inversion H|]. intros; discriminate. }
  destruct (decide (Entry.ids entry = [])) as [Hids|Hids].
  { unfold FaissService.match_ in Hm. rewrite Hinit in Hm.
    destruct (ensure_initialized_indices _ _ Hinit) as [Heq _].
    rewrite Heq, Hentry, Hids in Hm. injection Hm as <- <-.
    split; [intros h H; inversion H|].
    intros entry' hits score idx pid [= <-] _ _ Hpid. rewrite Hids in Hpid.
    rewrite lookup_nil in Hpid. discriminate. }
  rewrite (match_known _ _ _ _ _ _ _ Hinit Hentry Hids) in Hm.
  destruct (Faiss.search _ _ _ _ _) as [hits|e] eqn:Hsearch; [|discriminate].
  simpl in Hm.
  destruct (for_each _ hits []) as [results|e] eqn:Hloop; [|discriminate].
  simpl in Hm. injection Hm as <- <-.
  destruct (for_each_keep_hit _ _ _ _ _ Hloop) as (new & -> & Hnew).
  simpl in *.
  destruct (group_by_photo_spec new) as (_ & _ & Hbase & Hscore).
  split; [intros h Hh; now apply Hscore|].
  intros entry' hits' score idx pid [= <-] Hs' Hhit Hpid Hthr Hneg.
  rewrite Hsearch in Hs'. injection Hs' as <-.
  assert (Hr : {| Hit.id := pid; Hit.score := score |} ∈ new).
  { apply Hnew. exists idx. auto. }
  assert (Hb : before_hash pid ∈ map Hit.id (FaissService.group_by_photo new)).
  { apply Hbase. eexists. split; [exact Hr|reflexivity]. }
  apply list_elem_of_In, in_map_iff in Hb as (h & Hid & Hh).
  apply list_elem_of_In in Hh.
  destruct (Hscore h Hh) as (Hpos & _ & Hwit).
  exists h. split; [assumption|]. split; [assumption|]. split; [assumption|].
  split; [now apply Qlt_le_trans with 0%Q|].
  intros Hall. destruct Hwit as [Hzero|(r & Hr' & Hb & Hs)]; [assumption|].
  exfalso. apply Hnew in Hr' as (idx' & Hhit' & Hthr' & Hpid').
  assert (Hit.score r < 0)%Q as Hlt
    by (eapply Hall; [exact Hhit'|exact Hpid'|exact Hthr'|congruence]).
  rewrite <- Hs in Hlt. eapply Qlt_not_le; eassumption.
Qed.
End Match.

(** ** ingest *)

Section Ingest.
Variable linalg_norm : list Q -> Q.
Variable model_available : bool.
Variable compute_embeddings_from_url : string -> Res (option (list (list Q))).
Implicit Types (self : FaissService.t) (entry : Entry.t)
         (rows : list (list Q * string)) (event_id photo_id : string).

Local Abbreviation ensure_initialized := (FaissService.ensure_initialized model_available).
Local Abbreviation rows_to_add :=
  (FaissService.rows_to_add linalg_norm compute_embeddings_from_url).
Local Abbreviation ingest :=
  (FaissService.ingest linalg_norm model_available compute_embeddings_from_url).
Local Abbreviation ids_of := FaissService.ids_of.
Local Abbreviation face_id := FaissService.face_id.

Lemma imap_labels {A : Type} (g : nat -> string) (vecs : list A) :
  map snd (imap (fun i v => (v, g i)) vecs) = map g (seq 0 (length vecs)).
Proof.
  revert g. induction vecs as [|v vecs IH]; intros g; [reflexivity|].
  rewrite imap_cons. cbn [map snd length seq]. f_equal.
  rewrite <- seq_shift, map_map. apply (IH (g ∘ S)).
Qed.

(** The rows appended before the loop ends or raises: the identifiers
    grow by a prefix of the labels, all of them when it ends. *)
Lemma append_rows_ids rows entry vectors :
  ∃ n, (n <= length rows)%nat
    ∧ Entry.ids (FaissService.append_rows rows entry vectors).2
      = Entry.ids entry ++ take n (map snd rows)
    ∧ match (FaissService.append_rows rows entry vectors).1 with
      | Ret _ => n = length rows
      | Raise _ => (n < length rows)%nat
      end.
Proof.
  revert entry vectors. induction rows as [|[v pid] rows IH];
    intros entry vectors; simpl.
  - exists 0%nat. rewrite app_nil_r. auto.
  - destruct (length v =? Entry.dim entry)%nat; simpl.
    + destruct (IH {| Entry.dim := Entry.dim entry;
                      Entry.index := Entry.index entry ++ [v];
                      Entry.ids := Entry.ids entry ++ [pid];
                      Entry.vectors := Entry.vectors entry |}
                   (vectors ++ [v])) as (n & Hn & Hids & Hr).
      exists (S n). split; [lia|]. split.
      * rewrite Hids. simpl. now rewrite <- app_assoc.
      * destruct (FaissService.append_rows rows _ _).1; lia.
    + exists 0%nat. rewrite app_nil_r. split; [lia|]. split; [reflexivity|lia].
Qed.

Lemma get_or_create_ids self event_id (dim : nat) :
  let '(entry, self') := FaissService._get_or_create_index self event_id dim in
  Entry.ids entry = ids_of self event_id
  ∧ FaissService.event_indices self' !! event_id = Some entry
  ∧ ∀ ev, ev ≠ event_id ->
      FaissService.event_indices self' !! ev
      = FaissService.event_indices self !! ev.
Proof.
  unfold FaissService._get_or_create_index, FaissService.ids_of.
  destruct (FaissService.event_indices self !! event_id) as [entry|] eqn:He.
  - auto.
  - simpl. split; [reflexivity|]. split; [apply lookup_insert_eq|].
    intros ev Hne. now apply lookup_insert_ne.
Qed.

Lemma rows_to_add_url photo_id image_url rows :
  rows_to_add photo_id image_url None = Ret (Some rows) ->
  ∃ url vecs, image_url = Some url
    ∧ compute_embeddings_from_url url = Ret (Some vecs)
    ∧ vecs ≠ []
    ∧ map snd rows = map (face_id photo_id) (seq 0 (length vecs)).
Proof.
  unfold FaissService.rows_to_add.
  destruct image_url as [[|c url]|]; try discriminate.
  destruct (compute_embeddings_from_url (String c url)) as [[[|v vecs]|]|e] eqn:Hc;
    simpl; try discriminate.
  intros [= <-]. exists (String c url), (v :: vecs).
  repeat split; [assumption|discriminate|].
  apply (imap_labels (face_id photo_id) (v :: vecs)).
Qed.

(** The identifiers of the scope after [ingest]: those it had, then the
    labels of the rows that were appended; other scopes keep theirs. *)
Lemma ingest_ids self event_id photo_id image_url embedding :
  let out := ingest self event_id photo_id image_url embedding in
  (∀ ev, ev ≠ event_id -> ids_of out.2 ev = ids_of self ev)
  ∧ match rows_to_add photo_id image_url embedding with
    | Ret (Some rows) =>
        ∃ n, (n <= length rows)%nat
          ∧ ids_of out.2 event_id
            = ids_of self event_id ++ take n (map snd rows)
          ∧ match out.1 with
            | Ret _ => n = length rows
            | Raise _ => n = 0%nat ∨ (n < length rows)%nat
            end
    | _ => ids_of out.2 event_id = ids_of self event_id
    end
  ∧ (out.1 = Ret true ->
     ∃ rows, rows_to_add photo_id image_url embedding = Ret (Some rows))
  ∧ (out.1 = Ret false ->
     rows_to_add photo_id image_url embedding = Ret None).
Proof.
  unfold FaissService.ingest.
  destruct (ensure_initialized self) as [self1|e] eqn:Hinit; simpl.
  2:{ split; [reflexivity|].
      split; [destruct (rows_to_add _ _ _) as [[rows|]|]; try reflexivity
             |split; discriminate].
      exists 0%nat. rewrite app_nil_r. split; [lia|]. split; [reflexivity|now left]. }
  assert (Hsame : ∀ ev, ids_of self1 ev = ids_of self ev).
  { intros ev. unfold FaissService.ids_of.
    destruct (ensure_initialized_indices _ _ _ Hinit) as [-> _]. reflexivity. }
  destruct (rows_to_add photo_id image_url embedding) as [[rows|]|e] eqn:Hrows;
    simpl; [|split; [auto|split; [auto|split; [discriminate|reflexivity]]]
            |split; [auto|split; [auto|split; discriminate]]].
  pose proof (get_or_create_ids self1 event_id
                (length (hd [] (map fst rows)))) as Hget.
  destruct (FaissService._get_or_create_index self1 event_id _)
    as [entry self2]. destruct Hget as (Hids & Hentry & Hother).
  destruct (append_rows_ids rows entry (Entry.vectors entry))
    as (n & Hn & Hnew & Hres).
  destruct (FaissService.append_rows rows entry (Entry.vectors entry))
    as [r entry'] eqn:Happ. simpl in Hnew, Hres.
  destruct r as [vectors|e]; simpl.
  - split.
    + intros ev Hne. unfold FaissService.ids_of at 1. simpl.
      rewrite lookup_insert_ne by congruence.
      rewrite <- Hsame. unfold FaissService.ids_of. now rewrite Hother.
    + split; [|split; [eauto|discriminate]]. exists n. split; [assumption|].
      unfold FaissService.ids_of at 1. simpl. rewrite lookup_insert_eq. simpl.
      rewrite Hnew, Hids, Hsame. auto.
  - split.
    + intros ev Hne. unfold FaissService.ids_of at 1. simpl.
      rewrite lookup_insert_ne by congruence.
      rewrite <- Hsame. unfold FaissService.ids_of. now rewrite Hother.
    + split; [|split; discriminate]. exists n. split; [assumption|].
      unfold FaissService.ids_of at 1. simpl. rewrite lookup_insert_eq.
      rewrite Hnew, Hids, Hsame. auto.
Qed.

End Ingest.

(** * The theorems on concrete data *)

Import Examples.

Lemma remove_duplicate_faces_first_seen_witness :
  Faces._remove_duplicate_faces ([(0, 10, 10, 0)] ++ [(0, 100, 100, 0)])
  = [(0, 10, 10, 0)]
  ∧ Faces._remove_duplicate_faces ([(0, 10, 10, 0)] ++ [(0, 100, 100, 0)])
    `prefix_of` Faces._remove_duplicate_faces three_boxes
  ∧ Faces._remove_duplicate_faces three_boxes
    = [(0, 10, 10, 0); (200, 300, 300, 200)].
Proof.
  destruct (remove_duplicate_faces_first_seen three_boxes) as (_ & _ & H & _).
  destruct (H [(0, 10, 10, 0)] (0, 100, 100, 0) [(200, 300, 300, 200)] eq_refl)
    as [Hstep Hpre].
  split; [etransitivity; [exact Hstep|reflexivity]|].
  split; [exact Hpre|reflexivity].
Defined.



Example compare_faces_text_tolerance_read :
  AnyTolerance.compare_faces norm6 service query [0.6; 0.5]%Q
    (Some (Tolerance.text "0.5"))
  = Some (Ret {| Comparison.is_match := false;
                 Comparison.distance := 999.0;
                 Comparison.similarity := Some 0.0%Q;
                 Comparison.confidence := 0.0;
                 Comparison.tolerance_used := 5 # 10 |})
  ∧ AnyTolerance.compare_faces norm6 service query [0.6; 0.5]%Q
      (Some (Tolerance.text "1e-1")) = None.
Proof. split; vm_compute; reflexivity. Qed.

Example compare_faces_near :
  FaceService.compare_faces norm6 service query [0.6; 0.5]%Q None
  = Ret {| Comparison.is_match := true;
           Comparison.distance := 0.3;
           Comparison.similarity := Some (3040000000000 # 3124099870000);
           Comparison.confidence := 90 # 120;
           Comparison.tolerance_used := 0.6 |}.
Proof. vm_compute. reflexivity. Qed.

Lemma find_matching_photos_gates_witness :
  FaceService.initialized service = true
  ∧ ∃ res, FaceService.find_matching_photos norm6 service query collection None
           = Ret res
      ∧ map Matched.id res = ["same"; "near"]
      ∧ StronglySorted (ge_key Matched.score) res.
Proof.
  split; [reflexivity|].
  destruct (find_matching_photos_gates norm6 service query collection None eq_refl)
    as (Hgates & Hreturns).
  destruct (proj1 Hreturns) as (res & Hres).
  { intros p Hp _. unfold collection in Hp.
    repeat (apply elem_of_cons in Hp as [->|Hp]; [now eexists|]).
    inversion Hp. }
  destruct (Hgates res Hres) as (_ & Hsorted).
  exists res. split; [exact Hres|]. split; [|exact Hsorted].
  revert Hres. vm_compute. intros [= <-]. reflexivity.
Defined.



(** C2 fails on the code.  The scope holds "photo1#0" and "photo1#1"; for
    the query [-3, -1] both rows score below zero and pass the threshold
    -1.  [match] reports one entry for "photo1", best first, but with the
    score 0.0 of the default of [grouped.get], which is the score of
    neither row, not the larger of the two. *)
Lemma match_negative_group_reports_zero :
  let q := FaissService.normalize norm6 [-3; -1]%Q in
  Forall (fun row => (-1 <= Faiss.inner q row)%Q ∧ (Faiss.inner q row < 0)%Q)
         [[1; 0]%Q; [0; 1]%Q]
  ∧ (FaissService.match_ norm6 true later_first two_faces "wedding" [-3; -1]%Q 20 (-1)%Q).1
    = Ret [ {| Hit.id := "photo1"; Hit.score := 0.0 |} ].
Proof.
  split; [|vm_compute; reflexivity].
  repeat constructor; vm_compute; congruence.
Qed.

(** With scores above zero the grouping is the one C2 describes: the two
    faces of "photo1" pass the threshold and the one entry carries the
    larger score. *)
Example match_groups_two_faces :
  let q := FaissService.normalize norm6 [9; 7]%Q in
  (FaissService.match_ norm6 true later_first two_faces "wedding" [9; 7]%Q 20 0.35%Q).1
  = Ret [ {| Hit.id := "photo1"; Hit.score := Faiss.inner q [1; 0]%Q |} ]
  ∧ (0.35 <= Faiss.inner q [0; 1]%Q)%Q
  ∧ (Faiss.inner q [0; 1]%Q <= Faiss.inner q [1; 0]%Q)%Q.
Proof. repeat split; vm_compute; congruence. Qed.

(** C8 fails on the code for a service that is not initialised and whose
    initialisation fails: [match] starts with [self.initialize()], which
    raises RuntimeError before the scope is looked up. *)
Lemma match_raises_without_model :
  FaissService.match_ norm6 false later_first
    {| FaissService.initialized := false; FaissService.event_indices := ∅ |}
    "wedding" [1; 0]%Q 20 0.35%Q
  = (Raise RuntimeError,
     {| FaissService.initialized := false; FaissService.event_indices := ∅ |}).
Proof. reflexivity. Qed.

Lemma match_empty_scope_witness :
  (∃ self', FaissService.match_ norm6 false later_first empty_index "wedding" [1; 0]%Q 20 0.35%Q
            = (Ret [], self'))
  ∧ (∃ self', FaissService.match_ norm6 false later_first
                {| FaissService.initialized := true;
                   FaissService.event_indices :=
                     {[ "wedding" := {| Entry.dim := 2; Entry.index := [];
                                        Entry.ids := []; Entry.vectors := [] |} ]} |}
                "wedding" [1; 0]%Q 20 0.35%Q
            = (Ret [], self')).
Proof.
  split.
  - destruct (match_empty_scope norm6 false later_first empty_index "wedding" [1; 0]%Q 20 0.35%Q)
      as (self' & H & _); [left; reflexivity|left; vm_compute; reflexivity|].
    exists self'. exact H.
  - destruct (match_empty_scope norm6 false later_first
                {| FaissService.initialized := true;
                   FaissService.event_indices :=
                     {[ "wedding" := {| Entry.dim := 2; Entry.index := [];
                                        Entry.ids := []; Entry.vectors := [] |} ]} |}
                "wedding" [1; 0]%Q 20 0.35%Q)
      as (self' & H & _); [left; reflexivity| |].
    + right. eexists. split; [vm_compute; reflexivity|reflexivity].
    + exists self'. exact H.
Defined.

Lemma match_scores_floor_witness :
  FaissService.match_ norm6 true later_first two_faces "wedding" [-3; -1]%Q 20 (-1)%Q
  = (Ret [ {| Hit.id := "photo1"; Hit.score := 0.0 |} ], two_faces)
  ∧ ∀ h, h ∈ [ {| Hit.id := "photo1"; Hit.score := 0.0 |} ] ->
         (0 <= Hit.score h)%Q.
Proof.
  assert (H : FaissService.match_ norm6 true later_first two_faces "wedding" [-3; -1]%Q 20 (-1)%Q
              = (Ret [ {| Hit.id := "photo1"; Hit.score := 0.0 |} ], two_faces))
    by (vm_compute; reflexivity).
  split; [exact H|].
  exact (proj1 (match_scores_floor norm6 true later_first two_faces "wedding" [-3; -1]%Q 20
                  (-1)%Q _ _ H)).
Defined.


(** * Further properties of the code *)

(** ** _LRUCache: bounds, failures and round trips *)

Section CacheMore.
Context {V : Type}.
Implicit Types (c : LRUCache.t V) (key k : string) (now : Q) (l : list string).

Lemma length_remove_first key l :
  key ∈ l -> S (length (remove_first key l)) = length l.
Proof.
  induction l as [|y l IH]; simpl; [intros H; inversion H|].
  intros Hin. destruct (decide (key = y)) as [->|Hne]; [reflexivity|].
  apply elem_of_cons in Hin as [->|Hin]; [contradiction|].
  simpl. now rewrite IH.
Qed.

Lemma wf_size c :
  LRUCache.wf c -> size (LRUCache.store c) = length (LRUCache.order c).
Proof.
  intros [Hnd Hdom]. rewrite <- size_dom, Hdom.
  now apply size_list_to_set.
Qed.

Lemma set_capacity c now key (value : V) c' :
  LRUCache.set now key value c = Ret c' ->
  LRUCache.capacity c' = LRUCache.capacity c ∧ LRUCache.ttl c' = LRUCache.ttl c.
Proof.
  unfold LRUCache.set.
  destruct (LRUCache.store c !! key).
  - destruct (bool_decide _); simpl; [|discriminate]. now intros [= <-].
  - destruct (_ >=? _); [destruct (LRUCache.order c)|]; simpl;
      try discriminate; now intros [= <-].
Qed.

Lemma get_capacity c now key :
  LRUCache.capacity (LRUCache.get now key c).2 = LRUCache.capacity c.
Proof.
  unfold LRUCache.get. destruct (LRUCache.store c !! key) as [[ts v]|];
    [destruct (Qle_bool _ _)|]; reflexivity.
Qed.

Lemma built_bounded c :
  LRUCache.built c ->
  Z.of_nat (length (LRUCache.order c)) <= Z.max 0 (LRUCache.capacity c).
Proof.
  intros Hb.
  induction Hb as [capacity ttl|now key c Hb IH|now key value c c' Hb IH Hset
                  |key c Hb IH].
  - simpl. lia.
  - apply built_wf in Hb. pose proof (fun k => wf_listed c k Hb) as Hl.
    rewrite get_capacity. unfold LRUCache.get.
    destruct (LRUCache.store c !! key) as [[ts v]|] eqn:Hs; [|exact IH].
    assert (Hin : key ∈ LRUCache.order c) by (apply Hl; eauto).
    pose proof (length_remove_first key _ Hin) as Hlen.
    destruct (Qle_bool _ _); simpl; rewrite bool_decide_eq_true_2 by assumption.
    + rewrite length_app. simpl. lia.
    + lia.
  - apply built_wf in Hb. pose proof (fun k => wf_listed c k Hb) as Hl.
    destruct (set_capacity _ _ _ _ _ Hset) as [-> _].
    revert Hset. unfold LRUCache.set.
    destruct (LRUCache.store c !! key) as [tv|] eqn:Hs.
    + assert (Hin : key ∈ LRUCache.order c) by (apply Hl; eauto).
      pose proof (length_remove_first key _ Hin) as Hlen.
      rewrite bool_decide_eq_true_2 by assumption. simpl. intros [= <-].
      simpl. rewrite length_app. simpl. lia.
    + destruct (Z.geb_spec (Z.of_nat (length (LRUCache.order c)))
                  (LRUCache.capacity c)) as [Hfull|Hroom].
      * destruct (LRUCache.order c) as [|evict rest]; simpl; [discriminate|].
        intros [= <-]. simpl in *. rewrite length_app. simpl. lia.
      * simpl. intros [= <-]. simpl. rewrite length_app. simpl. lia.
  - apply built_wf in Hb. simpl. case_bool_decide as Hin; [|exact IH].
    pose proof (length_remove_first key _ Hin). lia.
Qed.

(** X1.  A cache never lists more keys than its capacity (none at all when the
    capacity is not positive), and it stores exactly the keys it lists. *)
Theorem lru_never_exceeds_capacity c :
  LRUCache.built c ->
  Z.of_nat (length (LRUCache.order c)) <= Z.max 0 (LRUCache.capacity c)
  ∧ size (LRUCache.store c) = length (LRUCache.order c).
Proof.
  intros Hb. split.
  - now apply built_bounded.
  - apply wf_size. now apply built_wf.
Qed.

(** X2.  [set] fails on the caches of capacity 0 or less, and only on them: there
    it raises IndexError, whatever the key; with a positive capacity it
    returns. *)
Theorem lru_set_fails_without_capacity c now key (value : V) :
  LRUCache.built c ->
  (LRUCache.capacity c <= 0 ->
   LRUCache.set now key value c = Raise IndexError)
  ∧ (0 < LRUCache.capacity c ->
     ∃ c', LRUCache.set now key value c = Ret c').
Proof.
  intros Hb. pose proof (built_bounded c Hb) as Hlen.
  apply built_wf in Hb. pose proof (fun k => wf_listed c k Hb) as Hl.
  unfold LRUCache.set. split.
  - intros Hcap. rewrite Z.max_l in Hlen by lia.
    destruct (LRUCache.order c) as [|k rest] eqn:Ho; [|simpl in Hlen; lia].
    destruct (LRUCache.store c !! key) as [tv|] eqn:Hs.
    + exfalso. assert (Hin : key ∈ []) by (apply Hl; eauto). inversion Hin.
    + simpl.
      assert ((Z.of_nat 0 >=? LRUCache.capacity c) = true) as ->
        by (apply Z.geb_le; lia).
      reflexivity.
  - intros Hcap. destruct (LRUCache.store c !! key) as [tv|] eqn:Hs.
    + assert (Hin : key ∈ LRUCache.order c) by (apply Hl; eauto).
      rewrite bool_decide_eq_true_2 by assumption. simpl. eauto.
    + destruct (Z.geb_spec (Z.of_nat (length (LRUCache.order c)))
                  (LRUCache.capacity c)) as [Hfull|Hroom]; [|simpl; eauto].
      destruct (LRUCache.order c); simpl in *; [lia|eauto].
Qed.

(** X3.  What [set] stores, [get] returns until the TTL has passed, and not
    after. *)
Theorem lru_set_get_round_trip c now key (value : V) c' now' :
  LRUCache.set now key value c = Ret c' ->
  ((now' - now <= LRUCache.ttl c)%Q ->
   (LRUCache.get now' key c').1 = Some value)
  ∧ ((LRUCache.ttl c < now' - now)%Q ->
     (LRUCache.get now' key c').1 = None).
Proof.
  intros Hset. destruct (set_capacity _ _ _ _ _ Hset) as [_ Httl].
  assert (Hs : LRUCache.store c' !! key = Some (now, value)).
  { revert Hset. unfold LRUCache.set.
    destruct (LRUCache.store c !! key).
    - destruct (bool_decide _); simpl; [|discriminate].
      intros [= <-]. apply lookup_insert_eq.
    - destruct (_ >=? _); [destruct (LRUCache.order c)|]; simpl;
        try discriminate; intros [= <-]; apply lookup_insert_eq. }
  unfold LRUCache.get. rewrite Hs, Httl. split.
  - intros Hlive. apply Qle_bool_iff in Hlive. now rewrite Hlive.
  - intros Hold. destruct (Qle_bool _ _) eqn:E; [|reflexivity].
    apply Qle_bool_iff in E. exfalso. eapply Qlt_not_le; eassumption.
Qed.

(** X4.  After [delete] the key reads as absent and is no longer listed; the
    other keys read as before. *)
Theorem lru_delete_forgets c now key :
  (LRUCache.get now key (LRUCache.delete key c)).1 = None
  ∧ (∀ k, k ≠ key ->
       (LRUCache.get now k (LRUCache.delete key c)).1
       = (LRUCache.get now k c).1)
  ∧ (LRUCache.wf c -> key ∉ LRUCache.order (LRUCache.delete key c)).
Proof.
  split; [|split].
  - unfold LRUCache.get. simpl. now rewrite lookup_delete_eq.
  - intros k Hne. unfold LRUCache.get. simpl.
    rewrite lookup_delete_ne by congruence.
    destruct (LRUCache.store c !! k) as [[ts v]|]; [|reflexivity].
    now destruct (Qle_bool _ _).
  - intros [Hnd _]. simpl. case_bool_decide as Hin; [|assumption].
    rewrite elem_of_remove_first by assumption. tauto.
Qed.
End CacheMore.

(** ** compare_faces and find_matching_photos: ranges, caps and order *)

From Stdlib Require Import Lqa.

Section SortDescMore.
Context {A : Type} (key : A -> Q).


(** The sort is stable: the elements of one key keep their order. *)
Lemma sort_desc_keeps_ties (s : Q) (l : list A) :
  List.filter (fun x => Qeq_bool (key x) s) (sort_desc key l)
  = List.filter (fun x => Qeq_bool (key x) s) l.
Proof.
  induction l as [|x l IH]; simpl; [reflexivity|].
  rewrite <- IH. generalize (sort_desc key l). intros t. clear IH.
  induction t as [|y t IHt]; simpl; [reflexivity|].
  destruct (Qle_bool (key y) (key x)) eqn:E; simpl; [reflexivity|].
  rewrite IHt. destruct (Qeq_bool (key x) s) eqn:Ex; [|reflexivity].
  destruct (Qeq_bool (key y) s) eqn:Ey; [|reflexivity].
  exfalso. apply Qeq_bool_iff in Ex, Ey. apply Qle_bool_false in E.
  rewrite Ex, Ey in E. now apply Qlt_irrefl in E.
Qed.
End SortDescMore.

Section CompareMore.
Variable linalg_norm : list Q -> Q.
Implicit Types (self : FaceService.t) (d ud : list Q) (p : Photo.t)
         (coll : list Photo.t).

Local Abbreviation compare_faces := (FaceService.compare_faces linalg_norm).
Local Abbreviation match_photo := (FaceService.match_photo linalg_norm).
Local Abbreviation find_matching_photos :=
  (FaceService.find_matching_photos linalg_norm).

Lemma div_by_1_2 (dist : Q) : (dist / 1.2 == dist * (5 # 6))%Q.
Proof.
  unfold Qdiv. apply Qmult_comp; reflexivity.
Qed.

Lemma confidence_floor (dist : Q) :
  (0.4 <= py_max 0 (1 - dist / 1.2) ↔ dist <= 0.72)%Q.
Proof.
  pose proof (div_by_1_2 dist) as Hdiv.
  destruct (py_max_cases 0 (1 - dist / 1.2)%Q) as [[-> Hle]|[-> Hlt]].
  - revert Hdiv Hle. generalize (dist / 1.2)%Q. intros x Hdiv Hle.
    split; [intros H; exfalso; revert H; apply Qlt_not_le; reflexivity|].
    intros H. exfalso. lra.
  - revert Hdiv Hlt. generalize (dist / 1.2)%Q. intros x Hdiv Hlt. lra.
Qed.

(** The two shapes of a comparison: the computed one, for descriptors of
    one length, and the worst case. *)
Lemma compare_faces_shapes self ud d tol :
  (length ud = length d
   ∧ compare_faces self ud d (Some tol)
     = Ret {| Comparison.is_match :=
                Qle_bool (linalg_norm (zip_with Qminus ud d)) tol;
              Comparison.distance := linalg_norm (zip_with Qminus ud d);
              Comparison.similarity :=
                Np.div (fold_left Qplus (zip_with Qmult ud d) 0%Q)
                       (linalg_norm ud * linalg_norm d)%Q;
              Comparison.confidence :=
                py_max 0 (1 - linalg_norm (zip_with Qminus ud d) / 1.2)%Q;
              Comparison.tolerance_used := tol |})
  ∨ (length ud ≠ length d
     ∧ ∃ t, compare_faces self ud d (Some tol)
            = Ret {| Comparison.is_match := false;
                     Comparison.distance := 999.0;
                     Comparison.similarity := Some 0.0%Q;
                     Comparison.confidence := 0.0;
                     Comparison.tolerance_used := t |}).
Proof.
  unfold FaceService.compare_faces. simpl.
  destruct (decide (length ud = length d)) as [Heq|Hne]; [left|right];
    (split; [assumption|]).
  - now rewrite compare_faces_try_same_length.
  - destruct (compare_faces_try_other_length linalg_norm ud d tol Hne) as [e ->].
    simpl. eauto.
Qed.

(** X5.  The confidence of a comparison is never negative, it is at most 1 when
    the distance is not negative, and it reaches the floor 0.4 of
    [find_matching_photos] exactly when the distance is at most 0.72. *)
Theorem compare_confidence_bounds self ud d (tolerance : option Q) r :
  compare_faces self ud d tolerance = Ret r ->
  (0 <= Comparison.confidence r)%Q
  ∧ ((0 <= Comparison.distance r)%Q -> (Comparison.confidence r <= 1)%Q)
  ∧ ((0.4 <= Comparison.confidence r)%Q ↔ (Comparison.distance r <= 0.72)%Q).
Proof.
  intros Hr.
  assert (Hr' : compare_faces self ud d
                  (Some (default (FaceService.tolerance self) tolerance)) = Ret r)
    by (destruct tolerance; exact Hr).
  destruct (compare_faces_shapes self ud d
              (default (FaceService.tolerance self) tolerance))
    as [[_ H]|[_ [t H]]]; rewrite H in Hr'; injection Hr' as <-; simpl.
  - split; [|split].
    + destruct (py_max_cases 0 (1 - linalg_norm (zip_with Qminus ud d) / 1.2)%Q)
        as [[-> _]|[-> Hlt]]; [apply Qle_refl|now apply Qlt_le_weak].
    + intros Hd.
      pose proof (div_by_1_2 (linalg_norm (zip_with Qminus ud d))) as Hdiv.
      destruct (py_max_cases 0 (1 - linalg_norm (zip_with Qminus ud d) / 1.2)%Q)
        as [[-> _]|[-> Hlt]]; [discriminate|].
      revert Hdiv Hlt. generalize (linalg_norm (zip_with Qminus ud d) / 1.2)%Q.
      intros x Hdiv Hlt. lra.
    + apply confidence_floor.
  - split; [discriminate|]. split; [discriminate|].
    split; intros H'; exfalso; revert H'; apply Qlt_not_le; reflexivity.
Qed.




Lemma match_photo_extends self ud (tol : Q) acc p out :
  match_photo self ud tol acc p = Ret out ->
  ∃ add, out = acc ++ add
    ∧ (add = []
       ∨ (MatchFacts.carries_descriptor p = true
          ∧ ∃ m, add = [m] ∧ Photo.id p = Some (Matched.id m))).
Proof.
  unfold FaceService.match_photo, MatchFacts.carries_descriptor.
  destruct (Photo.descriptor p) as [[|x d]|];
    try (intros [= <-]; exists []; rewrite app_nil_r; now auto).
  destruct (compare_faces_returns linalg_norm self ud (x :: d) (Some tol))
    as [c ->]. simpl.
  destruct (Comparison.is_match c);
    [destruct (Qle_bool 0.4 (Comparison.confidence c))|];
    try (intros [= <-]; exists []; rewrite app_nil_r; now auto).
  pose proof (matched_photo_id p c) as Hid.
  destruct (Photo.id p) as [id|]; [|rewrite Hid; discriminate].
  destruct Hid as (m & -> & Hm). simpl. intros [= <-].
  exists [m]. split; [reflexivity|]. right. split; [reflexivity|].
  exists m. now rewrite Hm.
Qed.

Lemma for_each_extends self ud (tol : Q) coll acc out :
  for_each (match_photo self ud tol) coll acc = Ret out ->
  ∃ matched, out = acc ++ matched
    ∧ sublist (map Some (map Matched.id matched))
              (map Photo.id (List.filter MatchFacts.carries_descriptor coll)).
Proof.
  revert acc. induction coll as [|p coll IH]; intros acc; simpl.
  - intros [= <-]. exists []. rewrite app_nil_r. split; [reflexivity|constructor].
  - destruct (match_photo self ud tol acc p) as [acc'|e] eqn:Hstep; simpl;
      [|discriminate].
    destruct (match_photo_extends self ud tol acc p acc' Hstep)
      as (add & -> & Hadd).
    intros Hrest. destruct (IH (acc ++ add) Hrest) as (matched & -> & Hsub).
    exists (add ++ matched). rewrite app_assoc. split; [reflexivity|].
    destruct Hadd as [->|[-> (m & -> & Hid)]]; simpl.
    + destruct (MatchFacts.carries_descriptor p); simpl;
        [now apply sublist_cons|assumption].
    + rewrite Hid. now apply sublist_skip.
Qed.

(** X7.  The order of the result: it is the list of matches taken in the order
    of the collection, each from an item that carries a descriptor, sorted
    by score; matches of equal score stay in the order of the collection.
    So there are no more matches than items with a descriptor, and an
    empty collection gives an empty result. *)
Theorem find_keeps_collection_order self ud coll (tolerance : option Q) res :
  find_matching_photos self ud coll tolerance = Ret res ->
  ∃ matched,
    sublist (map Some (map Matched.id matched))
            (map Photo.id (List.filter MatchFacts.carries_descriptor coll))
    ∧ Permutation res matched
    ∧ (∀ s, MatchFacts.with_score s res = MatchFacts.with_score s matched)
    ∧ (length res <= length (List.filter MatchFacts.carries_descriptor coll))%nat
    ∧ (coll = [] -> res = []).
Proof.
  unfold FaceService.find_matching_photos.
  destruct (FaceService.initialized self); simpl; [|discriminate].
  destruct (for_each _ coll []) as [out|e] eqn:Hloop; simpl; [|discriminate].
  destruct (for_each_extends self ud _ coll [] out Hloop)
    as (matched & -> & Hsub).
  simpl. intros [= <-]. exists matched.
  split; [assumption|]. split; [apply sort_desc_perm|].
  split; [intros s; apply sort_desc_keeps_ties|]. split.
  - rewrite (Permutation_length (sort_desc_perm Matched.score matched)).
    apply sublist_length in Hsub. now rewrite !length_map in Hsub.
  - intros ->. simpl in Hsub. apply sublist_nil_r in Hsub.
    destruct matched; [reflexivity|discriminate].
Qed.


End CompareMore.

(** ** batch_analyze_photos: the entries of photo_data *)

Section BatchMore.
Variable get_face_descriptors_from_url : string -> Res (option (list (list Q))).

Local Abbreviation _process := (FaceService._process get_face_descriptors_from_url).
Local Abbreviation has_faces := (FaceService.has_faces get_face_descriptors_from_url).
Local Abbreviation batch_analyze_photos :=
  (FaceService.batch_analyze_photos get_face_descriptors_from_url).

Lemma tally_photo_data (urls : list string) (acc : Batch.t) :
  ∃ new,
    Batch.photo_data
      (fold_left FaceService.tally
         (map (fun url => _process (0%nat, url)) urls) acc)
    = Batch.photo_data acc ++ new
    ∧ map PhotoData.url new = List.filter has_faces urls
    ∧ Forall (fun d =>
                get_face_descriptors_from_url (PhotoData.url d)
                = Ret (Some (PhotoData.descriptors d))
                ∧ PhotoData.face_count d = length (PhotoData.descriptors d)
                ∧ (0 < PhotoData.face_count d)%nat) new.
Proof.
  revert acc. induction urls as [|u urls IH]; intros acc.
  - exists []. simpl. rewrite app_nil_r. auto.
  - cbn [map fold_left List.filter].
    destruct (IH (FaceService.tally acc (_process (0%nat, u))))
      as (new & -> & Hurl & Hall).
    destruct (get_face_descriptors_from_url u) as [[[|d ds]|]|e] eqn:Hu.
    1,3,4: assert (has_faces u = false) as ->
             by (unfold FaceService.has_faces; now rewrite Hu);
           unfold FaceService._process; rewrite Hu; simpl; exists new; now auto.
    assert (has_faces u = true) as ->
      by (unfold FaceService.has_faces; now rewrite Hu).
    unfold FaceService._process. rewrite Hu. simpl.
    exists ({| PhotoData.url := u; PhotoData.descriptors := d :: ds;
               PhotoData.face_count := S (length ds) |} :: new).
    rewrite <- app_assoc. split; [reflexivity|]. split; [simpl; now f_equal|].
    constructor; [|assumption]. simpl. split; [assumption|]. split; [reflexivity|lia].
Qed.

(** X9.  [photo_data] lists, in the order of the URLs, exactly the URLs that
    gave descriptors, each with the descriptors the extraction returned
    and their number, which is at least 1; there are [faces_found] of
    them. *)
Theorem batch_photo_data (photo_urls : list string) :
  let r := batch_analyze_photos photo_urls in
  map PhotoData.url (Batch.photo_data r) = List.filter has_faces photo_urls
  ∧ length (Batch.photo_data r) = Batch.faces_found r
  ∧ Forall (fun d =>
              get_face_descriptors_from_url (PhotoData.url d)
              = Ret (Some (PhotoData.descriptors d))
              ∧ PhotoData.face_count d = length (PhotoData.descriptors d)
              ∧ (0 < PhotoData.face_count d)%nat)
           (Batch.photo_data r).
Proof.
  unfold FaceService.batch_analyze_photos, FaceService.enumerate.
  rewrite process_enumerate.
  destruct (tally_photo_data photo_urls
              {| Batch.processed := 0; Batch.faces_found := 0;
                 Batch.failed := 0; Batch.photo_data := [] |})
    as (new & Hdata & Hurl & Hall).
  destruct (tally_fold get_face_descriptors_from_url photo_urls
              {| Batch.processed := 0; Batch.faces_found := 0;
                 Batch.failed := 0; Batch.photo_data := [] |})
    as (_ & Hf & _).
  cbv zeta in *. cbn [Batch.photo_data Batch.faces_found app Nat.add] in Hdata, Hf.
  rewrite Hdata, Hf.
  split; [assumption|]. split; [|assumption].
  now rewrite <- Hurl, length_map.
Qed.
End BatchMore.

(** ** The per-event index: [ingest] and [match] together *)

Section IndexMore.
Variable linalg_norm : list Q -> Q.
Variable model_available : bool.
Variable compute_embeddings_from_url : string -> Res (option (list (list Q))).
Variable ties : nat -> nat -> bool.
Implicit Types (self : FaissService.t) (entry : Entry.t)
         (rows : list (list Q * string)) (event_id photo_id : string).

Local Abbreviation ensure_initialized := (FaissService.ensure_initialized model_available).
Local Abbreviation normalize := (FaissService.normalize linalg_norm).
Local Abbreviation ingest :=
  (FaissService.ingest linalg_norm model_available compute_embeddings_from_url).
Local Abbreviation match_ :=
  (FaissService.match_ linalg_norm model_available ties).
Local Abbreviation ids_of := FaissService.ids_of.
Local Abbreviation aligned := IndexFacts.aligned.
Local Abbreviation all_aligned := IndexFacts.all_aligned.

Lemma length_normalize (v : list Q) : length (normalize v) = length v.
Proof. unfold FaissService.normalize, Np.scale_down. apply length_map. Qed.

(** What the appending loop leaves: a prefix of the rows went into the
    index and the identifiers, all of them when it ends; it stops at the
    first row of another width, with ValueError. *)
Lemma append_rows_spec rows entry vectors :
  let out := FaissService.append_rows rows entry vectors in
  ∃ n, (n <= length rows)%nat
    ∧ Entry.dim out.2 = Entry.dim entry
    ∧ Entry.index out.2 = Entry.index entry ++ take n (map fst rows)
    ∧ Entry.ids out.2 = Entry.ids entry ++ take n (map snd rows)
    ∧ Entry.vectors out.2 = Entry.vectors entry
    ∧ Forall (fun v => length v = Entry.dim entry) (take n (map fst rows))
    ∧ match out.1 with
      | Ret vs => n = length rows ∧ vs = vectors ++ map fst rows
      | Raise e =>
          e = ValueError
          ∧ ∃ v, map fst rows !! n = Some v ∧ length v ≠ Entry.dim entry
      end.
Proof.
  revert entry vectors. induction rows as [|[v pid] rows IH];
    intros entry vectors; simpl.
  - exists 0%nat. rewrite !app_nil_r. repeat split; auto.
  - destruct (length v =? Entry.dim entry)%nat eqn:Hw; simpl.
    + apply Nat.eqb_eq in Hw.
      destruct (IH {| Entry.dim := Entry.dim entry;
                      Entry.index := Entry.index entry ++ [v];
                      Entry.ids := Entry.ids entry ++ [pid];
                      Entry.vectors := Entry.vectors entry |}
                   (vectors ++ [v]))
        as (n & Hn & Hdim & Hindex & Hids & Hvec & Hall & Hr).
      simpl in *. exists (S n). split; [lia|]. split; [exact Hdim|].
      split; [rewrite Hindex; simpl; now rewrite <- app_assoc|].
      split; [rewrite Hids; simpl; now rewrite <- app_assoc|].
      split; [exact Hvec|]. split; [simpl; now constructor|].
      destruct (FaissService.append_rows rows _ _).1 as [vs|e].
      * destruct Hr as [-> ->]. split; [reflexivity|].
        now rewrite <- app_assoc.
      * exact Hr.
    + apply Nat.eqb_neq in Hw.
      exists 0%nat. rewrite !app_nil_r. split; [lia|].
      repeat split; auto. exists v. auto.
Qed.

Lemma get_or_create_spec self event_id (dim : nat) :
  let out := FaissService._get_or_create_index self event_id dim in
  FaissService.event_indices out.2 !! event_id = Some out.1
  ∧ FaissService.initialized out.2 = FaissService.initialized self
  ∧ (∀ ev, ev ≠ event_id ->
       FaissService.event_indices out.2 !! ev
       = FaissService.event_indices self !! ev)
  ∧ match FaissService.event_indices self !! event_id with
    | Some entry => out.1 = entry ∧ out.2 = self
    | None => out.1 = {| Entry.dim := dim; Entry.index := [];
                         Entry.ids := []; Entry.vectors := [] |}
    end.
Proof.
  unfold FaissService._get_or_create_index.
  destruct (FaissService.event_indices self !! event_id) as [entry|] eqn:He;
    simpl.
  - auto.
  - split; [apply lookup_insert_eq|]. split; [reflexivity|].
    split; [|reflexivity]. intros ev Hne. now apply lookup_insert_ne.
Qed.

(** [ingest], step by step, once the rows to add are known. *)
Lemma ingest_rows self self1 event_id photo_id image_url embedding rows :
  ensure_initialized self = Ret self1 ->
  FaissService.rows_to_add linalg_norm compute_embeddings_from_url
    photo_id image_url embedding = Ret (Some rows) ->
  let got := FaissService._get_or_create_index self1 event_id
               (length (hd [] (map fst rows))) in
  let app := FaissService.append_rows rows got.1 (Entry.vectors got.1) in
  ingest self event_id photo_id image_url embedding
  = match app.1 with
    | Raise e =>
        (Raise e,
         {| FaissService.initialized := FaissService.initialized got.2;
            FaissService.event_indices :=
              <[event_id := app.2]> (FaissService.event_indices got.2) |})
    | Ret vectors =>
        (Ret true,
         {| FaissService.initialized := FaissService.initialized got.2;
            FaissService.event_indices :=
              <[event_id := {| Entry.dim := Entry.dim app.2;
                               Entry.index := Entry.index app.2;
                               Entry.ids := Entry.ids app.2;
                               Entry.vectors := vectors |}]>
                (FaissService.event_indices got.2) |})
    end.
Proof.
  intros Hinit Hrows. unfold FaissService.ingest. rewrite Hinit, Hrows.
  cbv zeta.
  destruct (FaissService._get_or_create_index self1 event_id _) as [entry self2].
  simpl.
  destruct (FaissService.append_rows rows entry (Entry.vectors entry))
    as [[vs|e] entry']; reflexivity.
Qed.

(** When [ingest] stops before it touches the index, the service is the
    one it was given, initialised if that was done. *)
Lemma ingest_early self event_id photo_id image_url embedding :
  (∃ e, ensure_initialized self = Raise e)
  ∨ (∃ self1, ensure_initialized self = Ret self1
       ∧ ∀ rows, FaissService.rows_to_add linalg_norm
                   compute_embeddings_from_url photo_id image_url embedding
                 ≠ Ret (Some rows)) ->
  FaissService.event_indices
    (ingest self event_id photo_id image_url embedding).2
  = FaissService.event_indices self.
Proof.
  unfold FaissService.ingest. intros [(e & ->)|(self1 & Hinit & Hrows)].
  - reflexivity.
  - rewrite Hinit.
    destruct (ensure_initialized_indices _ _ _ Hinit) as [Heq _].
    destruct (FaissService.rows_to_add _ _ _ _ _) as [[rows|]|e];
      [destruct (Hrows rows eq_refl)|exact Heq..].
Qed.

Lemma ingest_cases self event_id photo_id image_url embedding :
  (FaissService.event_indices
     (ingest self event_id photo_id image_url embedding).2
   = FaissService.event_indices self)
  ∨ ∃ self1 rows,
      ensure_initialized self = Ret self1
      ∧ FaissService.rows_to_add linalg_norm compute_embeddings_from_url
          photo_id image_url embedding = Ret (Some rows).
Proof.
  destruct (ensure_initialized self) as [self1|e] eqn:Hinit.
  - destruct (FaissService.rows_to_add linalg_norm compute_embeddings_from_url
                photo_id image_url embedding) as [[rows|]|e] eqn:Hrows.
    + right. eauto.
    + left. apply ingest_early. right. exists self1. split; [exact Hinit|].
      intros rows. rewrite Hrows. discriminate.
    + left. apply ingest_early. right. exists self1. split; [exact Hinit|].
      intros rows. rewrite Hrows. discriminate.
  - left. apply ingest_early. left. eauto.
Qed.

(** The scope after an [ingest] that reached the index: the entry it had,
    or a new one, with a prefix of the rows appended. *)
Lemma ingest_entry self self1 event_id photo_id image_url embedding rows :
  ensure_initialized self = Ret self1 ->
  FaissService.rows_to_add linalg_norm compute_embeddings_from_url
    photo_id image_url embedding = Ret (Some rows) ->
  let out := ingest self event_id photo_id image_url embedding in
  let before :=
    default {| Entry.dim := length (hd [] (map fst rows)); Entry.index := [];
               Entry.ids := []; Entry.vectors := [] |}
            (FaissService.event_indices self !! event_id) in
  (∀ ev, ev ≠ event_id ->
     FaissService.event_indices out.2 !! ev
     = FaissService.event_indices self !! ev)
  ∧ FaissService.initialized out.2 = true
  ∧ ∃ after n,
      FaissService.event_indices out.2 !! event_id = Some after
      ∧ (n <= length rows)%nat
      ∧ Entry.dim after = Entry.dim before
      ∧ Entry.index after = Entry.index before ++ take n (map fst rows)
      ∧ Entry.ids after = Entry.ids before ++ take n (map snd rows)
      ∧ Forall (fun v => length v = Entry.dim before) (take n (map fst rows))
      ∧ match out.1 with
        | Ret b =>
            b = true ∧ n = length rows
            ∧ Entry.vectors after = Entry.vectors before ++ map fst rows
        | Raise e =>
            e = ValueError
            ∧ Entry.vectors after = Entry.vectors before
            ∧ ∃ v, map fst rows !! n = Some v
                   ∧ length v ≠ Entry.dim before
        end.
Proof.
  intros Hinit Hrows. cbv zeta.
  rewrite (ingest_rows _ _ _ _ _ _ _ Hinit Hrows). cbv zeta.
  destruct (ensure_initialized_indices _ _ _ Hinit) as [Heq Hready].
  destruct (get_or_create_spec self1 event_id (length (hd [] (map fst rows))))
    as (Hnew & Hi & Hother & Hgot).
  rewrite Heq in Hgot.
  set (got := FaissService._get_or_create_index self1 event_id _) in *.
  assert (Hbefore :
            got.1 = default {| Entry.dim := length (hd [] (map fst rows));
                               Entry.index := []; Entry.ids := [];
                               Entry.vectors := [] |}
                            (FaissService.event_indices self !! event_id)).
  { destruct (FaissService.event_indices self !! event_id); simpl;
      [apply Hgot|exact Hgot]. }
  rewrite <- Hbefore.
  destruct (append_rows_spec rows got.1 (Entry.vectors got.1))
    as (n & Hn & Hdim & Hindex & Hids & Hvec & Hall & Hr).
  cbv zeta in *.
  destruct (FaissService.append_rows rows got.1 (Entry.vectors got.1))
    as [[vs|e] entry']; simpl in *.
  - split.
    { intros ev Hne. rewrite lookup_insert_ne by congruence.
      rewrite Hother by exact Hne. now rewrite Heq. }
    split; [congruence|]. destruct Hr as [-> ->].
    eexists _, (length rows). split; [apply lookup_insert_eq|]. simpl.
    repeat split; auto.
  - split.
    { intros ev Hne. rewrite lookup_insert_ne by congruence.
      rewrite Hother by exact Hne. now rewrite Heq. }
    split; [congruence|]. destruct Hr as [-> Hv].
    exists entry', n. split; [apply lookup_insert_eq|].
    repeat split; auto.
Qed.

Local Abbreviation rows_to_add :=
  (FaissService.rows_to_add linalg_norm compute_embeddings_from_url).
Local Abbreviation face_id := FaissService.face_id.
Local Abbreviation rows_of := FaissService.rows_of.
Local Abbreviation vectors_of := FaissService.vectors_of.

Lemma imap_rows {A : Type} (g : nat -> string) (vecs : list A) :
  map fst (imap (fun i v => (v, g i)) vecs) = vecs.
Proof.
  revert g. induction vecs as [|v vecs IH]; intros g; [reflexivity|].
  rewrite imap_cons. cbn [map fst]. f_equal. apply (IH (g ∘ S)).
Qed.

Lemma rows_to_add_faces photo_id image_url rows :
  rows_to_add photo_id image_url None = Ret (Some rows) ->
  ∃ url vecs, image_url = Some url
    ∧ compute_embeddings_from_url url = Ret (Some vecs)
    ∧ map fst rows = vecs
    ∧ map snd rows = map (face_id photo_id) (seq 0 (length vecs)).
Proof.
  unfold FaissService.rows_to_add.
  destruct image_url as [[|c url]|]; try discriminate.
  destruct (compute_embeddings_from_url (String c url)) as [[[|v vecs]|]|e]
    eqn:Hc; simpl; try discriminate.
  intros [= <-]. exists (String c url), (v :: vecs).
  split; [reflexivity|]. split; [assumption|]. split.
  - apply (imap_rows (face_id photo_id) (v :: vecs)).
  - apply (imap_labels (face_id photo_id) (v :: vecs)).
Qed.

(** What a call that returns True or False leaves: with True, every row
    to add is appended to the identifiers, to the index and to the
    matrix of the scope; with False, nothing changes. *)
Lemma ingest_appends_rows self event_id photo_id image_url embedding :
  let out := ingest self event_id photo_id image_url embedding in
  (out.1 = Ret true ->
   ∃ rows, rows_to_add photo_id image_url embedding = Ret (Some rows)
     ∧ ids_of out.2 event_id = ids_of self event_id ++ map snd rows
     ∧ rows_of out.2 event_id = rows_of self event_id ++ map fst rows
     ∧ vectors_of out.2 event_id = vectors_of self event_id ++ map fst rows)
  ∧ (out.1 = Ret false ->
     FaissService.event_indices out.2 = FaissService.event_indices self).
Proof.
  cbv zeta.
  destruct (ensure_initialized self) as [self1|e] eqn:Hinit.
  2:{ unfold FaissService.ingest. rewrite Hinit. split; discriminate. }
  destruct (rows_to_add photo_id image_url embedding) as [[rows|]|e] eqn:Hrows.
  - destruct (ingest_entry _ _ event_id _ _ _ _ Hinit Hrows)
      as (_ & _ & after & n & Hafter & _ & _ & Hindex & Hids & _ & Hr).
    cbv zeta in *.
    assert (Hbefore :
              Entry.ids (default {| Entry.dim := length (hd [] (map fst rows));
                                    Entry.index := []; Entry.ids := [];
                                    Entry.vectors := [] |}
                                 (FaissService.event_indices self !! event_id))
              = ids_of self event_id
              ∧ Entry.index (default {| Entry.dim := length (hd [] (map fst rows));
                                        Entry.index := []; Entry.ids := [];
                                        Entry.vectors := [] |}
                                     (FaissService.event_indices self !! event_id))
                = rows_of self event_id
              ∧ Entry.vectors (default {| Entry.dim := length (hd [] (map fst rows));
                                          Entry.index := []; Entry.ids := [];
                                          Entry.vectors := [] |}
                                       (FaissService.event_indices self !! event_id))
                = vectors_of self event_id).
    { unfold FaissService.ids_of, FaissService.rows_of,
        FaissService.vectors_of.
      now destruct (FaissService.event_indices self !! event_id). }
    destruct Hbefore as (Hb1 & Hb2 & Hb3). rewrite Hb1 in Hids.
    rewrite Hb2 in Hindex. rewrite Hb3 in Hr.
    destruct (ingest self event_id photo_id image_url embedding).1
      as [[|]|e]; (split; [|discriminate || (intros _; now destruct Hr)]);
      try discriminate.
    intros _. destruct Hr as (_ & -> & Hvec). exists rows.
    split; [reflexivity|].
    unfold FaissService.ids_of at 1, FaissService.rows_of at 1,
      FaissService.vectors_of at 1. rewrite Hafter.
    rewrite Hids, Hindex, Hvec.
    rewrite !firstn_all2 by (rewrite length_map; lia). auto.
  - unfold FaissService.ingest. rewrite Hinit, Hrows. simpl.
    split; [discriminate|]. intros _.
    now destruct (ensure_initialized_indices _ _ _ Hinit).
  - unfold FaissService.ingest. rewrite Hinit, Hrows. split; discriminate.
Qed.

(** An entry that had its rows and identifiers in pairs has them so
    after the same number of rows of its width and of identifiers were
    appended. *)
Lemma aligned_after before after (n : nat) rows :
  aligned before ->
  Entry.dim after = Entry.dim before ->
  Entry.index after = Entry.index before ++ take n (map fst rows) ->
  Entry.ids after = Entry.ids before ++ take n (map snd rows) ->
  Forall (fun v => length v = Entry.dim before) (take n (map fst rows)) ->
  aligned after.
Proof.
  intros [Hlen Hrowsw] Hdim Hindex Hids Hall. split.
  - rewrite Hindex, Hids, !length_app, !length_take, !length_map. lia.
  - rewrite Hindex, Hdim. apply Forall_app. auto.
Qed.

(** X10.  Whatever [ingest] does, and also when it raises half way through the
    rows, the rows of every index and its identifiers stay in pairs and
    every row has the width of its index. *)
Theorem ingest_keeps_index_aligned self event_id photo_id image_url embedding :
  all_aligned self ->
  all_aligned (ingest self event_id photo_id image_url embedding).2.
Proof.
  intros Hself.
  destruct (ingest_cases self event_id photo_id image_url embedding)
    as [Heq|(self1 & rows & Hinit & Hrows)].
  { intros ev entry. rewrite Heq. apply Hself. }
  destruct (ingest_entry _ _ event_id _ _ _ _ Hinit Hrows)
    as (Hother & _ & after & n & Hafter & Hn & Hdim & Hindex & Hids & Hall & _).
  cbv zeta in *.
  set (before := default _ (FaissService.event_indices self !! event_id)) in *.
  assert (Hbefore : aligned before).
  { subst before.
    destruct (FaissService.event_indices self !! event_id) as [entry|] eqn:He;
      simpl; [exact (Hself _ _ He)|]. split; [reflexivity|constructor]. }
  intros ev entry Hev. destruct (decide (ev = event_id)) as [->|Hne].
  - rewrite Hafter in Hev. injection Hev as <-.
    exact (aligned_after before after n rows Hbefore Hdim Hindex Hids Hall).
  - rewrite Hother in Hev by exact Hne. exact (Hself _ _ Hev).
Qed.

(** X11.  [ingest] only appends, and only to the scope it is given: the entries
    of the other scopes stay as they are and no other scope appears; an
    entry the scope already had keeps its width, its rows and its
    identifiers, in place, before what is added. *)
Theorem ingest_only_appends self event_id photo_id image_url embedding :
  let out := ingest self event_id photo_id image_url embedding in
  (∀ ev, ev ≠ event_id ->
     FaissService.event_indices out.2 !! ev
     = FaissService.event_indices self !! ev)
  ∧ (∀ entry,
       FaissService.event_indices self !! event_id = Some entry ->
       ∃ after,
         FaissService.event_indices out.2 !! event_id = Some after
         ∧ Entry.dim after = Entry.dim entry
         ∧ Entry.index entry `prefix_of` Entry.index after
         ∧ Entry.ids entry `prefix_of` Entry.ids after
         ∧ Entry.vectors entry `prefix_of` Entry.vectors after).
Proof.
  cbv zeta.
  destruct (ingest_cases self event_id photo_id image_url embedding)
    as [Heq|(self1 & rows & Hinit & Hrows)].
  { rewrite Heq. split; [reflexivity|]. intros entry He. exists entry.
    repeat split; auto. }
  destruct (ingest_entry _ _ event_id _ _ _ _ Hinit Hrows)
    as (Hother & _ & after & n & Hafter & Hn & Hdim & Hindex & Hids & _ & Hr).
  cbv zeta in *. split; [exact Hother|].
  intros entry He. rewrite He in *. simpl in *.
  exists after. split; [exact Hafter|]. split; [exact Hdim|].
  split; [rewrite Hindex; now apply prefix_app_r|].
  split; [rewrite Hids; now apply prefix_app_r|].
  destruct (ingest self event_id photo_id image_url embedding).1 as [b|e].
  - destruct Hr as (_ & _ & ->). now apply prefix_app_r.
  - destruct Hr as (_ & -> & _). reflexivity.
Qed.

(** X12.  [ingest] with a vector, on a service that is or can be initialised:
    the image URL plays no part; a scope that has no entry gets one of the
    width of the vector, holding the normalised vector under the photo id;
    a scope whose entry has that width gets the row and the id appended;
    a scope of another width gives ValueError and nothing changes.  It
    never returns False. *)
Theorem ingest_vector_outcome self event_id photo_id image_url (vec : list Q) :
  FaissService.initialized self = true ∨ model_available = true ->
  let out := ingest self event_id photo_id image_url (Some vec) in
  match FaissService.event_indices self !! event_id with
  | None =>
      out.1 = Ret true
      ∧ FaissService.event_indices out.2
        = <[event_id := {| Entry.dim := length vec;
                           Entry.index := [normalize vec];
                           Entry.ids := [photo_id];
                           Entry.vectors := [normalize vec] |}]>
            (FaissService.event_indices self)
  | Some entry =>
      if (length vec =? Entry.dim entry)%nat then
        out.1 = Ret true
        ∧ FaissService.event_indices out.2
          = <[event_id :=
                {| Entry.dim := Entry.dim entry;
                   Entry.index := Entry.index entry ++ [normalize vec];
                   Entry.ids := Entry.ids entry ++ [photo_id];
                   Entry.vectors := Entry.vectors entry ++ [normalize vec] |}]>
              (FaissService.event_indices self)
      else
        out.1 = Raise ValueError
        ∧ FaissService.event_indices out.2 = FaissService.event_indices self
  end.
Proof.
  intros Hready. cbv zeta.
  destruct (ensure_initialized_ready model_available self Hready)
    as (self1 & Hinit).
  destruct (ensure_initialized_indices _ _ _ Hinit) as [Heq _].
  unfold FaissService.ingest. rewrite Hinit. simpl.
  unfold FaissService._get_or_create_index. rewrite Heq.
  destruct (FaissService.event_indices self !! event_id) as [entry|] eqn:He;
    simpl; rewrite length_normalize.
  - destruct (length vec =? Entry.dim entry)%nat; simpl.
    + rewrite Heq. auto.
    + rewrite Heq. split; [reflexivity|]. now apply insert_id.
  - rewrite Nat.eqb_refl. simpl. rewrite insert_insert_eq. auto.
Qed.

Lemma length_pad {A : Type} (n : nat) (l : list (option A)) :
  length (Faiss.pad n l) = n.
Proof.
  revert l. induction n as [|n IH]; intros [|x l]; simpl; auto.
Qed.

Lemma elem_of_pad {A : Type} (n : nat) (l : list (option A)) (x : A) :
  Some x ∈ Faiss.pad n l -> Some x ∈ l.
Proof.
  revert l. induction n as [|n IH]; intros [|y l]; simpl; intros H.
  - inversion H.
  - inversion H.
  - apply elem_of_cons in H as [H|H]; [discriminate|]. now apply IH in H.
  - apply elem_of_cons in H as [->|H]; [left|right; now apply IH].
Qed.

Lemma pad_all {A : Type} (n : nat) (l : list (option A)) :
  (length l <= n)%nat -> ∀ x, x ∈ l -> x ∈ Faiss.pad n l.
Proof.
  revert l. induction n as [|n IH]; intros [|y l]; simpl; intros Hn x Hx;
    try (now inversion Hx); try lia.
  apply elem_of_cons in Hx as [->|Hx]; [left|right; apply IH; [lia|exact Hx]].
Qed.

Lemma insert_hit_perm (x : Q * nat) (l : list (Q * nat)) :
  Permutation (Faiss.insert_hit ties x l) (x :: l).
Proof.
  induction l as [|y l IH]; simpl; [reflexivity|].
  destruct (Faiss.goes_before ties x y); [reflexivity|].
  rewrite IH. apply perm_swap.
Qed.

Lemma best_first_perm (l : list (Q * nat)) :
  Permutation (Faiss.best_first ties l) l.
Proof.
  induction l as [|x l IH]; simpl; [reflexivity|].
  now rewrite insert_hit_perm, IH.
Qed.

Lemma elem_of_best_first (x : Q * nat) (l : list (Q * nat)) :
  x ∈ Faiss.best_first ties l ↔ x ∈ l.
Proof. now rewrite best_first_perm. Qed.

(** The search of a flat index: it answers when the query has the width
    of the index and [k] is positive, with [k] slots; a slot that is
    filled names a row and carries its inner product with the query; when
    [k] covers the index, every row is in a slot. *)
Lemma search_spec (d : nat) (rows : list (list Q)) (q : list Q) (k : Z) :
  length q = d -> 0 < k ->
  ∃ hits, Faiss.search ties d rows q k = Ret hits
    ∧ length hits = Z.to_nat k
    ∧ (∀ s i, Some (s, i) ∈ hits ->
         ∃ row, rows !! i = Some row ∧ s = Faiss.inner q row)
    ∧ ((length rows <= Z.to_nat k)%nat ->
       ∀ i row, rows !! i = Some row -> Some (Faiss.inner q row, i) ∈ hits).
Proof.
  intros Hq Hk. unfold Faiss.search.
  rewrite (proj2 (Nat.eqb_eq _ _) Hq), (proj2 (Z.ltb_lt _ _) Hk). simpl.
  eexists. split; [reflexivity|]. split; [apply length_pad|]. split.
  - intros s i H. apply elem_of_pad in H.
    apply list_elem_of_In, in_map_iff in H as (x & [= ->] & H).
    apply list_elem_of_In, elem_of_best_first, elem_of_lookup_imap in H
      as (j & row & [= -> ->] & Hrow).
    eauto.
  - intros Hcover i row Hrow. apply pad_all.
    + rewrite length_map.
      rewrite (Permutation_length (best_first_perm _)), length_imap.
      exact Hcover.
    + apply list_elem_of_In, in_map, list_elem_of_In, elem_of_best_first.
      apply elem_of_lookup_imap. eauto.
Qed.

Lemma search_fails (d : nat) (rows : list (list Q)) (q : list Q) (k : Z) :
  length q ≠ d ∨ k <= 0 -> Faiss.search ties d rows q k = Raise AssertionError.
Proof.
  unfold Faiss.search. intros [Hq|Hk].
  - now rewrite (proj2 (Nat.eqb_neq _ _) Hq).
  - destruct (length q =? d)%nat; [|reflexivity]. simpl.
    now rewrite (proj2 (Z.ltb_ge _ _) Hk).
Qed.

(** The loop over the hits ends when every row number has an identifier,
    and keeps at most one result for each hit. *)
Lemma keep_hit_total ids (threshold : Q) hits acc :
  (∀ s i, Some (s, i) ∈ hits -> (i < length ids)%nat) ->
  ∃ rs, for_each (FaissService.keep_hit ids threshold) hits acc = Ret rs.
Proof.
  revert acc. induction hits as [|hit hits IH]; intros acc Hin; simpl;
    [eauto|].
  assert (Hrest : ∀ s i, Some (s, i) ∈ hits -> (i < length ids)%nat).
  { intros s i H. apply (Hin s i). now right. }
  destruct hit as [[score idx]|]; simpl; [|now apply IH].
  destruct (Qle_bool threshold score); [|now apply IH].
  destruct (lookup_lt_is_Some_2 ids idx (Hin score idx ltac:(left)))
    as (pid & ->).
  simpl. now apply IH.
Qed.

Lemma keep_hit_length ids (threshold : Q) hits acc rs :
  for_each (FaissService.keep_hit ids threshold) hits acc = Ret rs ->
  (length rs <= length acc + length hits)%nat.
Proof.
  revert acc. induction hits as [|hit hits IH]; intros acc; simpl.
  - intros [= <-]. lia.
  - destruct hit as [[score idx]|]; simpl.
    + destruct (Qle_bool threshold score).
      * destruct (ids !! idx); simpl; [|discriminate].
        intros H. apply IH in H. rewrite length_app in H. simpl in H. lia.
      * intros H. apply IH in H. lia.
    + intros H. apply IH in H. lia.
Qed.

Lemma dict_set_length g k v :
  (length (Dict.set g k v) <= S (length g))%nat.
Proof.
  induction g as [|[k' v'] g IH]; simpl; [lia|].
  destruct (decide (k = k')); simpl; lia.
Qed.

Lemma group_fold_length results acc :
  (length (fold_left FaissService.group_hit results acc)
   <= length acc + length results)%nat.
Proof.
  revert acc. induction results as [|r results IH]; intros acc; simpl; [lia|].
  etransitivity; [apply IH|]. unfold FaissService.group_hit.
  pose proof (dict_set_length acc (before_hash (Hit.id r))
                (py_max (Dict.get acc (before_hash (Hit.id r)) 0.0)
                        (Hit.score r))).
  lia.
Qed.

Lemma group_by_photo_length results :
  (length (FaissService.group_by_photo results) <= length results)%nat.
Proof.
  unfold FaissService.group_by_photo.
  rewrite (Permutation_length (sort_desc_perm _ _)), length_map.
  apply (group_fold_length results []).
Qed.

Lemma before_hash_idem (s : string) : before_hash (before_hash s) = before_hash s.
Proof.
  induction s as [|c s IH]; simpl; [reflexivity|].
  destruct (Ascii.eqb c "#") eqn:Hc; simpl; [reflexivity|].
  now rewrite Hc, IH.
Qed.

(** What [match] does on a scope that holds identifiers. *)
Lemma match_aligned self self1 event_id entry query (top_k : Z) (threshold : Q) :
  ensure_initialized self = Ret self1 ->
  FaissService.event_indices self !! event_id = Some entry ->
  Entry.ids entry ≠ [] ->
  aligned entry ->
  length query = Entry.dim entry -> 1 <= top_k ->
  ∃ hits results,
    Faiss.search ties (Entry.dim entry) (Entry.index entry) (normalize query)
      (Z.min top_k (Z.of_nat (length (Entry.ids entry)))) = Ret hits
    ∧ for_each (FaissService.keep_hit (Entry.ids entry) threshold) hits []
      = Ret results
    ∧ match_ self event_id query top_k threshold
      = (Ret (FaissService.group_by_photo results), self1).
Proof.
  intros Hinit He Hids [Hlen Hrows] Hq Hk.
  assert (Hpos : 0 < Z.min top_k (Z.of_nat (length (Entry.ids entry)))).
  { destruct (Entry.ids entry); [contradiction|]. simpl length. lia. }
  destruct (search_spec (Entry.dim entry) (Entry.index entry)
              (normalize query) _
              ltac:(rewrite length_normalize; exact Hq) Hpos)
    as (hits & Hsearch & _ & Hhits & _).
  destruct (keep_hit_total (Entry.ids entry) threshold hits [])
    as (results & Hloop).
  { intros s i H. apply Hhits in H as (row & Hrow & _).
    rewrite <- Hlen. now apply lookup_lt_Some in Hrow. }
  exists hits, results. split; [exact Hsearch|]. split; [exact Hloop|].
  rewrite (match_known _ _ _ _ _ _ _ _ _ _ Hinit He Hids).
  rewrite Hsearch. simpl. rewrite Hloop. reflexivity.
Qed.

(** X13.  On a scope that holds identifiers and whose rows and identifiers go
    in pairs, [match] returns when the query has the width of the index
    and [top_k] is at least 1, and raises AssertionError otherwise: it
    never fails on a row number the search gives. *)
Theorem match_answers_well_formed_queries self event_id entry query
    (top_k : Z) (threshold : Q) :
  FaissService.initialized self = true ∨ model_available = true ->
  FaissService.event_indices self !! event_id = Some entry ->
  Entry.ids entry ≠ [] ->
  aligned entry ->
  let out := match_ self event_id query top_k threshold in
  (length query = Entry.dim entry ∧ 1 <= top_k -> ∃ res, out.1 = Ret res)
  ∧ (length query ≠ Entry.dim entry ∨ top_k <= 0 ->
     out.1 = Raise AssertionError).
Proof.
  intros Hready He Hids Hal. cbv zeta.
  destruct (ensure_initialized_ready model_available self Hready)
    as (self1 & Hinit).
  split.
  - intros [Hq Hk].
    destruct (match_aligned _ _ _ _ query top_k threshold Hinit He Hids Hal Hq Hk)
      as (hits & results & _ & _ & ->). eauto.
  - intros Hbad.
    rewrite (match_known _ _ _ _ _ _ _ _ _ _ Hinit He Hids).
    rewrite search_fails; [reflexivity|].
    rewrite length_normalize. destruct Hbad as [Hq|Hk]; [now left|right; lia].
Qed.

(** X14.  What [match] returns is never longer than [top_k] nor than the number
    of identifiers of the scope; every id it reports is the part before
    ['#'] of an identifier of the scope, and holds no ['#'] itself; and
    [match] leaves every index as it found it. *)
Theorem match_result_bounded self event_id query (top_k : Z) (threshold : Q)
    res self' :
  match_ self event_id query top_k threshold = (Ret res, self') ->
  Z.of_nat (length res) <= Z.max 0 top_k
  ∧ (length res <= length (ids_of self event_id))%nat
  ∧ (∀ h, h ∈ res ->
       (∃ pid, pid ∈ ids_of self event_id ∧ Hit.id h = before_hash pid)
       ∧ before_hash (Hit.id h) = Hit.id h)
  ∧ FaissService.event_indices self' = FaissService.event_indices self.
Proof.
  intros Hm.
  destruct (ensure_initialized self) as [self1|e] eqn:Hinit;
    [|unfold FaissService.match_ in Hm; rewrite Hinit in Hm; discriminate].
  destruct (ensure_initialized_indices _ _ _ Hinit) as [Heq _].
  assert (Hnil : res = [] -> self' = self1 ->
            Z.of_nat (length res) <= Z.max 0 top_k
            ∧ (length res <= length (ids_of self event_id))%nat
            ∧ (∀ h, h ∈ res ->
                 (∃ pid, pid ∈ ids_of self event_id
                         ∧ Hit.id h = before_hash pid)
                 ∧ before_hash (Hit.id h) = Hit.id h)
            ∧ FaissService.event_indices self' = FaissService.event_indices self).
  { intros -> ->. simpl. split; [lia|]. split; [lia|]. split; [|exact Heq].
    intros h H. inversion H. }
  destruct (FaissService.event_indices self !! event_id) as [entry|] eqn:He.
  2:{ unfold FaissService.match_ in Hm. rewrite Hinit, Heq, He in Hm.
      injection Hm as <- <-. now apply Hnil. }
  destruct (decide (Entry.ids entry = [])) as [Hids|Hids].
  { unfold FaissService.match_ in Hm. rewrite Hinit, Heq, He, Hids in Hm.
    injection Hm as <- <-. now apply Hnil. }
  clear Hnil.
  rewrite (match_known _ _ _ _ _ _ _ _ _ _ Hinit He Hids) in Hm.
  set (k := Z.min top_k (Z.of_nat (length (Entry.ids entry)))) in *.
  destruct (Faiss.search _ _ _ _ k) as [hits|e] eqn:Hsearch; [|discriminate].
  simpl in Hm.
  destruct (for_each _ hits []) as [results|e] eqn:Hloop; [|discriminate].
  simpl in Hm. injection Hm as <- <-.
  assert (Hk : 0 < k ∧ length hits = Z.to_nat k).
  { unfold Faiss.search in Hsearch.
    destruct (negb (length (normalize query) =? Entry.dim entry)%nat);
      [discriminate|].
    destruct (0 <? k) eqn:Hpos; [|discriminate]. simpl in Hsearch.
    injection Hsearch as <-. split; [now apply Z.ltb_lt|apply length_pad]. }
  destruct Hk as [Hpos Hlen].
  pose proof (keep_hit_length _ _ _ _ _ Hloop) as Hres. simpl in Hres.
  pose proof (group_by_photo_length results) as Hgroup.
  assert (Hids_of : ids_of self event_id = Entry.ids entry).
  { unfold FaissService.ids_of. now rewrite He. }
  rewrite Hids_of.
  split; [subst k; lia|]. split; [subst k; lia|]. split; [|exact Heq].
  intros h Hh.
  destruct (group_by_photo_spec results) as (_ & _ & Hbase & _).
  assert (Hid : Hit.id h ∈ map Hit.id (FaissService.group_by_photo results)).
  { apply list_elem_of_In, in_map, list_elem_of_In, Hh. }
  apply Hbase in Hid as (r & Hr & Hb).
  destruct (for_each_keep_hit _ _ _ _ _ Hloop) as (new & Hnew & Hin).
  simpl in Hnew. subst new.
  apply Hin in Hr as (idx & _ & _ & Hpid).
  split.
  - exists (Hit.id r). split; [|now rewrite Hb].
    now apply list_elem_of_lookup_2 in Hpid.
  - rewrite <- Hb. apply before_hash_idem.
Qed.

(** X15.  Round trip: after [ingest] has stored a vector under a photo id,
    [match] on that scope, asked for at least as many results as the scope
    has identifiers, finds the photo for every query of the same width
    whose inner product with the stored row reaches the threshold, and
    reports it with a score of at least that inner product. *)
Theorem ingest_then_match_finds self self1 event_id photo_id image_url
    (vec query : list Q) (top_k : Z) (threshold : Q) :
  all_aligned self ->
  ingest self event_id photo_id image_url (Some vec) = (Ret true, self1) ->
  length query = length vec ->
  Z.of_nat (length (ids_of self1 event_id)) <= top_k ->
  (threshold <= Faiss.inner (normalize query) (normalize vec))%Q ->
  ∃ res self2 h,
    match_ self1 event_id query top_k threshold = (Ret res, self2)
    ∧ h ∈ res
    ∧ Hit.id h = before_hash photo_id
    ∧ (Faiss.inner (normalize query) (normalize vec) <= Hit.score h)%Q.
Proof.
  intros Hal Hing Hq Htop Hthr.
  destruct (ensure_initialized self) as [self0|e] eqn:Hinit;
    [|unfold FaissService.ingest in Hing; rewrite Hinit in Hing; discriminate].
  destruct (ingest_entry self self0 event_id photo_id image_url (Some vec)
              [(normalize vec, photo_id)] Hinit eq_refl)
    as (_ & Hready & after & n & Hafter & Hn & Hdim & Hindex & Hids & Hall & Hr).
  cbv zeta in *. rewrite Hing in *. simpl in Hafter, Hready, Hr.
  destruct Hr as (_ & -> & _). simpl in Hindex, Hids, Hall, Hdim.
  set (before := default _ (FaissService.event_indices self !! event_id)) in *.
  assert (Hw : length vec = Entry.dim after).
  { apply Forall_inv in Hall. rewrite length_normalize in Hall. congruence. }
  assert (Hbefore_al : aligned before).
  { subst before.
    destruct (FaissService.event_indices self !! event_id) as [entry|] eqn:He;
      simpl; [exact (Hal _ _ He)|]. split; [reflexivity|constructor]. }
  pose proof (proj1 Hbefore_al) as Hbefore.
  assert (Hafter_al : aligned after).
  { split.
    - rewrite Hindex, Hids, !length_app. simpl. lia.
    - rewrite Hindex, Hdim. apply Forall_app. split; [apply Hbefore_al|exact Hall]. }
  assert (Hne : Entry.ids after ≠ []).
  { rewrite Hids. now destruct (Entry.ids before). }
  assert (Hids_of : ids_of self1 event_id = Entry.ids after).
  { unfold FaissService.ids_of. now rewrite Hafter. }
  rewrite Hids_of in Htop.
  assert (Hk : 1 <= top_k).
  { destruct (Entry.ids after); [contradiction|]. simpl length in Htop. lia. }
  assert (Hinit1 : ensure_initialized self1 = Ret self1).
  { unfold FaissService.ensure_initialized. now rewrite Hready. }
  destruct (match_aligned self1 self1 event_id after query top_k threshold
              Hinit1 Hafter Hne Hafter_al
              ltac:(congruence) Hk)
    as (hits & results & Hsearch & Hloop & Hm).
  destruct (search_spec (Entry.dim after) (Entry.index after)
              (normalize query)
              (Z.min top_k (Z.of_nat (length (Entry.ids after))))
              ltac:(rewrite length_normalize; congruence)
              ltac:(destruct (Entry.ids after);
                    [contradiction|simpl length; lia]))
    as (hits' & Hsearch' & _ & _ & Hcover).
  rewrite Hsearch in Hsearch'. injection Hsearch' as <-.
  assert (Hhit : Some (Faiss.inner (normalize query) (normalize vec),
                       length (Entry.index before)) ∈ hits).
  { apply Hcover.
    - destruct Hafter_al as [-> _]. lia.
    - rewrite Hindex. now apply list_lookup_middle. }
  destruct (for_each_keep_hit _ _ _ _ _ Hloop) as (new & Hnew & Hin).
  simpl in Hnew. subst new.
  set (r := {| Hit.id := photo_id;
               Hit.score := Faiss.inner (normalize query) (normalize vec) |}).
  assert (Hr : r ∈ results).
  { apply Hin. exists (length (Entry.index before)). simpl.
    split; [exact Hhit|]. split; [exact Hthr|].
    rewrite Hids, Hbefore. now apply list_lookup_middle. }
  destruct (group_by_photo_spec results) as (_ & _ & Hbase & Hscore).
  assert (Hid : before_hash photo_id
                ∈ map Hit.id (FaissService.group_by_photo results)).
  { apply Hbase. exists r. auto. }
  apply list_elem_of_In, in_map_iff in Hid as (h & Hh & Hhin).
  apply list_elem_of_In in Hhin.
  exists (FaissService.group_by_photo results), self1, h.
  split; [exact Hm|]. split; [exact Hhin|]. split; [exact Hh|].
  destruct (Hscore h Hhin) as (_ & Hub & _).
  apply (Hub r Hr). now rewrite Hh.
Qed.

End IndexMore.

(** ** What [ingest] stores *)

Section IngestScheme.
Variable linalg_norm : list Q -> Q.
Variable model_available : bool.
Variable compute_embeddings_from_url : string -> Res (option (list (list Q))).
Variable Image : Type.
Variable _download_image : string -> Res (option Image).
Variable app_get : Image -> Res (list Face.t).
Implicit Types (self : FaissService.t) (entry : Entry.t)
         (rows : list (list Q * string)) (event_id photo_id : string).

Local Abbreviation normalize := (FaissService.normalize linalg_norm).
Local Abbreviation rows_to_add :=
  (FaissService.rows_to_add linalg_norm compute_embeddings_from_url).
Local Abbreviation ingest :=
  (FaissService.ingest linalg_norm model_available compute_embeddings_from_url).
Local Abbreviation ids_of := FaissService.ids_of.
Local Abbreviation rows_of := FaissService.rows_of.
Local Abbreviation vectors_of := FaissService.vectors_of.
Local Abbreviation face_id := FaissService.face_id.
(** [self.compute_embeddings_from_url], called by [ingest] on the service
    it has initialised. *)
Local Abbreviation embeddings_of_faces self :=
  (fun url =>
     (Embedding.compute_embeddings_from_url linalg_norm model_available Image
        _download_image app_get
        {| FaissService.initialized := true;
           FaissService.event_indices := FaissService.event_indices self |}
        url).1).

(** C7.  When the descriptors come from the image URL, the identifiers
    stored are the photo id followed by ['#'] and the number of the face,
    from 0, one for each face the extraction gave when [ingest] returns
    True.  When a vector is supplied, the identifier stored is the photo
    id itself.  In both cases the identifiers the scope already held stay
    where they were and the new ones come after them.  The rows follow
    the identifiers: a call that returns True appends to the index and
    to the matrix of the scope one row for each identifier it appends,
    the vectors the extraction gave or the normalised vector supplied,
    after the rows the scope held, so two successful calls for one photo
    id leave two more rows and replace none; a call that returns False
    changes no index.  With the extraction of the service itself, which
    gives the normalised vector of every face the analysis detects, the
    rows appended are these vectors, one for each detected face, in the
    order of the faces. *)
Theorem ingest_identifier_scheme self event_id photo_id image_url :
  (∀ i, face_id photo_id i = photo_id +:+ "#" +:+ str_of_nat i)
  ∧ (let out := ingest self event_id photo_id image_url None in
     ∃ n, ids_of out.2 event_id
          = ids_of self event_id ++ map (face_id photo_id) (seq 0 n)
       ∧ (out.1 = Ret true ->
          ∃ url vecs, image_url = Some url
            ∧ compute_embeddings_from_url url = Ret (Some vecs)
            ∧ n = length vecs ∧ (0 < n)%nat))
  ∧ (∀ embedding,
       let out := ingest self event_id photo_id image_url (Some embedding) in
       ids_of out.2 event_id
       = ids_of self event_id
         ++ match out.1 with Ret true => [photo_id] | _ => [] end)
  ∧ (∀ embedding,
       let out := ingest self event_id photo_id image_url embedding in
       ids_of self event_id `prefix_of` ids_of out.2 event_id
       ∧ (out.1 = Ret true ->
          (length (ids_of self event_id) < length (ids_of out.2 event_id))%nat))
  ∧ (∀ e1 e2 url2,
       let out1 := ingest self event_id photo_id image_url (Some e1) in
       let out2 := ingest out1.2 event_id photo_id url2 (Some e2) in
       out1.1 = Ret true -> out2.1 = Ret true ->
       ids_of out2.2 event_id = ids_of self event_id ++ [photo_id; photo_id]
       ∧ rows_of out2.2 event_id
         = rows_of self event_id ++ [normalize e1; normalize e2]
       ∧ vectors_of out2.2 event_id
         = vectors_of self event_id ++ [normalize e1; normalize e2])
  ∧ (let out := ingest self event_id photo_id image_url None in
     out.1 = Ret true ->
     ∃ url vecs, image_url = Some url
       ∧ compute_embeddings_from_url url = Ret (Some vecs)
       ∧ ids_of out.2 event_id
         = ids_of self event_id
           ++ map (face_id photo_id) (seq 0 (length vecs))
       ∧ rows_of out.2 event_id = rows_of self event_id ++ vecs
       ∧ vectors_of out.2 event_id = vectors_of self event_id ++ vecs)
  ∧ (∀ embedding,
       let out := ingest self event_id photo_id image_url (Some embedding) in
       out.1 = Ret true ->
       rows_of out.2 event_id = rows_of self event_id ++ [normalize embedding]
       ∧ vectors_of out.2 event_id
         = vectors_of self event_id ++ [normalize embedding])
  ∧ (∀ embedding,
       let out := ingest self event_id photo_id image_url embedding in
       out.1 = Ret false ->
       FaissService.event_indices out.2 = FaissService.event_indices self)
  ∧ (let out := FaissService.ingest linalg_norm model_available
                  (embeddings_of_faces self) self event_id photo_id
                  image_url None in
     out.1 = Ret true ->
     ∃ url img faces, image_url = Some url
       ∧ _download_image url = Ret (Some img)
       ∧ app_get img = Ret faces
       ∧ ids_of out.2 event_id
         = ids_of self event_id
           ++ map (face_id photo_id) (seq 0 (length faces))
       ∧ rows_of out.2 event_id
         = rows_of self event_id
           ++ map (Embedding.unit_vector linalg_norm) faces
       ∧ vectors_of out.2 event_id
         = vectors_of self event_id
           ++ map (Embedding.unit_vector linalg_norm) faces).
Proof.
  assert (Hvec : ∀ s url e,
    let out := ingest s event_id photo_id url (Some e) in
    ids_of out.2 event_id
    = ids_of s event_id ++ match out.1 with Ret true => [photo_id] | _ => [] end).
  { intros s url e out.
    destruct (ingest_ids linalg_norm model_available compute_embeddings_from_url
                s event_id photo_id url (Some e))
      as (_ & Hrows & _ & Hfalse).
    fold out in Hrows, Hfalse. simpl in Hrows, Hfalse.
    destruct Hrows as (n & Hn & Hids & Hres). simpl in Hn.
    rewrite Hids. f_equal.
    destruct out.1 as [[|]|err] eqn:Hout.
    - now rewrite Hres.
    - now specialize (Hfalse eq_refl).
    - destruct Hres as [->|Hlt]; [reflexivity|].
      assert (n = 0%nat) as -> by lia. reflexivity. }
  assert (Hurl :
    let out := ingest self event_id photo_id image_url None in
    ∃ n, ids_of out.2 event_id
         = ids_of self event_id ++ map (face_id photo_id) (seq 0 n)
      ∧ (out.1 = Ret true ->
         ∃ url vecs, image_url = Some url
           ∧ compute_embeddings_from_url url = Ret (Some vecs)
           ∧ n = length vecs ∧ (0 < n)%nat)).
  { intros out.
    destruct (ingest_ids linalg_norm model_available
                compute_embeddings_from_url self event_id photo_id image_url None)
      as (_ & Hrows & Hok & _).
    fold out in Hrows, Hok.
    destruct (rows_to_add photo_id image_url None) as [[rows|]|e] eqn:Hr.
    + destruct (rows_to_add_url linalg_norm compute_embeddings_from_url _ _ _ Hr) as (url & vecs & -> & Hc & Hne & Hlab).
      destruct Hrows as (n & Hn & Hids & Hres).
      assert (Hlen : length rows = length vecs).
      { rewrite <- (length_map snd rows), Hlab, length_map. apply length_seq. }
      exists (n `min` length vecs)%nat. split.
      * rewrite Hids, Hlab. f_equal.
        rewrite firstn_map, take_seq. reflexivity.
      * intros Hout. rewrite Hout in Hres. exists url, vecs.
        repeat split; [assumption|lia|].
        destruct vecs; [contradiction|simpl in *; lia].
    + exists 0%nat. rewrite app_nil_r. split; [assumption|].
      intros Hout. destruct (Hok Hout) as [rows [=]].
    + exists 0%nat. rewrite app_nil_r. split; [assumption|].
      intros Hout. destruct (Hok Hout) as [rows [=]]. }
  assert (Hnew : ∀ s url e,
    let out := ingest s event_id photo_id url (Some e) in
    out.1 = Ret true ->
    rows_of out.2 event_id = rows_of s event_id ++ [normalize e]
    ∧ vectors_of out.2 event_id = vectors_of s event_id ++ [normalize e]).
  { intros s url e out Hout.
    destruct (ingest_appends_rows linalg_norm model_available
                compute_embeddings_from_url s event_id photo_id url (Some e)) as [Ht _].
    destruct (Ht Hout) as (rows & Hr & _ & Hi & Hv).
    injection Hr as <-. exact (conj Hi Hv). }
  split; [reflexivity|]. split; [exact Hurl|].
  split; [intros embedding; apply Hvec|].
  split; [|split; [|split; [|split; [|split]]]].
  - intros [e|] out.
    + pose proof (Hvec self image_url e) as He. cbv zeta in He. fold out in He.
      rewrite He. split; [now eexists|].
      intros ->. rewrite length_app. simpl. lia.
    + cbv zeta in Hurl. fold out in Hurl.
      destruct Hurl as (n & -> & Hok). split; [now eexists|].
      intros Hout. destruct (Hok Hout) as (url & vecs & _ & _ & _ & Hn).
      rewrite length_app, length_map, length_seq. lia.
  - intros e1 e2 url2 out1 out2 H1 H2.
    pose proof (Hvec self image_url e1) as Ha.
    pose proof (Hvec out1.2 url2 e2) as Hb.
    cbv zeta in Ha, Hb. fold out1 in Ha. fold out2 in Hb.
    rewrite H2 in Hb. rewrite H1 in Ha.
    destruct (Hnew self image_url e1 H1) as [Ha1 Ha2].
    destruct (Hnew out1.2 url2 e2 H2) as [Hb1 Hb2].
    fold out1 in Ha1, Ha2, Hb1, Hb2. fold out2 in Hb1, Hb2.
    rewrite Hb, Ha, Hb1, Ha1, Hb2, Ha2, <- !app_assoc. auto.
  - intros out Hout.
    destruct (ingest_appends_rows linalg_norm model_available
                compute_embeddings_from_url self event_id photo_id image_url None)
      as [Ht _].
    destruct (Ht Hout) as (rows & Hr & Hids & Hi & Hv).
    destruct (rows_to_add_faces linalg_norm compute_embeddings_from_url _ _ _ Hr) as (url & vecs & -> & Hc & Hf & Hs).
    exists url, vecs. rewrite Hf in Hi, Hv. rewrite Hs in Hids. auto.
  - intros embedding out. apply Hnew.
  - intros embedding out Hout.
    destruct (ingest_appends_rows linalg_norm model_available
                compute_embeddings_from_url self event_id photo_id image_url
                embedding)
      as [_ Hf].
    exact (Hf Hout).
  - intros out Hout.
    destruct (ingest_appends_rows linalg_norm model_available
                (embeddings_of_faces self) self event_id photo_id image_url
                None) as [Ht _].
    destruct (Ht Hout) as (rows & Hr & Hids & Hi & Hv).
    destruct (rows_to_add_faces linalg_norm (embeddings_of_faces self)
                _ _ _ Hr) as (url & vecs & -> & Hc & Hf & Hs).
    unfold Embedding.compute_embeddings_from_url,
      FaissService.ensure_initialized in Hc. simpl in Hc.
    destruct (_download_image url) as [[img|]|e] eqn:Himg; simpl in Hc;
      try discriminate.
    destruct (app_get img) as [[|f faces]|e] eqn:Hfaces; simpl in Hc;
      try discriminate.
    injection Hc as <-. exists url, img, (f :: faces).
    rewrite Hf in Hi, Hv. rewrite Hs in Hids. cbn [length] in Hids.
    rewrite length_map in Hids. repeat split; assumption.
Qed.

End IngestScheme.

(** ** Detection *)

Section DetectMore.
Variable Image : Type.
Variable face_locations : Image -> nat -> string -> Res (list Faces.box).

Local Abbreviation attempt := Detection.attempt.
Local Abbreviation multi_scale := (Detection.multi_scale Image face_locations).
Local Abbreviation detect :=
  (Detection._detect_faces_multiple_methods Image face_locations).

Lemma remove_duplicates_spec (l : list Faces.box) :
  let out := Faces._remove_duplicate_faces l in
  sublist out l ∧ Faces.separated out ∧ head out = head l.
Proof.
  cbv zeta. rewrite remove_duplicate_faces_fold.
  destruct (fold_keep_face l []) as (rest & Heq & Hsub & Hsep).
  simpl in Heq. split; [now rewrite Heq|].
  split; [rewrite Heq; apply (Hsep separated_nil)|].
  destruct l as [|face l]; [reflexivity|]. simpl.
  destruct (fold_keep_face l (Faces.keep_face [] face)) as (rest' & -> & _).
  reflexivity.
Qed.

(** X16.  The multi-scale loop gives the locations of the first level that
    finds any, provided no level before it raised; otherwise it gives
    nothing: an exception at one level hides the levels after it. *)
Theorem multi_scale_first_level (image_rgb : Image) (upsamples : list nat)
    (locations : list Faces.box) :
  locations ≠ [] ->
  (attempt (multi_scale image_rgb upsamples) = locations
   ↔ ∃ before upsample after,
       upsamples = before ++ upsample :: after
       ∧ (∀ u, u ∈ before -> face_locations image_rgb u "hog" = Ret [])
       ∧ face_locations image_rgb upsample "hog" = Ret locations).
Proof.
  intros Hne. induction upsamples as [|u upsamples IH]; simpl.
  - split; [intros H; now symmetry in H|].
    intros (before & upsample & after & H & _). now destruct before.
  - destruct (face_locations image_rgb u "hog") as [[|face found]|e] eqn:Hu;
      simpl.
    + rewrite IH. split.
      * intros (before & upsample & after & -> & Hbefore & Hfound).
        exists (u :: before), upsample, after. split; [reflexivity|].
        split; [|exact Hfound].
        intros v Hv. apply elem_of_cons in Hv as [->|Hv]; auto.
      * intros (before & upsample & after & Heq & Hbefore & Hfound).
        destruct before as [|v before]; simpl in Heq.
        -- injection Heq as <- <-. rewrite Hu in Hfound.
           injection Hfound as <-. contradiction.
        -- injection Heq as <- ->. exists before, upsample, after.
           split; [reflexivity|]. split; [|exact Hfound].
           intros w Hw. apply Hbefore. now right.
    + split.
      * intros <-. exists [], u, upsamples. split; [reflexivity|].
        split; [|exact Hu]. intros v Hv. inversion Hv.
      * intros (before & upsample & after & Heq & Hbefore & Hfound).
        destruct before as [|v before]; simpl in Heq.
        -- injection Heq as <- <-. rewrite Hu in Hfound. now injection Hfound.
        -- injection Heq as <- ->.
           rewrite (Hbefore u) in Hu by left. discriminate.
    + split; [intros H; now symmetry in H|].
      intros (before & upsample & after & Heq & Hbefore & Hfound).
      destruct before as [|v before]; simpl in Heq.
      * injection Heq as <- <-. rewrite Hu in Hfound. discriminate.
      * injection Heq as <- ->. rewrite (Hbefore u) in Hu by left.
        discriminate.
Qed.

(** X17.  The faces detected come from one stage, the first of the configured
    model, the other model and the multi-scale loop that finds any: they
    are a subsequence of what that stage found, starting with its first
    face, and no face kept overlaps a face kept before it; nothing is
    detected exactly when the three stages find nothing or raise. *)
Theorem detect_faces_from_one_stage (face_detection_model : string)
    (image_rgb : Image) :
  let out := detect face_detection_model image_rgb in
  let stages :=
    [ attempt (face_locations image_rgb 1 face_detection_model);
      attempt (face_locations image_rgb 1
                 (Detection.fallback_model face_detection_model));
      attempt (multi_scale image_rgb [0; 1; 2]%nat) ] in
  (∃ before found after,
      stages = before ++ found :: after
      ∧ (∀ s, s ∈ before -> s = [])
      ∧ out = Faces._remove_duplicate_faces found
      ∧ sublist out found ∧ head out = head found)
  ∧ Faces.separated out
  ∧ (out = [] ↔ ∀ s, s ∈ stages -> s = []).
Proof.
  cbv zeta. unfold Detection._detect_faces_multiple_methods.
  set (primary := attempt (face_locations image_rgb 1 face_detection_model)).
  set (fallback := attempt (face_locations image_rgb 1 _)).
  set (scaled := attempt (multi_scale image_rgb _)).
  assert (Hdedup : ∀ l : list Faces.box,
            (if (1 <? length l)%nat then Faces._remove_duplicate_faces l else l)
            = Faces._remove_duplicate_faces l).
  { intros [|a [|b l]]; reflexivity. }
  rewrite Hdedup. clearbody primary fallback scaled.
  assert (Hspec : ∀ found : list Faces.box,
            sublist (Faces._remove_duplicate_faces found) found
            ∧ head (Faces._remove_duplicate_faces found) = head found
            ∧ Faces.separated (Faces._remove_duplicate_faces found)
            ∧ (Faces._remove_duplicate_faces found = [] ↔ found = [])).
  { intros found.
    destruct (remove_duplicates_spec found) as (Hsub & Hsep & Hhead).
    cbv zeta in *. repeat split; auto; [|now intros ->].
    intros H. rewrite H in Hhead. now destruct found. }
  assert (Hin3 : ∀ (P : list Faces.box -> Prop) a b c,
            (∀ s, s ∈ [a; b; c] -> P s) ↔ P a ∧ P b ∧ P c).
  { intros P a b c. split.
    - intros H. repeat split; apply H; repeat constructor.
    - intros (Ha & Hb & Hc) s Hs.
      repeat (apply elem_of_cons in Hs as [->|Hs]; [assumption|]).
      inversion Hs. }
  rewrite Hin3.
  destruct primary as [|p primary]; simpl.
  - destruct fallback as [|f fallback]; simpl.
    + destruct (Hspec scaled) as (Hsub & Hhead & Hsep & Hnil).
      split; [|split; [exact Hsep|]].
      * exists [[]; []], scaled, []. split; [reflexivity|].
        split; [|auto]. intros s Hs.
        repeat (apply elem_of_cons in Hs as [->|Hs]; [reflexivity|]).
        inversion Hs.
      * rewrite Hnil. tauto.
    + destruct (Hspec (f :: fallback)) as (Hsub & Hhead & Hsep & Hnil).
      split; [|split; [exact Hsep|]].
      * exists [[]], (f :: fallback), [scaled]. split; [reflexivity|].
        split; [|auto]. intros s Hs.
        apply elem_of_cons in Hs as [->|Hs]; [reflexivity|]. inversion Hs.
      * rewrite Hnil. split; [discriminate|]. intros (_ & H & _). discriminate.
  - destruct (Hspec (p :: primary)) as (Hsub & Hhead & Hsep & Hnil).
    split; [|split; [exact Hsep|]].
    + exists [], (p :: primary), [fallback; scaled]. split; [reflexivity|].
      split; [|auto]. intros s Hs. inversion Hs.
    + rewrite Hnil. split; [discriminate|]. intros (H & _). discriminate.
Qed.

End DetectMore.

(** ** Extraction of descriptors *)

Section ArgMax.
Import Extraction.

Lemma argmax_from_spec (l pre : list Z) (best_idx : nat) (best : Z) :
  (best_idx < length pre)%nat ->
  pre !! best_idx = Some best ->
  (∀ j x, pre !! j = Some x -> x <= best ∧ ((j < best_idx)%nat -> x < best)) ->
  Selection.first_largest Z.le Z.lt (pre ++ l)
    (argmax_from best_idx best (length pre) l).
Proof.
  revert pre best_idx best. induction l as [|x l IH];
    intros pre best_idx best Hlt Hbest Hpre; simpl.
  - rewrite app_nil_r. exists best. auto.
  - replace (pre ++ x :: l) with ((pre ++ [x]) ++ l)
      by now rewrite <- app_assoc.
    replace (S (length pre)) with (length (pre ++ [x]))
      by (rewrite length_app; simpl; lia).
    destruct (best <? x) eqn:Hx.
    + apply Z.ltb_lt in Hx. apply IH.
      * rewrite length_app. simpl. lia.
      * now apply list_lookup_middle.
      * intros j y Hy. destruct (decide (j < length pre)%nat) as [Hj|Hj].
        -- rewrite lookup_app_l in Hy by exact Hj.
           destruct (Hpre j y Hy) as [Hle _]. split; [lia|]. intros _. lia.
        -- apply lookup_lt_Some in Hy as Hj'. rewrite length_app in Hj'.
           simpl in Hj'. assert (j = length pre) as -> by lia.
           rewrite list_lookup_middle in Hy by reflexivity.
           injection Hy as <-. split; [lia|]. intros H. lia.
    + apply Z.ltb_ge in Hx. apply IH.
      * rewrite length_app. simpl. lia.
      * rewrite lookup_app_l by exact Hlt. exact Hbest.
      * intros j y Hy. destruct (decide (j < length pre)%nat) as [Hj|Hj].
        -- rewrite lookup_app_l in Hy by exact Hj. now apply Hpre.
        -- apply lookup_lt_Some in Hy as Hj'. rewrite length_app in Hj'.
           simpl in Hj'. assert (j = length pre) as -> by lia.
           rewrite list_lookup_middle in Hy by reflexivity.
           injection Hy as <-. split; [lia|]. intros H. lia.
Qed.

Lemma argmax_spec (l : list Z) :
  l ≠ [] ->
  ∃ idx, argmax l = Ret idx ∧ Selection.first_largest Z.le Z.lt l idx.
Proof.
  destruct l as [|x l]; [contradiction|]. intros _. simpl.
  eexists. split; [reflexivity|].
  apply (argmax_from_spec l [x] 0 x); [simpl; lia|reflexivity|].
  intros [|j] y Hy; simpl in Hy; [|now rewrite lookup_nil in Hy].
  injection Hy as <-. split; [lia|]. intros H. lia.
Qed.

Lemma first_largest_unique (l : list Z) (i j : nat) :
  Selection.first_largest Z.le Z.lt l i ->
  Selection.first_largest Z.le Z.lt l j -> i = j.
Proof.
  intros (a & Ha & Hia) (b & Hb & Hjb).
  destruct (Hia j b Hb) as [Hle1 Hlt1]. destruct (Hjb i a Ha) as [Hle2 Hlt2].
  destruct (Nat.lt_trichotomy i j) as [H|[H|H]]; [|exact H|].
  - specialize (Hlt2 H). lia.
  - specialize (Hlt1 H). lia.
Qed.
End ArgMax.

Section ExtractMore.
Import Extraction.
Variable Image : Type.
Variable face_locations : Image -> nat -> string -> Res (list Faces.box).
Variable Input : Type.
Variable load_image : Input -> option Image.
Variable face_encodings : Image -> list Faces.box -> Res (list (list Q)).
Variable face_detection_model : string.

Local Abbreviation detect :=
  (Detection._detect_faces_multiple_methods Image face_locations
     face_detection_model).
Local Abbreviation get_face_descriptor :=
  (Extraction.get_face_descriptor Image face_locations Input load_image
     face_encodings face_detection_model).

Lemma select_encoding_spec (locations : list Faces.box)
    (encodings : list (list Q)) (d : list Q) :
  locations ≠ [] ->
  (select_encoding locations encodings = Ret d
   ↔ ∃ idx, Selection.first_largest Z.le Z.lt (map face_size locations) idx
            ∧ encodings !! idx = Some d).
Proof.
  intros Hne. unfold select_encoding.
  destruct (argmax_spec (map face_size locations)) as (idx & Harg & Hidx);
    [now destruct locations|].
  assert (Hone : (1 <? length locations)%nat = false -> idx = 0%nat).
  { intros H. apply Nat.ltb_ge in H.
    destruct Hidx as (best & Hbest & _). apply lookup_lt_Some in Hbest.
    rewrite length_map in Hbest. lia. }
  destruct (1 <? length locations)%nat.
  - rewrite Harg. simpl. split.
    + destruct (encodings !! idx) as [e|] eqn:He; [|discriminate].
      intros [= <-]. eauto.
    + intros (i & Hi & He).
      rewrite (first_largest_unique _ _ _ Hidx Hi), He. reflexivity.
  - rewrite Hone in Hidx by reflexivity. split.
    + destruct (encodings !! 0%nat) as [e|] eqn:He; [|discriminate].
      intros [= <-]. eauto.
    + intros (i & Hi & He).
      rewrite <- (first_largest_unique _ _ _ Hidx Hi) in He.
      now rewrite He.
Qed.

(** X18.  [get_face_descriptor] returns a descriptor exactly when the service
    is initialised, the image loads, a face is detected and the encoder
    gives an encoding at the position of the largest face, the first of
    the largest when several have that size; the descriptor is that
    encoding.  It fails with the plain message exactly when the service
    is not initialised. *)
Theorem get_face_descriptor_largest_face (self : FaceService.t)
    (image_input : Input) (d : list Q) :
  (get_face_descriptor self image_input = descriptor d
   ↔ FaceService.initialized self = true
     ∧ ∃ image_rgb encodings idx,
         load_image image_input = Some image_rgb
         ∧ face_encodings image_rgb (detect image_rgb) = Ret encodings
         ∧ Selection.first_largest Z.le Z.lt
             (map face_size (detect image_rgb)) idx
         ∧ encodings !! idx = Some d)
  ∧ (get_face_descriptor self image_input = failed service_not_initialized
     ↔ FaceService.initialized self = false).
Proof.
  unfold Extraction.get_face_descriptor.
  destruct (FaceService.initialized self); simpl.
  2:{ split; [|tauto]. split; [discriminate|]. intros [H _]. discriminate. }
  split.
  2:{ split; [|discriminate].
      destruct (load_image image_input) as [image_rgb|]; [|discriminate].
      destruct (length (detect image_rgb) =? 0)%nat; [discriminate|].
      destruct (face_encodings image_rgb (detect image_rgb)) as [encodings|e];
        [|discriminate].
      destruct (length encodings =? 0)%nat; [discriminate|].
      destruct (select_encoding _ _); discriminate. }
  destruct (load_image image_input) as [image_rgb|] eqn:Hload.
  2:{ split; [discriminate|]. intros (_ & ? & ? & ? & H & _). discriminate. }
  destruct (length (detect image_rgb) =? 0)%nat eqn:Hlocs.
  { split; [discriminate|].
    intros (_ & image' & encodings & idx & [= <-] & _ & (b & Hb & _) & _).
    apply lookup_lt_Some in Hb. rewrite length_map in Hb.
    apply Nat.eqb_eq in Hlocs. lia. }
  assert (Hne : detect image_rgb ≠ []).
  { intros H. rewrite H in Hlocs. discriminate. }
  destruct (face_encodings image_rgb (detect image_rgb)) as [encodings|e]
    eqn:Henc.
  2:{ split; [discriminate|].
      intros (_ & image' & encodings & idx & [= <-] & H & _).
      rewrite Henc in H. discriminate. }
  destruct (length encodings =? 0)%nat eqn:Hencs.
  { split; [discriminate|].
    intros (_ & image' & encodings' & idx & [= <-] & H & _ & He).
    rewrite Henc in H. injection H as <-.
    apply lookup_lt_Some in He. apply Nat.eqb_eq in Hencs. lia. }
  pose proof (select_encoding_spec (detect image_rgb) encodings d Hne) as Hsel.
  destruct (select_encoding (detect image_rgb) encodings) as [d'|e] eqn:Hs.
  - split.
    + intros [= ->]. split; [reflexivity|].
      destruct (proj1 Hsel eq_refl) as (idx & Hidx & He).
      exists image_rgb, encodings, idx. auto.
    + intros (_ & image' & encodings' & idx & [= <-] & H & Hidx & He).
      rewrite Henc in H. injection H as <-.
      assert (Ret d' = Ret d) as [= ->] by (apply Hsel; eauto).
      reflexivity.
  - split; [discriminate|].
    intros (_ & image' & encodings' & idx & [= <-] & H & Hidx & He).
    rewrite Henc in H. injection H as <-.
    assert (@Raise (list Q) e = Ret d) by (apply Hsel; eauto). discriminate.
Qed.

End ExtractMore.

(** ** Descriptors by address, through the cache *)

Section CacheSteps.
Implicit Types (cache : LRUCache.t (list (list Q))) (url : string).

Lemma set_stores {V : Type} (c c' : LRUCache.t V) now key (value : V) :
  LRUCache.set now key value c = Ret c' ->
  LRUCache.store c' !! key = Some (now, value)
  ∧ ∀ k tv, LRUCache.store c' !! k = Some tv ->
      k = key ∧ tv = (now, value) ∨ LRUCache.store c !! k = Some tv.
Proof.
  unfold LRUCache.set.
  assert (Hins : ∀ (m m' : gmap string (Q * V)) l,
            (∀ k tv, m' !! k = Some tv -> m !! k = Some tv) ->
            let c1 := {| LRUCache.capacity := LRUCache.capacity c;
                         LRUCache.ttl := LRUCache.ttl c;
                         LRUCache.store := <[key := (now, value)]> m';
                         LRUCache.order := l |} in
            LRUCache.store c1 !! key = Some (now, value)
            ∧ ∀ k tv, LRUCache.store c1 !! k = Some tv ->
                k = key ∧ tv = (now, value) ∨ m !! k = Some tv).
  { intros m m' l Hsub. simpl. split; [apply lookup_insert_eq|].
    intros k tv Hk. apply lookup_insert_Some in Hk as [[<- <-]|[_ Hk]]; auto. }
  destruct (LRUCache.store c !! key) as [tv0|].
  - destruct (bool_decide _); simpl; [|discriminate].
    intros [= <-]. now apply Hins.
  - destruct (_ >=? _); [destruct (LRUCache.order c) as [|evict rest]|]; simpl;
      try discriminate; intros [= <-]; apply Hins; auto.
    intros k tv Hk. now apply lookup_delete_Some in Hk as [_ Hk].
Qed.

Lemma get_spec {V : Type} (c : LRUCache.t V) now key :
  let out := LRUCache.get now key c in
  LRUCache.ttl out.2 = LRUCache.ttl c
  ∧ (∀ k, k ≠ key -> LRUCache.store out.2 !! k = LRUCache.store c !! k)
  ∧ match out.1 with
    | Some value =>
        ∃ ts, LRUCache.store c !! key = Some (ts, value)
              ∧ (now - ts <= LRUCache.ttl c)%Q
              ∧ LRUCache.store out.2 = LRUCache.store c
    | None =>
        LRUCache.store out.2 !! key = None
        ∧ ∀ ts value, LRUCache.store c !! key = Some (ts, value) ->
            ¬ (now - ts <= LRUCache.ttl c)%Q
    end.
Proof.
  unfold LRUCache.get.
  destruct (LRUCache.store c !! key) as [[ts value]|] eqn:Hs.
  - destruct (Qle_bool (now - ts) (LRUCache.ttl c)) eqn:Hfresh; simpl.
    + apply Qle_bool_iff in Hfresh. split; [reflexivity|].
      split; [reflexivity|]. exists ts. auto.
    + split; [reflexivity|].
      split; [intros k Hk; now apply lookup_delete_ne|].
      split; [apply lookup_delete_eq|].
      intros ts' value' [= <- <-] Hle. apply Qle_bool_iff in Hle. congruence.
  - simpl. split; [reflexivity|]. split; [reflexivity|].
    split; [exact Hs|]. intros ts value H. discriminate.
Qed.

Lemma get_hit {V : Type} (c : LRUCache.t V) now key ts (value : V) :
  LRUCache.store c !! key = Some (ts, value) ->
  (now - ts <= LRUCache.ttl c)%Q ->
  (LRUCache.get now key c).1 = Some value.
Proof.
  intros Hs Hle. unfold LRUCache.get. rewrite Hs.
  apply Qle_bool_iff in Hle. now rewrite Hle.
Qed.

End CacheSteps.

Section CachedDescriptors.
Implicit Types (cache : LRUCache.t (list (list Q))) (url : string).
Variable Image : Type.
Variable face_locations : Image -> nat -> string -> Res (list Faces.box).
Variable load_image_from_url : string -> option Image.
Variable face_encodings : Image -> list Faces.box -> Res (list (list Q)).
Variable face_detection_model : string.

Local Abbreviation get_face_descriptors_from_url :=
  (Extraction.get_face_descriptors_from_url Image face_locations
     load_image_from_url face_encodings face_detection_model).

(** The ways [get_face_descriptors_from_url] ends. *)
Lemma descriptors_cases now_get now_set url cache :
  let got := LRUCache.get now_get url cache in
  let out := get_face_descriptors_from_url now_get now_set url cache in
  (∃ cached, got.1 = Some cached ∧ out = (Some cached, got.2))
  ∨ (got.1 = None ∧ out = (None, got.2))
  ∨ (got.1 = None
     ∧ ∃ encodings_list cache1,
         encodings_list ≠ []
         ∧ LRUCache.set now_set url encodings_list got.2 = Ret cache1
         ∧ out = (Some encodings_list, cache1)).
Proof.
  cbv zeta. unfold Extraction.get_face_descriptors_from_url.
  destruct (LRUCache.get now_get url cache) as [[cached|] cache0]; simpl;
    [left; eauto|].
  destruct (load_image_from_url url) as [image_rgb|]; [|auto].
  destruct (length _ =? 0)%nat; [auto|].
  destruct (face_encodings image_rgb _) as [[|e encodings]|]; simpl; [auto| |auto].
  destruct (LRUCache.set now_set url (e :: encodings) cache0) as [cache1|]
    eqn:Hset; [|auto].
  right. right. split; [reflexivity|].
  exists (e :: encodings), cache1. auto.
Qed.

(** X19.  A result that is not [None] is in the cache afterwards, under the
    address, with the time it was stored; a [None] is not remembered:
    the address has no entry afterwards, and the entries of the other
    addresses are untouched. *)
Theorem descriptors_cached_exactly_when_found now_get now_set url cache :
  let out := get_face_descriptors_from_url now_get now_set url cache in
  match out.1 with
  | Some descriptors =>
      ∃ stamp, LRUCache.store out.2 !! url = Some (stamp, descriptors)
        ∧ (stamp = now_set
           ∨ LRUCache.store cache !! url = Some (stamp, descriptors)
             ∧ (now_get - stamp <= LRUCache.ttl cache)%Q)
  | None =>
      LRUCache.store out.2 !! url = None
      ∧ ∀ k, k ≠ url ->
          LRUCache.store out.2 !! k = LRUCache.store cache !! k
  end
  ∧ LRUCache.ttl out.2 = LRUCache.ttl cache.
Proof.
  cbv zeta.
  destruct (get_spec cache now_get url) as (Httl & Hother & Hgot).
  cbv zeta in *.
  destruct (descriptors_cases now_get now_set url cache)
    as [(cached & Hc & ->)|[(Hc & ->)|(Hc & encs & cache1 & Hne & Hset & ->)]];
    rewrite Hc in Hgot; simpl.
  - destruct Hgot as (ts & Hs & Hfresh & Hstore). split; [|exact Httl].
    exists ts. rewrite Hstore. auto.
  - destruct Hgot as (Hnone & _). auto.
  - destruct (set_stores _ _ _ _ _ Hset) as (Hs & _).
    destruct (set_capacity _ _ _ _ _ Hset) as (_ & Httl').
    split; [eauto|congruence].
Qed.

(** X20.  The cache holds lists of descriptors that are not empty, and the
    function keeps it so; on such a cache the result is never an
    empty list. *)
Theorem descriptors_never_empty now_get now_set url cache :
  (∀ k ts v, LRUCache.store cache !! k = Some (ts, v) -> v ≠ []) ->
  let out := get_face_descriptors_from_url now_get now_set url cache in
  out.1 ≠ Some []
  ∧ ∀ k ts v, LRUCache.store out.2 !! k = Some (ts, v) -> v ≠ [].
Proof.
  intros Hinv. cbv zeta.
  destruct (get_spec cache now_get url) as (_ & Hother & Hgot).
  cbv zeta in *.
  assert (Hinv0 : ∀ k ts v,
            LRUCache.store (LRUCache.get now_get url cache).2 !! k
            = Some (ts, v) -> v ≠ []).
  { intros k ts v Hk. destruct (decide (k = url)) as [->|Hne].
    - destruct (LRUCache.get now_get url cache).1.
      + destruct Hgot as (_ & _ & _ & Hstore). rewrite Hstore in Hk. eauto.
      + destruct Hgot as (Hnone & _). congruence.
    - rewrite Hother in Hk by exact Hne. eauto. }
  destruct (descriptors_cases now_get now_set url cache)
    as [(cached & Hc & ->)|[(Hc & ->)|(Hc & encs & cache1 & Hne & Hset & ->)]];
    rewrite Hc in Hgot; simpl.
  - split; [|exact Hinv0]. destruct Hgot as (ts & Hs & _).
    intros [= ->]. now apply (Hinv _ _ _ Hs).
  - split; [discriminate|exact Hinv0].
  - split; [congruence|]. intros k ts v Hk.
    destruct (set_stores _ _ _ _ _ Hset) as (_ & Hold).
    destruct (Hold _ _ Hk) as [[_ [= _ ->]]|Hk']; [exact Hne|eauto].
Qed.

End CachedDescriptors.

Section CacheRoundTrip.

Lemma set_keeps {V : Type} (c c' : LRUCache.t V) now key (value : V) k e :
  LRUCache.set now key value c = Ret c' ->
  k ≠ key ->
  LRUCache.store c !! k = Some e ->
  Z.of_nat (length (LRUCache.order c)) < LRUCache.capacity c
  ∨ head (LRUCache.order c) ≠ Some k ->
  LRUCache.store c' !! k = Some e.
Proof.
  unfold LRUCache.set. intros Hset Hne Hk Hroom.
  destruct (LRUCache.store c !! key) as [tv0|].
  - destruct (bool_decide _); simpl in Hset; [|discriminate].
    injection Hset as <-. simpl. now rewrite lookup_insert_ne by congruence.
  - destruct (_ >=? _) eqn:Hfull.
    + destruct (LRUCache.order c) as [|evict rest] eqn:Horder;
        simpl in Hset; [discriminate|].
      injection Hset as <-. simpl.
      rewrite lookup_insert_ne by congruence.
      rewrite lookup_delete_ne; [exact Hk|].
      intros ->. destruct Hroom as [Hroom|Hhead]; [|now apply Hhead].
      apply Z.geb_le in Hfull. lia.
    + simpl in Hset. injection Hset as <-. simpl.
      now rewrite lookup_insert_ne by congruence.
Qed.

(** After a [get] that found nothing, a cache a program can hold is the
    one it was or has room. *)
Lemma get_miss_room {V : Type} (c : LRUCache.t V) now key :
  LRUCache.built c ->
  (LRUCache.get now key c).1 = None ->
  (LRUCache.get now key c).2 = c
  ∨ Z.of_nat (length (LRUCache.order (LRUCache.get now key c).2))
    < LRUCache.capacity (LRUCache.get now key c).2.
Proof.
  intros Hb. pose proof (built_bounded c Hb) as Hbound.
  apply built_wf in Hb. pose proof (wf_listed c key Hb) as Hl.
  unfold LRUCache.get.
  destruct (LRUCache.store c !! key) as [[ts v]|] eqn:Hs; [|auto].
  destruct (Qle_bool _ _); simpl; [discriminate|]. intros _. right.
  assert (Hin : key ∈ LRUCache.order c) by (apply Hl; eauto).
  rewrite bool_decide_eq_true_2 by exact Hin.
  pose proof (length_remove_first key _ Hin) as Hlen. lia.
Qed.

(** X21.  Round trip through the cache: once an address has given
    descriptors, they are stored under the address with the time of the
    store, and a later call for the address, on any cache that still
    holds this entry and no more than its time to live after that time,
    gives the same descriptors and leaves the entries as they are,
    whatever the image, the detector and the encoder have become by
    then.  A call for another address, on a cache the program can hold,
    keeps the entry when the cache has room or when the address is not
    its least recently used key. *)
Theorem descriptors_served_from_cache
    (Image : Type)
    (face_locations : Image -> nat -> string -> Res (list Faces.box))
    (load_image_from_url : string -> option Image)
    (face_encodings : Image -> list Faces.box -> Res (list (list Q)))
    (face_detection_model : string)
    (Image' : Type)
    (face_locations' : Image' -> nat -> string -> Res (list Faces.box))
    (load_image_from_url' : string -> option Image')
    (face_encodings' : Image' -> list Faces.box -> Res (list (list Q)))
    (face_detection_model' : string)
    now_get now_set url cache descriptors cache1 :
  Extraction.get_face_descriptors_from_url Image face_locations
    load_image_from_url face_encodings face_detection_model
    now_get now_set url cache = (Some descriptors, cache1) ->
  ∃ stamp,
    LRUCache.store cache1 !! url = Some (stamp, descriptors)
    ∧ LRUCache.ttl cache1 = LRUCache.ttl cache
    ∧ (LRUCache.built cache -> LRUCache.built cache1)
    ∧ (∀ cache2 now_get' now_set',
         LRUCache.store cache2 !! url = Some (stamp, descriptors) ->
         (now_get' - stamp <= LRUCache.ttl cache2)%Q ->
         let out := Extraction.get_face_descriptors_from_url Image'
                      face_locations' load_image_from_url' face_encodings'
                      face_detection_model' now_get' now_set' url cache2 in
         out.1 = Some descriptors
         ∧ LRUCache.store out.2 = LRUCache.store cache2
         ∧ LRUCache.ttl out.2 = LRUCache.ttl cache2
         ∧ (LRUCache.built cache2 -> LRUCache.built out.2))
    ∧ (∀ cache2 now_get' now_set' url',
         url' ≠ url ->
         LRUCache.built cache2 ->
         LRUCache.store cache2 !! url = Some (stamp, descriptors) ->
         Z.of_nat (length (LRUCache.order cache2)) < LRUCache.capacity cache2
         ∨ head (LRUCache.order cache2) ≠ Some url ->
         let out := Extraction.get_face_descriptors_from_url Image'
                      face_locations' load_image_from_url' face_encodings'
                      face_detection_model' now_get' now_set' url' cache2 in
         LRUCache.store out.2 !! url = Some (stamp, descriptors)
         ∧ LRUCache.ttl out.2 = LRUCache.ttl cache2
         ∧ LRUCache.built out.2).
Proof.
  intros Hcall.
  assert (Hstored : ∃ stamp,
            LRUCache.store cache1 !! url = Some (stamp, descriptors)
            ∧ LRUCache.ttl cache1 = LRUCache.ttl cache
            ∧ (LRUCache.built cache -> LRUCache.built cache1)).
  { destruct (get_spec cache now_get url) as (Httl & _ & Hgot).
    cbv zeta in *.
    destruct (descriptors_cases Image face_locations load_image_from_url
                face_encodings face_detection_model now_get now_set url cache)
      as [(cached & Hc & Heq)|[(Hc & Heq)|(Hc & encs & c1 & Hne & Hset & Heq)]];
      cbv zeta in *; rewrite Hcall in Heq; rewrite Hc in Hgot.
    - injection Heq as -> ->. destruct Hgot as (ts & Hs & _ & Hstore).
      exists ts. rewrite Hstore.
      split; [exact Hs|]. split; [exact Httl|]. apply LRUCache.built_get.
    - discriminate.
    - injection Heq as -> ->.
      destruct (set_stores _ _ _ _ _ Hset) as (Hs & _).
      destruct (set_capacity _ _ _ _ _ Hset) as (_ & Httl').
      exists now_set. split; [exact Hs|]. split; [congruence|].
      intros Hb. eapply LRUCache.built_set; [|exact Hset].
      now apply LRUCache.built_get. }
  destruct Hstored as (stamp & Hs & Httl & Hbuilt). exists stamp.
  split; [exact Hs|]. split; [exact Httl|]. split; [exact Hbuilt|]. split.
  - intros cache2 now_get' now_set' Hs2 Hfresh. cbv zeta.
    unfold Extraction.get_face_descriptors_from_url.
    pose proof (get_hit cache2 now_get' url stamp descriptors Hs2 Hfresh)
      as Hhit.
    destruct (get_spec cache2 now_get' url) as (Httl2 & _ & Hgot).
    cbv zeta in Hgot. rewrite Hhit in Hgot.
    destruct Hgot as (ts & _ & _ & Hstore).
    pose proof (LRUCache.built_get now_get' url cache2) as Hb.
    destruct (LRUCache.get now_get' url cache2) as [cached cache3].
    simpl in *. rewrite Hhit. simpl. auto.
  - intros cache2 now_get' now_set' url' Hne Hb Hs2 Hroom. cbv zeta.
    destruct (get_spec cache2 now_get' url') as (Httl2 & Hother & _).
    cbv zeta in *.
    pose proof (Hother url ltac:(congruence)) as Hkept. rewrite Hs2 in Hkept.
    pose proof (get_miss_room cache2 now_get' url' Hb) as Hmiss.
    pose proof (LRUCache.built_get now_get' url' cache2 Hb) as Hb3.
    destruct (descriptors_cases Image' face_locations' load_image_from_url'
                face_encodings' face_detection_model' now_get' now_set' url'
                cache2)
      as [(cached & Hc & ->)|[(Hc & ->)|(Hc & encs & c1 & _ & Hset & ->)]];
      cbv zeta in *; simpl; [auto|auto|].
    destruct (set_capacity _ _ _ _ _ Hset) as (_ & Httl').
    split; [|split; [congruence|eapply LRUCache.built_set; eassumption]].
    apply (set_keeps _ _ _ _ _ _ _ Hset); [congruence|exact Hkept|].
    destruct (Hmiss Hc) as [Heq|Hlt]; [now rewrite Heq|now left].
Qed.

End CacheRoundTrip.

(** ** The address an image is fetched from *)

Section UrlMore.
Import Url.

Lemma app_cons (c : ascii) (a s : string) :
  String c a +:+ s = String c (a +:+ s).
Proof. reflexivity. Qed.

Lemma contains_step (sub : string) (c : ascii) (s : string) :
  contains sub (String c s)
  = if String.prefix sub (String c s) then true else contains sub s.
Proof. reflexivity. Qed.

Lemma contains_cons (sub : string) (c : ascii) (s : string) :
  contains sub s = true -> contains sub (String c s) = true.
Proof.
  intros H. rewrite contains_step, H.
  now destruct (String.prefix sub (String c s)).
Qed.

Lemma prefix_app (sub a s : string) :
  String.prefix sub a = true -> String.prefix sub (a +:+ s) = true.
Proof.
  revert a. induction sub as [|c sub IH]; intros a.
  - intros _. now destruct (a +:+ s).
  - destruct a as [|d a]; [discriminate|]. rewrite app_cons. simpl.
    destruct (ascii_dec c d); [apply IH|discriminate].
Qed.

Lemma contains_app_l (sub a s : string) :
  sub ≠ EmptyString ->
  contains sub a = true -> contains sub (a +:+ s) = true.
Proof.
  intros Hsub. induction a as [|c a IH].
  - destruct sub; [contradiction|discriminate].
  - rewrite contains_step, app_cons.
    destruct (String.prefix sub (String c a)) eqn:Hp.
    + intros _. rewrite contains_step, <- app_cons.
      now rewrite (prefix_app sub (String c a) s Hp).
    + intros H. apply contains_cons. now apply IH.
Qed.

(** Where [old] occurs, the result of the replacement holds [new], and
    so whatever [new] holds. *)
Lemma replace_contains (old new sub s : string) :
  sub ≠ EmptyString -> old ≠ EmptyString ->
  contains sub new = true -> contains old s = true ->
  contains sub (replace old new s) = true.
Proof.
  intros Hsub Hold Hnew. unfold replace. induction s as [|c s IH].
  - destruct old; [contradiction|discriminate].
  - rewrite contains_step. cbn [replace_from].
    destruct (String.prefix old (String c s)).
    + intros _. now apply contains_app_l.
    + intros H. apply contains_cons. now apply IH.
Qed.

(** X22.  The rewriting is done once: an address that was rewritten carries a
    width, so rewriting it again changes nothing; and every Cloudinary
    upload address is fetched with a width, its own or the one added. *)
Theorem optimized_url_idempotent (image_url : string) :
  optimized_url (optimized_url image_url) = optimized_url image_url
  ∧ (contains "res.cloudinary.com" image_url = true ->
     contains "/image/upload/" image_url = true ->
     contains "/w_" (optimized_url image_url) = true).
Proof.
  unfold optimized_url.
  destruct (contains "res.cloudinary.com" image_url) eqn:Hc; simpl.
  2:{ rewrite Hc. simpl. split; [reflexivity|discriminate]. }
  destruct (contains "/image/upload/" image_url) eqn:Hu; simpl.
  2:{ rewrite Hc, Hu. simpl. split; [reflexivity|discriminate]. }
  destruct (contains "/w_" image_url) eqn:Hw; simpl.
  { rewrite Hc, Hu, Hw. simpl. auto. }
  assert (Hnew : contains "/w_"
                   (replace "/image/upload/"
                      "/image/upload/w_640,q_75,c_limit,fl_lossy/" image_url)
                 = true).
  { apply replace_contains; [discriminate|discriminate|reflexivity|exact Hu]. }
  rewrite Hnew, andb_false_r. auto.
Qed.

End UrlMore.

(** ** The vectors of an image *)

Section EmbeddingMore.
Import Embedding.
Variable linalg_norm : list Q -> Q.
Variable model_available : bool.
Variable Image : Type.
Variable _download_image : string -> Res (option Image).
Variable app_get : Image -> Res (list Face.t).

Local Abbreviation unit_vector := (Embedding.unit_vector linalg_norm).
Local Abbreviation compute_embedding_from_url :=
  (Embedding.compute_embedding_from_url linalg_norm model_available Image
     _download_image app_get).
Local Abbreviation compute_embeddings_from_url :=
  (Embedding.compute_embeddings_from_url linalg_norm model_available Image
     _download_image app_get).

Lemma max_from_spec {A : Type} (key : A -> Q) (l pre : list A) (best : A)
    (best_idx : nat) :
  (best_idx < length pre)%nat ->
  pre !! best_idx = Some best ->
  (∀ j x, pre !! j = Some x ->
     (key x <= key best)%Q ∧ ((j < best_idx)%nat -> (key x < key best)%Q)) ->
  ∃ i, (pre ++ l) !! i = Some (max_from key best l)
    ∧ Selection.first_largest Qle Qlt (map key (pre ++ l)) i.
Proof.
  revert pre best best_idx. induction l as [|x l IH];
    intros pre best best_idx Hlt Hbest Hpre; simpl.
  - rewrite app_nil_r. exists best_idx. split; [exact Hbest|].
    exists (key best). split; [now rewrite list_lookup_fmap, Hbest|].
    intros j y Hy. rewrite list_lookup_fmap in Hy.
    destruct (pre !! j) as [x|] eqn:Hx; [|discriminate].
    injection Hy as <-. now apply Hpre.
  - replace (pre ++ x :: l) with ((pre ++ [x]) ++ l)
      by now rewrite <- app_assoc.
    destruct (Qle_bool (key x) (key best)) eqn:Hx.
    + apply Qle_bool_iff in Hx. apply (IH _ _ best_idx).
      * rewrite length_app. simpl. lia.
      * rewrite lookup_app_l by exact Hlt. exact Hbest.
      * intros j y Hy. destruct (decide (j < length pre)%nat) as [Hj|Hj].
        -- rewrite lookup_app_l in Hy by exact Hj. now apply Hpre.
        -- apply lookup_lt_Some in Hy as Hj'. rewrite length_app in Hj'.
           simpl in Hj'. assert (j = length pre) as -> by lia.
           rewrite list_lookup_middle in Hy by reflexivity.
           injection Hy as <-. split; [exact Hx|]. intros H. lia.
    + apply Qle_bool_false in Hx. apply (IH _ _ (length pre)).
      * rewrite length_app. simpl. lia.
      * now apply list_lookup_middle.
      * intros j y Hy. destruct (decide (j < length pre)%nat) as [Hj|Hj].
        -- rewrite lookup_app_l in Hy by exact Hj.
           destruct (Hpre j y Hy) as [Hle _].
           assert (key y < key x)%Q by (eapply Qle_lt_trans; eassumption).
           split; [now apply Qlt_le_weak|auto].
        -- apply lookup_lt_Some in Hy as Hj'. rewrite length_app in Hj'.
           simpl in Hj'. assert (j = length pre) as -> by lia.
           rewrite list_lookup_middle in Hy by reflexivity.
           injection Hy as <-. split; [apply Qle_refl|]. intros H. lia.
Qed.

(** X23.  The single vector [compute_embedding_from_url] gives is one of the
    vectors [compute_embeddings_from_url] gives for the same address:
    that of the face with the highest detection score, the first of
    them when several have that score.  The two functions raise and give
    [None] for the same addresses, and leave the service in the same
    state. *)
Theorem compute_embedding_takes_most_confident (self : FaissService.t)
    (image_url : string) :
  let one := compute_embedding_from_url self image_url in
  let all := compute_embeddings_from_url self image_url in
  one.2 = all.2
  ∧ match all.1 with
    | Raise e => one.1 = Raise e
    | Ret None => one.1 = Ret None
    | Ret (Some vecs) =>
        ∃ img faces i f,
          _download_image image_url = Ret (Some img)
          ∧ app_get img = Ret faces
          ∧ vecs = map unit_vector faces
          ∧ faces !! i = Some f
          ∧ Selection.first_largest Qle Qlt (map score faces) i
          ∧ one.1 = Ret (Some (unit_vector f))
          ∧ vecs !! i = Some (unit_vector f)
    end.
Proof.
  cbv zeta. unfold Embedding.compute_embedding_from_url,
    Embedding.compute_embeddings_from_url.
  destruct (FaissService.ensure_initialized model_available self)
    as [self1|e]; simpl; [|auto].
  destruct (_download_image image_url) as [[img|]|e] eqn:Himg; simpl;
    [|auto|auto].
  destruct (app_get img) as [[|f faces]|e] eqn:Hget; simpl; [auto| |auto].
  split; [reflexivity|].
  destruct (max_from_spec score faces [f] f 0) as (i & Hi & Hfirst).
  { simpl. lia. }
  { reflexivity. }
  { intros [|j] y Hy; simpl in Hy; [|now rewrite lookup_nil in Hy].
    injection Hy as <-. split; [apply Qle_refl|]. intros H. lia. }
  exists img, (f :: faces), i, (max_from score f faces).
  split; [reflexivity|]. split; [exact Hget|]. split; [reflexivity|].
  split; [exact Hi|]. split; [exact Hfirst|]. split; [reflexivity|].
  change (unit_vector f :: map unit_vector faces)
    with (map unit_vector (f :: faces)).
  rewrite list_lookup_fmap. simpl in Hi. now rewrite Hi.
Qed.

End EmbeddingMore.

(** ** The ingestion worker *)

Section WorkerMore.
Variable Backend : Type.
Variable ingest_photo : Backend -> string -> string -> string -> bool * Backend.

Local Abbreviation process_photo := (PhotoWorker.process_photo Backend ingest_photo).
Local Abbreviation process_photos := (PhotoWorker.process_photos Backend ingest_photo).
Local Abbreviation processed := (PhotoWorker.processed_photos Backend).
Implicit Types (st : Counts.t * PhotoWorker.t Backend) (photo : Item.t).

(** One round of the loop, by the case the photo is in. *)
Lemma process_photo_step st photo :
  let out := process_photo st photo in
  Counts.total out.1 = Counts.total st.1
  ∧ match ItemFacts.ready_id photo with
    | Some photo_id =>
        Item.id photo = Some photo_id
        ∧ if bool_decide (photo_id ∈ processed st.2) then
            out.2 = st.2
            ∧ Counts.success out.1 = Counts.success st.1
            ∧ Counts.failed out.1 = Counts.failed st.1
            ∧ Counts.skipped out.1 = S (Counts.skipped st.1)
          else
            Counts.skipped out.1 = Counts.skipped st.1
            ∧ ((Counts.success out.1 = S (Counts.success st.1)
                ∧ Counts.failed out.1 = Counts.failed st.1
                ∧ processed out.2 = {[ photo_id ]} ∪ processed st.2)
               ∨ (Counts.success out.1 = Counts.success st.1
                  ∧ Counts.failed out.1 = S (Counts.failed st.1)
                  ∧ processed out.2 = processed st.2))
    | None =>
        out.2 = st.2
        ∧ Counts.success out.1 = Counts.success st.1
        ∧ Counts.failed out.1 = Counts.failed st.1
        ∧ Counts.skipped out.1 = S (Counts.skipped st.1)
    end.
Proof.
  destruct st as [results self]. cbv zeta.
  unfold PhotoWorker.process_photo, ItemFacts.ready_id.
  destruct (Item.id photo) as [[|c0 s0]|]; [simpl; auto| |simpl; auto].
  destruct (py_or (Item.event_id photo) (Item.project_passcode photo))
    as [[|c1 s1]|]; [simpl; auto| |simpl; auto].
  destruct (py_or (Item.cloudinaryUrl photo) (Item.cloudinary_url photo))
    as [[|c2 s2]|]; [simpl; auto| |simpl; auto].
  cbn [fst snd].
  destruct (bool_decide (String c0 s0 ∈ processed self)); [simpl; auto 10|].
  destruct (ingest_photo _ _ _ _) as [[|] backend']; simpl; auto 10.
Qed.

Lemma process_photos_fold (photos : list Item.t) st :
  let out := fold_left process_photo photos st in
  Counts.total out.1 = Counts.total st.1
  ∧ (Counts.success st.1 <= Counts.success out.1)%nat
  ∧ (Counts.failed st.1 <= Counts.failed out.1)%nat
  ∧ (Counts.success out.1 + Counts.failed out.1 + Counts.skipped out.1
     = Counts.success st.1 + Counts.failed st.1 + Counts.skipped st.1
       + length photos)%nat
  ∧ processed st.2 ⊆ processed out.2
  ∧ (size (processed out.2)
     = size (processed st.2) + (Counts.success out.1 - Counts.success st.1))%nat
  ∧ (∀ photo_id, photo_id ∈ processed out.2 ->
       photo_id ∈ processed st.2
       ∨ ∃ photo, photo ∈ photos ∧ ItemFacts.ready_id photo = Some photo_id)
  ∧ (Counts.failed out.1 = Counts.failed st.1 ->
     ∀ photo photo_id, photo ∈ photos ->
       ItemFacts.ready_id photo = Some photo_id ->
       photo_id ∈ processed out.2).
Proof.
  revert st. induction photos as [|photo photos IH]; intros st.
  - simpl. split; [reflexivity|]. split; [lia|]. split; [lia|].
    split; [lia|]. split; [reflexivity|]. split; [lia|].
    split; [intros; now left|]. intros _ ph pid H. inversion H.
  - cbn [fold_left length].
    destruct (IH (process_photo st photo))
      as (Ht & Hs & Hf & Hsum & Hsub & Hsize & Hnew & Hall).
    destruct (process_photo_step st photo) as (Ht0 & Hstep).
    cbv zeta in *.
    set (st1 := process_photo st photo) in *.
    set (out := fold_left process_photo photos st1) in *.
    assert (Hcases :
              (processed st1.2 = processed st.2
               ∧ Counts.success st1.1 = Counts.success st.1
               ∧ (Counts.failed st.1 <= Counts.failed st1.1)%nat
               ∧ (Counts.success st1.1 + Counts.failed st1.1
                  + Counts.skipped st1.1
                  = S (Counts.success st.1 + Counts.failed st.1
                       + Counts.skipped st.1))%nat
               ∧ (Counts.failed st1.1 = Counts.failed st.1 ->
                  ∀ photo_id, ItemFacts.ready_id photo = Some photo_id ->
                    photo_id ∈ processed st.2))
              ∨ (∃ photo_id,
                   ItemFacts.ready_id photo = Some photo_id
                   ∧ (photo_id ∉ processed st.2)
                   ∧ processed st1.2 = {[ photo_id ]} ∪ processed st.2
                   ∧ Counts.success st1.1 = S (Counts.success st.1)
                   ∧ Counts.failed st1.1 = Counts.failed st.1
                   ∧ Counts.skipped st1.1 = Counts.skipped st.1)).
    { destruct (ItemFacts.ready_id photo) as [photo_id|].
      - destruct Hstep as (_ & Hstep).
        destruct (bool_decide (photo_id ∈ processed st.2)) eqn:Hin.
        + apply bool_decide_eq_true in Hin.
          destruct Hstep as (-> & -> & -> & ->). left.
          repeat split; try lia. now intros _ ? [= <-].
        + apply bool_decide_eq_false in Hin.
          destruct Hstep as (Hsk & [(H1 & H2 & H3)|(H1 & H2 & H3)]).
          * right. exists photo_id. auto 10.
          * left. rewrite H1, H2, H3, Hsk. repeat split; try lia.
      - destruct Hstep as (-> & -> & -> & ->). left.
        repeat split; try lia. discriminate. }
    destruct Hcases as [(Hp & Hs1 & Hf1 & Hsum1 & Hin1)
                       |(photo_id & Hid & Hnotin & Hp & Hs1 & Hf1 & Hk1)].
    + rewrite Hp in *. split; [congruence|]. split; [lia|]. split; [lia|].
      split; [lia|]. split; [exact Hsub|]. split; [lia|]. split.
      * intros pid Hpid. destruct (Hnew pid Hpid) as [H|(ph & Hph & Hr)];
          [now left|right]. exists ph. split; [now right|exact Hr].
      * intros Hfail ph pid Hph Hr.
        apply elem_of_cons in Hph as [->|Hph].
        -- apply Hsub. apply Hin1; [lia|exact Hr].
        -- apply (Hall ltac:(lia) ph pid Hph Hr).
    + rewrite Hp in *. split; [congruence|]. split; [lia|]. split; [lia|].
      split; [lia|]. split.
      { etransitivity; [apply union_subseteq_r|exact Hsub]. }
      split.
      * rewrite Hsize, size_union, size_singleton
          by (apply disjoint_singleton_l; exact Hnotin).
        lia.
      * split.
        -- intros pid Hpid.
           destruct (Hnew pid Hpid) as [H|(ph & Hph & Hr)].
           ++ apply elem_of_union in H as [H|H]; [|now left].
              apply elem_of_singleton in H as ->. right.
              exists photo. split; [left|exact Hid].
           ++ right. exists ph. split; [now right|exact Hr].
        -- intros Hfail ph pid Hph Hr.
           apply elem_of_cons in Hph as [->|Hph].
           ++ rewrite Hid in Hr. injection Hr as <-. apply Hsub.
              now apply elem_of_union_l, elem_of_singleton.
           ++ apply (Hall ltac:(lia) ph pid Hph Hr).
Qed.

(** X24.  Every photo of a batch is counted once, as ingested, failed or
    skipped; the set of processed ids only grows, by exactly one id for
    each photo counted as ingested, and every id it gains is that of a
    photo of the batch that has its three fields. *)
Theorem process_photos_counts (self : PhotoWorker.t Backend)
    (photos : list Item.t) :
  let out := process_photos self photos in
  Counts.total out.1 = length photos
  ∧ (Counts.success out.1 + Counts.failed out.1 + Counts.skipped out.1
     = Counts.total out.1)%nat
  ∧ processed self ⊆ processed out.2
  ∧ (size (processed out.2) = size (processed self) + Counts.success out.1)%nat
  ∧ ∀ photo_id, photo_id ∈ processed out.2 ->
      photo_id ∈ processed self
      ∨ ∃ photo, photo ∈ photos ∧ ItemFacts.ready_id photo = Some photo_id.
Proof.
  cbv zeta. unfold PhotoWorker.process_photos.
  destruct (process_photos_fold photos
              ({| Counts.total := length photos; Counts.success := 0;
                  Counts.failed := 0; Counts.skipped := 0 |}, self))
    as (Ht & _ & _ & Hsum & Hsub & Hsize & Hnew & _).
  cbv zeta in *. simpl in *.
  split; [exact Ht|]. split; [lia|]. split; [exact Hsub|].
  split; [lia|exact Hnew].
Qed.

Lemma process_photos_known (photos : list Item.t) st :
  (∀ photo photo_id, photo ∈ photos ->
     ItemFacts.ready_id photo = Some photo_id ->
     photo_id ∈ processed st.2) ->
  let out := fold_left process_photo photos st in
  out.2 = st.2
  ∧ Counts.total out.1 = Counts.total st.1
  ∧ Counts.success out.1 = Counts.success st.1
  ∧ Counts.failed out.1 = Counts.failed st.1
  ∧ Counts.skipped out.1 = (Counts.skipped st.1 + length photos)%nat.
Proof.
  revert st. induction photos as [|photo photos IH]; intros st Hknown.
  - simpl. repeat split; lia.
  - cbn [fold_left length].
    destruct (process_photo_step st photo) as (Ht0 & Hstep). cbv zeta in *.
    assert (Hskip : (process_photo st photo).2 = st.2
                    ∧ Counts.success (process_photo st photo).1
                      = Counts.success st.1
                    ∧ Counts.failed (process_photo st photo).1
                      = Counts.failed st.1
                    ∧ Counts.skipped (process_photo st photo).1
                      = S (Counts.skipped st.1)).
    { destruct (ItemFacts.ready_id photo) as [photo_id|] eqn:Hr;
        [|exact Hstep].
      destruct Hstep as (_ & Hstep).
      rewrite bool_decide_eq_true_2 in Hstep; [exact Hstep|].
      apply (Hknown photo); [left|exact Hr]. }
    destruct Hskip as (H2 & Hs & Hf & Hk).
    destruct (IH (process_photo st photo)) as (-> & -> & -> & -> & ->).
    { rewrite H2. intros ph pid Hph. apply Hknown. now right. }
    repeat split; try congruence. lia.
Qed.

(** X25.  Running a batch again after a run in which nothing failed ingests
    nothing: every photo is skipped, the backend is not called and the
    set of processed ids stays as it is. *)
Theorem process_photos_again_skips_all (self : PhotoWorker.t Backend)
    (photos : list Item.t) :
  let first := process_photos self photos in
  Counts.failed first.1 = 0%nat ->
  process_photos first.2 photos
  = ({| Counts.total := length photos; Counts.success := 0;
        Counts.failed := 0; Counts.skipped := length photos |}, first.2).
Proof.
  cbv zeta. intros Hfailed.
  destruct (process_photos_fold photos
              ({| Counts.total := length photos; Counts.success := 0;
                  Counts.failed := 0; Counts.skipped := 0 |}, self))
    as (_ & _ & _ & _ & _ & _ & _ & Hall).
  cbv zeta in Hall. specialize (Hall Hfailed).
  fold (process_photos self photos) in Hall.
  set (self1 := (process_photos self photos).2) in *.
  destruct (process_photos_known photos
              ({| Counts.total := length photos; Counts.success := 0;
                  Counts.failed := 0; Counts.skipped := 0 |}, self1))
    as (H2 & Ht & Hs & Hf & Hk); [exact Hall|].
  cbv zeta in *. unfold PhotoWorker.process_photos.
  destruct (fold_left process_photo photos _) as [[t s f k] self2].
  simpl in *. now subst.
Qed.

End WorkerMore.

(** ** Bulk ingestion *)

Section BulkMore.
Import BulkIngest.
Variable ingest_photo : nat -> string -> string -> string -> bool.

Local Abbreviation process_photo := (BulkIngest.process_photo ingest_photo).
Local Abbreviation bulk_ingest_event :=
  (BulkIngest.bulk_ingest_event ingest_photo).

(** Whether the future of position [i] gave the result [r]. *)
Local Abbreviation gave event_id photos r :=
  (fun i : nat =>
     match photos !! i with
     | Some photo => BulkFacts.same_result r (process_photo event_id i photo)
     | None => false
     end).

Lemma length_filter_perm {A : Type} (f : A -> bool) (l l' : list A) :
  Permutation l l' -> length (List.filter f l) = length (List.filter f l').
Proof.
  induction 1 as [|x l l' _ IH|x y l|l l' l'' _ IH1 _ IH2]; simpl.
  - reflexivity.
  - destruct (f x); simpl; now rewrite IH.
  - destruct (f x), (f y); reflexivity.
  - now rewrite IH1.
Qed.

Lemma bulk_fold (event_id : string) (photos : list Item.t)
    (completed : list nat) (acc : Counts.t) :
  fold_left
    (fun results i =>
       match photos !! i with
       | Some photo => count results (process_photo event_id i photo)
       | None => results
       end)
    completed acc
  = {| Counts.total := Counts.total acc;
       Counts.success :=
         Counts.success acc
         + length (List.filter (gave event_id photos success) completed);
       Counts.failed :=
         Counts.failed acc
         + length (List.filter (gave event_id photos failed) completed);
       Counts.skipped :=
         Counts.skipped acc
         + length (List.filter (gave event_id photos skipped) completed) |}.
Proof.
  revert acc. induction completed as [|i completed IH]; intros acc.
  - simpl. destruct acc. simpl. f_equal; lia.
  - cbn [fold_left List.filter]. rewrite IH.
    destruct (photos !! i) as [photo|]; [|reflexivity].
    destruct (process_photo event_id i photo); simpl; f_equal; lia.
Qed.

Lemma gave_one (event_id : string) (photos : list Item.t) (l : list nat) :
  (∀ i, i ∈ l -> (i < length photos)%nat) ->
  (length (List.filter (gave event_id photos success) l)
   + length (List.filter (gave event_id photos failed) l)
   + length (List.filter (gave event_id photos skipped) l) = length l)%nat.
Proof.
  induction l as [|i l IH]; intros Hl; [reflexivity|].
  rewrite !length_filter_cons. cbn [length]. cbv beta.
  destruct (lookup_lt_is_Some_2 photos i (Hl i ltac:(left))) as (photo & ->).
  specialize (IH (fun j Hj => Hl j ltac:(now right))).
  destruct (process_photo event_id i photo);
    cbn [BulkFacts.same_result] in *; lia.
Qed.

Lemma process_photo_skipped (event_id : string) (i : nat) (photo : Item.t) :
  BulkFacts.same_result skipped (process_photo event_id i photo)
  = negb (ItemFacts.has_id_and_url photo).
Proof.
  unfold BulkIngest.process_photo, ItemFacts.has_id_and_url.
  destruct (Item.id photo) as [[|c0 s0]|]; try reflexivity.
  destruct (py_or _ _) as [[|c1 s1]|]; try reflexivity.
  now destruct (ingest_photo _ _ _ _).
Qed.

Lemma skipped_in_order (event_id : string) (photos : list Item.t) :
  length (List.filter (gave event_id photos skipped) (seq 0 (length photos)))
  = length (List.filter (fun photo => negb (ItemFacts.has_id_and_url photo))
              photos).
Proof.
  induction photos as [|photo photos IH] using rev_ind; [reflexivity|].
  rewrite length_app, Nat.add_1_r, seq_S, !List.filter_app, !length_app.
  cbn [List.filter Nat.add]. rewrite list_lookup_middle by reflexivity.
  rewrite process_photo_skipped, <- IH. f_equal.
  - f_equal. apply List.filter_ext_in. intros i Hi.
    apply in_seq in Hi. now rewrite lookup_app_l by lia.
  - now destruct (negb (ItemFacts.has_id_and_url photo)).
Qed.

(** X26.  The tallies of [bulk_ingest_event] do not depend on the order in
    which the futures complete: each photo is counted once, as ingested,
    failed or skipped, and the photos skipped are those without an id or
    without an address. *)
Theorem bulk_ingest_any_completion_order (event_id : string)
    (photos : list Item.t) (completed : list nat) :
  Permutation completed (seq 0 (length photos)) ->
  let out := bulk_ingest_event event_id photos completed in
  out = bulk_ingest_event event_id photos (seq 0 (length photos))
  ∧ Counts.total out = length photos
  ∧ (Counts.success out + Counts.failed out + Counts.skipped out
     = Counts.total out)%nat
  ∧ Counts.skipped out
    = length (List.filter (fun photo => negb (ItemFacts.has_id_and_url photo))
                photos).
Proof.
  intros Hperm. cbv zeta. unfold BulkIngest.bulk_ingest_event.
  rewrite !bulk_fold.
  cbn [Counts.total Counts.success Counts.failed Counts.skipped Nat.add].
  rewrite !(length_filter_perm _ _ _ Hperm).
  split; [reflexivity|]. split; [reflexivity|].
  split; [|apply skipped_in_order].
  rewrite (gave_one event_id photos (seq 0 (length photos))).
  - apply length_seq.
  - intros i Hi. apply list_elem_of_In, in_seq in Hi. lia.
Qed.

End BulkMore.

(** * Instances of the further theorems *)

Import Samples.

Lemma cache_two_built : LRUCache.built cache_two.
Proof.
  apply (LRUCache.built_set 1 "b" 2%nat cache_a cache_two);
    [|vm_compute; reflexivity].
  apply (LRUCache.built_set 0 "a" 1%nat (LRUCache.init 2 3600) cache_a);
    [apply LRUCache.built_init|vm_compute; reflexivity].
Qed.

Lemma lru_never_exceeds_capacity_witness :
  (Z.of_nat (length (LRUCache.order cache_two)) <= 2)
  ∧ size (LRUCache.store cache_two) = 2%nat.
Proof.
  exact (lru_never_exceeds_capacity cache_two cache_two_built).
Defined.

Lemma lru_set_fails_without_capacity_witness :
  LRUCache.set 0 "a" 1%nat (LRUCache.init 0 60) = Raise IndexError
  ∧ ∃ c', LRUCache.set 5 "c" 3%nat cache_two = Ret c'.
Proof.
  split.
  - apply (lru_set_fails_without_capacity (LRUCache.init 0 60) 0 "a" 1%nat
             (LRUCache.built_init 0 60)).
    simpl. lia.
  - apply (lru_set_fails_without_capacity cache_two 5 "c" 3%nat cache_two_built).
    simpl. lia.
Defined.

Lemma lru_set_get_round_trip_witness :
  ∃ c', LRUCache.set 2 "c" 3%nat cache_two = Ret c'
    ∧ (LRUCache.get 100 "c" c').1 = Some 3%nat
    ∧ (LRUCache.get 5000 "c" c').1 = None.
Proof.
  destruct (LRUCache.set 2 "c" 3%nat cache_two) as [c'|e] eqn:Hset;
    [|vm_compute in Hset; discriminate].
  exists c'. split; [reflexivity|]. split.
  - apply (lru_set_get_round_trip cache_two 2 "c" 3%nat c' 100 Hset).
    apply Qle_bool_iff. reflexivity.
  - apply (lru_set_get_round_trip cache_two 2 "c" 3%nat c' 5000 Hset).
    reflexivity.
Defined.

Lemma compare_confidence_bounds_witness :
  ∃ r, FaceService.compare_faces norm6 service query [0.6; 0.5]%Q None = Ret r
    ∧ (0 <= Comparison.confidence r)%Q
    ∧ (0.4 <= Comparison.confidence r)%Q.
Proof.
  destruct (FaceService.compare_faces norm6 service query [0.6; 0.5]%Q None)
    as [r|e] eqn:Hr; [|vm_compute in Hr; discriminate].
  exists r. split; [reflexivity|].
  destruct (compare_confidence_bounds norm6 service query [0.6; 0.5]%Q None r Hr)
    as (Hpos & _ & Hgate).
  split; [exact Hpos|]. apply Hgate.
  revert Hr. vm_compute. intros [= <-]. simpl. discriminate.
Defined.


Lemma find_keeps_collection_order_witness :
  ∃ res matched,
    FaceService.find_matching_photos norm6 service query collection None = Ret res
    ∧ sublist (map Some (map Matched.id matched))
              [Some "near"; Some "far"; Some "same"]
    ∧ Permutation res matched.
Proof.
  destruct (FaceService.find_matching_photos norm6 service query collection None)
    as [res|e] eqn:Hres; [|vm_compute in Hres; discriminate].
  destruct (find_keeps_collection_order norm6 service query collection None res
              Hres) as (matched & Hsub & Hperm & _).
  exists res, matched. split; [reflexivity|]. split; [exact Hsub|exact Hperm].
Defined.

Lemma two_faces_aligned : IndexFacts.all_aligned two_faces.
Proof.
  intros ev entry H. unfold two_faces in H.
  cbn [FaissService.event_indices] in H.
  apply lookup_singleton_Some in H as [_ <-].
  split; [reflexivity|]. repeat constructor.
Qed.

Lemma ingest_keeps_index_aligned_witness :
  IndexFacts.all_aligned two_faces
  ∧ IndexFacts.all_aligned
      (FaissService.ingest norm6 true embeddings_of two_faces "wedding" "photo2"
         (Some "two.jpg") None).2
  ∧ IndexFacts.all_aligned
      (FaissService.ingest norm6 true embeddings_of two_faces "wedding" "photo2"
         None (Some [1; 2; 3]%Q)).2.
Proof.
  split; [exact two_faces_aligned|]. split.
  - exact (ingest_keeps_index_aligned norm6 true embeddings_of two_faces
             "wedding" "photo2" (Some "two.jpg") None two_faces_aligned).
  - exact (ingest_keeps_index_aligned norm6 true embeddings_of two_faces
             "wedding" "photo2" None (Some [1; 2; 3]%Q) two_faces_aligned).
Defined.

Lemma ingest_only_appends_witness :
  ∃ after,
    FaissService.event_indices
      (FaissService.ingest norm6 true embeddings_of two_faces "wedding" "photo2"
         (Some "two.jpg") None).2 !! "wedding" = Some after
    ∧ Entry.dim after = 2%nat
    ∧ ["photo1#0"; "photo1#1"] `prefix_of` Entry.ids after.
Proof.
  destruct (ingest_only_appends norm6 true embeddings_of two_faces "wedding"
              "photo2" (Some "two.jpg") None) as (_ & H).
  destruct (H {| Entry.dim := 2;
                 Entry.index := [[1; 0]%Q; [0; 1]%Q];
                 Entry.ids := ["photo1#0"; "photo1#1"];
                 Entry.vectors := [[1; 0]%Q; [0; 1]%Q] |})
    as (after & Hafter & Hdim & _ & Hids & _); [vm_compute; reflexivity|].
  exists after. auto.
Defined.

Lemma ingest_vector_outcome_witness :
  (FaissService.ingest norm6 true embeddings_of two_faces "wedding" "photo2"
     (Some "ignored.jpg") (Some [3; 4]%Q)).1 = Ret true
  ∧ (FaissService.ingest norm6 true embeddings_of two_faces "wedding" "photo2"
       None (Some [1; 2; 3]%Q)).1 = Raise ValueError
  ∧ (FaissService.ingest norm6 true embeddings_of two_faces "party" "photo2"
       None (Some [1; 2; 3]%Q)).1 = Ret true.
Proof.
  split; [|split].
  - exact (proj1 (ingest_vector_outcome norm6 true embeddings_of two_faces
                    "wedding" "photo2" (Some "ignored.jpg") [3; 4]%Q
                    (or_introl eq_refl))).
  - exact (proj1 (ingest_vector_outcome norm6 true embeddings_of two_faces
                    "wedding" "photo2" None [1; 2; 3]%Q (or_introl eq_refl))).
  - exact (proj1 (ingest_vector_outcome norm6 true embeddings_of two_faces
                    "party" "photo2" None [1; 2; 3]%Q (or_introl eq_refl))).
Defined.

Lemma match_answers_well_formed_queries_witness :
  (∃ res, (FaissService.match_ norm6 true later_first two_faces "wedding" [1; 0]%Q 20
             0.35%Q).1 = Ret res)
  ∧ (FaissService.match_ norm6 true later_first two_faces "wedding" [1; 0; 0]%Q 20
       0.35%Q).1 = Raise AssertionError
  ∧ (FaissService.match_ norm6 true later_first two_faces "wedding" [1; 0]%Q 0
       0.35%Q).1 = Raise AssertionError.
Proof.
  pose proof (fun query top_k =>
                match_answers_well_formed_queries norm6 true later_first two_faces "wedding"
                  {| Entry.dim := 2;
                     Entry.index := [[1; 0]%Q; [0; 1]%Q];
                     Entry.ids := ["photo1#0"; "photo1#1"];
                     Entry.vectors := [[1; 0]%Q; [0; 1]%Q] |}
                  query top_k 0.35%Q (or_introl eq_refl)
                  ltac:(vm_compute; reflexivity) ltac:(discriminate)
                  (two_faces_aligned "wedding" _ ltac:(vm_compute; reflexivity)))
    as H.
  split; [|split].
  - apply (H [1; 0]%Q 20). split; [reflexivity|lia].
  - apply (H [1; 0; 0]%Q 20). left. simpl. lia.
  - apply (H [1; 0]%Q 0). right. lia.
Defined.

Lemma match_result_bounded_witness :
  ∃ res self',
    FaissService.match_ norm6 true later_first two_faces "wedding" [1; 1]%Q 1 0.35%Q
    = (Ret res, self')
    ∧ (length res <= 1)%nat
    ∧ ∀ h, h ∈ res -> before_hash (Hit.id h) = Hit.id h.
Proof.
  destruct (FaissService.match_ norm6 true later_first two_faces "wedding" [1; 1]%Q 1 0.35%Q)
    as [[res|e] self'] eqn:Hm; [|vm_compute in Hm; discriminate].
  destruct (match_result_bounded norm6 true later_first two_faces "wedding" [1; 1]%Q 1
              0.35%Q res self' Hm) as (Hk & _ & Hids & _).
  exists res, self'. split; [reflexivity|]. split; [simpl in Hk; lia|].
  intros h Hh. apply (Hids h Hh).
Defined.

Lemma ingest_then_match_finds_witness :
  ∃ res self2 h,
    FaissService.match_ norm6 true later_first
      (FaissService.ingest norm6 true embeddings_of two_faces "wedding"
         "photo9" None (Some [3; 4]%Q)).2
      "wedding" [3; 4]%Q 20 0.35%Q = (Ret res, self2)
    ∧ h ∈ res ∧ Hit.id h = "photo9".
Proof.
  destruct (ingest_then_match_finds norm6 true embeddings_of later_first two_faces
              (FaissService.ingest norm6 true embeddings_of two_faces "wedding"
                 "photo9" None (Some [3; 4]%Q)).2
              "wedding" "photo9" None [3; 4]%Q [3; 4]%Q 20 0.35%Q
              two_faces_aligned)
    as (res & self2 & h & Hm & Hh & Hid & _).
  - vm_compute. reflexivity.
  - reflexivity.
  - vm_compute. discriminate.
  - apply Qle_bool_iff. vm_compute. reflexivity.
  - exists res, self2, h. auto.
Defined.

Lemma multi_scale_first_level_witness :
  Detection.attempt (Detection.multi_scale nat detector 0%nat [0; 1; 2]%nat)
  = three_boxes
  ∧ Detection.attempt (Detection.multi_scale nat detector 0%nat [0; 1]%nat)
    ≠ three_boxes.
Proof.
  split.
  - apply (multi_scale_first_level nat detector 0%nat [0; 1; 2]%nat three_boxes);
      [discriminate|].
    exists [0; 1]%nat, 2%nat, []. split; [reflexivity|]. split; [|reflexivity].
    intros u Hu.
    apply elem_of_cons in Hu as [->|Hu]; [reflexivity|].
    apply elem_of_cons in Hu as [->|Hu]; [reflexivity|]. inversion Hu.
  - intros H.
    apply (multi_scale_first_level nat detector 0%nat [0; 1]%nat three_boxes)
      in H as (before & upsample & after & Heq & _ & Hfound); [|discriminate].
    destruct before as [|a [|b [|c before]]]; simpl in Heq;
      try discriminate; injection Heq; intros; subst;
      try discriminate Hfound.
Defined.

Example detect_faces_after_failure :
  Detection._detect_faces_multiple_methods nat detector "cnn" 0%nat
  = [ (0, 10, 10, 0); (200, 300, 300, 200) ].
Proof. vm_compute. reflexivity. Qed.

Example get_face_descriptor_takes_largest :
  Extraction.get_face_descriptor nat detector string loader encoder "cnn"
    service "face.jpg"
  = Extraction.descriptor [900%Q]
  ∧ Extraction.get_face_descriptor nat detector string loader encoder "cnn"
      service "missing.jpg"
    = Extraction.failed (Extraction.failed_to_analyze Extraction.could_not_load)
  ∧ Extraction.get_face_descriptor nat detector string loader encoder "cnn"
      FaceService.init "face.jpg"
    = Extraction.failed Extraction.service_not_initialized.
Proof. repeat split; vm_compute; reflexivity. Qed.

Lemma descriptors_never_empty_witness :
  (Extraction.get_face_descriptors_from_url nat detector loader encoder "cnn"
     10 11 "face.jpg" descriptor_cache).1 ≠ Some []
  ∧ (Extraction.get_face_descriptors_from_url nat detector loader encoder "cnn"
       10 11 "missing.jpg" descriptor_cache).1 ≠ Some [].
Proof.
  assert (Hempty : ∀ k ts (v : list (list Q)),
            LRUCache.store descriptor_cache !! k = Some (ts, v) -> v ≠ []).
  { intros k ts v H. unfold descriptor_cache in H. simpl in H.
    rewrite lookup_empty in H. discriminate. }
  split.
  - exact (proj1 (descriptors_never_empty nat detector loader encoder "cnn"
                    10 11 "face.jpg" descriptor_cache Hempty)).
  - exact (proj1 (descriptors_never_empty nat detector loader encoder "cnn"
                    10 11 "missing.jpg" descriptor_cache Hempty)).
Defined.

Lemma descriptors_served_from_cache_witness :
  ∃ descriptors cache1,
    Extraction.get_face_descriptors_from_url nat detector loader encoder "cnn"
      10 11 "face.jpg" descriptor_cache = (Some descriptors, cache1)
    ∧ (Extraction.get_face_descriptors_from_url nat detector offline encoder
         "hog" 3000 3001 "face.jpg" cache1).1 = Some descriptors
    ∧ (Extraction.get_face_descriptors_from_url nat detector offline encoder
         "hog" 3000 3001 "face.jpg"
         (Extraction.get_face_descriptors_from_url nat detector loader_two
            encoder "cnn" 20 21 "other.jpg" cache1).2).1 = Some descriptors
    ∧ (Extraction.get_face_descriptors_from_url nat detector offline encoder
         "hog" 4000 4001 "face.jpg" cache1).1 = None.
Proof.
  destruct (Extraction.get_face_descriptors_from_url nat detector loader encoder
              "cnn" 10 11 "face.jpg" descriptor_cache)
    as [[descriptors|] cache1] eqn:Hcall; [|vm_compute in Hcall; discriminate].
  exists descriptors, cache1. split; [reflexivity|].
  destruct (descriptors_served_from_cache nat detector loader encoder "cnn"
              nat detector offline encoder "hog"
              10 11 "face.jpg" descriptor_cache descriptors cache1 Hcall)
    as (stamp & Hstamp & Httl & _ & Hsame & _).
  destruct (descriptors_served_from_cache nat detector loader encoder "cnn"
              nat detector loader_two encoder "cnn"
              10 11 "face.jpg" descriptor_cache descriptors cache1 Hcall)
    as (stamp' & Hstamp' & _ & Hbuilt & _ & Hother).
  assert (Hs : stamp = 11%Q).
  { revert Hcall Hstamp. vm_compute. intros [= <- <-]. now intros [= <-]. }
  assert (Hs' : stamp' = 11%Q).
  { revert Hcall Hstamp'. vm_compute. intros [= <- <-]. now intros [= <-]. }
  assert (Hroom : Z.of_nat (length (LRUCache.order cache1))
                  < LRUCache.capacity cache1).
  { revert Hcall. vm_compute. intros [= _ <-]. reflexivity. }
  subst stamp stamp'.
  pose proof (Hother cache1 20%Q 21%Q "other.jpg" ltac:(discriminate)
                (Hbuilt (LRUCache.built_init 2000 3600)) Hstamp'
                (or_introl Hroom)) as Hkept.
  cbv zeta in Hkept. destruct Hkept as (Hkept & Httl' & _).
  split; [|split].
  - apply (Hsame cache1 3000%Q 3001%Q Hstamp). rewrite Httl.
    apply Qle_bool_iff. reflexivity.
  - apply (Hsame _ 3000%Q 3001%Q Hkept). rewrite Httl', Httl.
    apply Qle_bool_iff. reflexivity.
  - revert Hcall. vm_compute. intros [= <- <-]. reflexivity.
Defined.

Example descriptors_evicted_from_full_cache :
  let cache1 :=
    (Extraction.get_face_descriptors_from_url nat detector loader_two encoder
       "cnn" 10 11 "face.jpg" (LRUCache.init 1 3600)).2 in
  let cache2 :=
    (Extraction.get_face_descriptors_from_url nat detector loader_two encoder
       "cnn" 20 21 "other.jpg" cache1).2 in
  head (LRUCache.order cache1) = Some "face.jpg"
  ∧ Z.of_nat (length (LRUCache.order cache1)) = LRUCache.capacity cache1
  ∧ LRUCache.store cache2 !! "face.jpg" = None
  ∧ (Extraction.get_face_descriptors_from_url nat detector offline encoder
       "hog" 30 31 "face.jpg" cache1).1
    = Some [[100]%Q; [900]%Q]
  ∧ (Extraction.get_face_descriptors_from_url nat detector offline encoder
       "hog" 30 31 "face.jpg" cache2).1 = None.
Proof. vm_compute. repeat split; reflexivity. Qed.

Example optimized_url_adds_width :
  Url.optimized_url "https://res.cloudinary.com/demo/image/upload/v1/a.jpg"
  = "https://res.cloudinary.com/demo/image/upload/w_640,q_75,c_limit,fl_lossy/v1/a.jpg"
  ∧ Url.optimized_url "https://res.cloudinary.com/demo/image/upload/w_200/a.jpg"
    = "https://res.cloudinary.com/demo/image/upload/w_200/a.jpg"
  ∧ Url.optimized_url "https://example.com/image/upload/a.jpg"
    = "https://example.com/image/upload/a.jpg"
  ∧ Url.replace "aa" "b" "aaa" = "ba".
Proof. repeat split; vm_compute; reflexivity. Qed.

Lemma optimized_url_idempotent_witness :
  Url.contains "/w_"
    (Url.optimized_url "https://res.cloudinary.com/demo/image/upload/v1/a.jpg")
  = true.
Proof.
  apply (optimized_url_idempotent
           "https://res.cloudinary.com/demo/image/upload/v1/a.jpg");
    vm_compute; reflexivity.
Defined.

Example compute_embedding_first_of_ties :
  (Embedding.compute_embedding_from_url norm6 true nat
     (fun url => Ret (loader url)) faces_of empty_index "face.jpg").1
  = Ret (Some (FaissService.normalize norm6 [1; 0]%Q)).
Proof. vm_compute. reflexivity. Qed.

Example process_photos_sample :
  (PhotoWorker.process_photos nat post worker batch).1
  = {| Counts.total := 3; Counts.success := 1; Counts.failed := 0;
       Counts.skipped := 2 |}.
Proof. vm_compute. reflexivity. Qed.

Lemma process_photos_again_skips_all_witness :
  (PhotoWorker.process_photos nat post
     (PhotoWorker.process_photos nat post worker batch).2 batch).1
  = {| Counts.total := 3; Counts.success := 0; Counts.failed := 0;
       Counts.skipped := 3 |}
  ∧ PhotoWorker.backend nat
      (PhotoWorker.process_photos nat post
         (PhotoWorker.process_photos nat post worker batch).2 batch).2
    = 1%nat.
Proof.
  pose proof (process_photos_again_skips_all nat post worker batch
                ltac:(vm_compute; reflexivity)) as H.
  rewrite H. split; [reflexivity|]. vm_compute. reflexivity.
Defined.

Lemma bulk_ingest_any_completion_order_witness :
  BulkIngest.bulk_ingest_event answers "e" batch [2; 0; 1]%nat
  = BulkIngest.bulk_ingest_event answers "e" batch [0; 1; 2]%nat
  ∧ BulkIngest.bulk_ingest_event answers "e" batch [2; 0; 1]%nat
    = {| Counts.total := 3; Counts.success := 2; Counts.failed := 1;
         Counts.skipped := 0 |}.
Proof.
  split; [|vm_compute; reflexivity].
  apply (bulk_ingest_any_completion_order answers "e" batch [2; 0; 1]%nat).
  apply (Permutation_cons_append [0; 1]%nat 2%nat).
Defined.

Lemma ingest_identifier_scheme_witness :
  (let out := FaissService.ingest norm6 true embeddings_of two_faces "wedding"
                "photo2" (Some "two.jpg") None in
   out.1 = Ret true
   ∧ FaissService.ids_of out.2 "wedding"
     = ["photo1#0"; "photo1#1"; "photo2#0"; "photo2#1"]
   ∧ FaissService.rows_of out.2 "wedding"
     = [[1; 0]; [0; 1]; [1; 0]; [0; 1]]%Q
   ∧ FaissService.vectors_of out.2 "wedding"
     = [[1; 0]; [0; 1]; [1; 0]; [0; 1]]%Q)
  ∧ (let out := FaissService.ingest norm6 true embeddings_of
                  (FaissService.ingest norm6 true embeddings_of empty_index
                     "wedding" "photo2" None (Some [3; 4]%Q)).2
                  "wedding" "photo2" None (Some [4; 3]%Q) in
     FaissService.ids_of out.2 "wedding"
     = FaissService.ids_of empty_index "wedding" ++ ["photo2"; "photo2"]
     ∧ FaissService.rows_of out.2 "wedding"
       = FaissService.rows_of empty_index "wedding"
         ++ [FaissService.normalize norm6 [3; 4]%Q;
             FaissService.normalize norm6 [4; 3]%Q]
     ∧ FaissService.vectors_of out.2 "wedding"
       = FaissService.vectors_of empty_index "wedding"
         ++ [FaissService.normalize norm6 [3; 4]%Q;
             FaissService.normalize norm6 [4; 3]%Q])
  ∧ (let out := FaissService.ingest norm6 true
                  (fun url =>
                     (Embedding.compute_embeddings_from_url norm6 true nat
                        (fun url => Ret (loader url)) faces_of
                        {| FaissService.initialized := true;
                           FaissService.event_indices :=
                             FaissService.event_indices two_faces |} url).1)
                  two_faces "wedding" "photo2" (Some "face.jpg") None in
     FaissService.ids_of out.2 "wedding"
     = ["photo1#0"; "photo1#1"; "photo2#0"; "photo2#1"; "photo2#2"]
     ∧ FaissService.rows_of out.2 "wedding"
       = [[1; 0]%Q; [0; 1]%Q; FaissService.normalize norm6 [3; 4]%Q;
          FaissService.normalize norm6 [1; 0]%Q;
          FaissService.normalize norm6 [0; 1]%Q]).
Proof.
  cbv zeta.
  destruct (ingest_identifier_scheme norm6 true embeddings_of nat
              (fun url => Ret (loader url)) faces_of two_faces
              "wedding" "photo2" (Some "two.jpg"))
    as (_ & _ & _ & _ & _ & Hurl & _ & _ & _).
  destruct (ingest_identifier_scheme norm6 true embeddings_of nat
              (fun url => Ret (loader url)) faces_of empty_index
              "wedding" "photo2" None) as (_ & _ & _ & _ & Hvec & _).
  destruct (ingest_identifier_scheme norm6 true embeddings_of nat
              (fun url => Ret (loader url)) faces_of two_faces
              "wedding" "photo2" (Some "face.jpg"))
    as (_ & _ & _ & _ & _ & _ & _ & _ & Hfaces).
  split; [|split].
  - split; [vm_compute; reflexivity|].
    destruct (Hurl ltac:(vm_compute; reflexivity))
      as (url & vecs & [= <-] & Hc & Hids & Hrows & Hvecs).
    vm_compute in Hc. injection Hc as <-.
    rewrite Hids, Hrows, Hvecs. repeat split; vm_compute; reflexivity.
  - apply (Hvec [3; 4]%Q [4; 3]%Q None); vm_compute; reflexivity.
  - destruct (Hfaces ltac:(vm_compute; reflexivity))
      as (url & img & faces & [= <-] & Himg & Hf & Hids & Hrows & _).
    vm_compute in Himg. injection Himg as <-.
    vm_compute in Hf. injection Hf as <-.
    rewrite Hids, Hrows. split; vm_compute; reflexivity.
Defined.
